(** * conntection_pool.cpp: a blocking pool of SQLite connections

    The development follows the source file top to bottom:

    - the SQLite C API the program calls ([sqlite3_open], [sqlite3_errmsg],
      [sqlite3_exec], [sqlite3_close]) is an interface, [Sqlite3], whose
      implementation is outside the program;
    - [SQLiteDBConnection] is the wrapper class around one [sqlite3*];
    - [ConnectionPool] is the pool; its methods are given twice: as
      functions for a caller that is alone on the pool, and statement by
      statement, as the steps of threads interleaved on one pool with its
      [m_mutex] and [m_condVar].  The lemmas [solo_getConnection],
      [solo_releaseConnection], [solo_getConnection_waits] and
      [solo_run_ops] show that the functions say what a thread does when
      nobody interferes.

    The definitions come first, the facts after them; the last part runs
    the program on a scripted SQLite. *)

From Stdlib Require Import ZArith.
From stdpp Require Import base option list gmap strings pretty.

(** ** Strings and streams *)

(** [std::string::c_str()] hands a C function the bytes before the first
    NUL. *)
Fixpoint c_str (s : string) : string :=
  match s with
  | EmptyString => EmptyString
  | String a rest =>
      if Ascii.eqb a Ascii.zero then EmptyString else String a (c_str rest)
  end.

Definition newline : string := String (Ascii.ascii_of_nat 10) EmptyString.

(** [std::endl] writes a line feed (and flushes). *)
Definition endl : string := newline.

(** ** The SQLite C API *)

Definition SQLITE_OK : Z := 0%Z.

(** [W] is the state of the library and of the databases behind it,
    [handle] the non-null values of [sqlite3*], so that a [sqlite3*] is an
    [option handle].  [sqlite3_open] returns its result code and what it
    stored through [ppDb]; [sqlite3_exec] returns its result code and what
    it stored through [errmsg]. *)
Class Sqlite3 (W handle : Type) := {
  sqlite3_open : string → W → Z * option handle * W;
  sqlite3_errmsg : option handle → W → string;
  sqlite3_exec : option handle → string → W → Z * option string * W;
  sqlite3_close : option handle → W → W
}.

(** What the program does to the outside, in program order: its calls into
    SQLite with their results, and what it inserts into the two streams.
    [ev_cerr_null] is [std::cerr << s] for a null [char* s]. *)
Inductive Event (handle : Type) :=
| ev_open (filename : string) (rc : Z) (db : option handle)
| ev_errmsg (db : option handle)
| ev_exec (db : option handle) (sql : string) (rc : Z) (errmsg : option string)
| ev_free (errmsg : option string)
| ev_close (db : option handle)
| ev_cout (text : string)
| ev_cerr (text : string)
| ev_cerr_null.
Arguments ev_open {handle}.
Arguments ev_errmsg {handle}.
Arguments ev_exec {handle}.
Arguments ev_free {handle}.
Arguments ev_close {handle}.
Arguments ev_cout {handle}.
Arguments ev_cerr {handle}.
Arguments ev_cerr_null {handle}.

Record Env (W handle : Type) := mkEnv {
  sqlite : W;
  trace : list (Event handle)
}.
Arguments mkEnv {W handle}.
Arguments sqlite {W handle}.
Arguments trace {W handle}.

Definition emit {W handle} (ev : Event handle) (e : Env W handle) : Env W handle :=
  mkEnv (sqlite e) (trace e ++ [ev]).

Definition emit_all {W handle} (evs : list (Event handle)) (e : Env W handle)
  : Env W handle :=
  mkEnv (sqlite e) (trace e ++ evs).

(** [std::cerr << text << s << std::endl] for a [char* s]. *)
Definition cerr_c_string {handle} (text : string) (s : option string)
  : list (Event handle) :=
  match s with
  | Some chars => [ev_cerr (text +:+ chars +:+ endl)]
  | None => [ev_cerr text; ev_cerr_null; ev_cerr endl]
  end.



(** ** class SQLiteDBConnection *)

Record SQLiteDBConnection (handle : Type) := mkConnection {
  m_db : option handle
}.
Arguments mkConnection {handle}.
Arguments m_db {handle}.

Section Connection.
Context {W handle : Type} `{!Sqlite3 W handle}.

(** Lines 15-22. *)
Definition SQLiteDBConnection_ctor (dbFile : string) (e : Env W handle)
  : SQLiteDBConnection handle * Env W handle :=
  let '(rc, db, w) := sqlite3_open (c_str dbFile) (sqlite e) in
  let e1 := emit (ev_open (c_str dbFile) rc db) (mkEnv w (trace e)) in
  if negb (rc =? SQLITE_OK)%Z then
    let msg := sqlite3_errmsg db w in
    let e2 := emit (ev_errmsg db) e1 in
    let e3 := emit (ev_cerr ("Failed to open database: " +:+ msg +:+ endl)) e2 in
    (mkConnection None, e3)
  else (mkConnection db, e1).

(** Lines 24-30. *)
Definition SQLiteDBConnection_dtor (this : SQLiteDBConnection handle) (e : Env W handle)
  : Env W handle :=
  match m_db this with
  | Some _ =>
      emit (ev_close (m_db this)) (mkEnv (sqlite3_close (m_db this) (sqlite e)) (trace e))
  | None => e
  end.

(** Lines 32-35. *)
Definition isConnected (this : SQLiteDBConnection handle) : bool :=
  match m_db this with
  | Some _ => true
  | None => false
  end.

(** Lines 37-55.  The method is not [const]: it returns the object it
    leaves behind next to its [bool]. *)
Definition executeQuery (this : SQLiteDBConnection handle) (query : string)
    (e : Env W handle) : bool * SQLiteDBConnection handle * Env W handle :=
  if negb (isConnected this) then
    (false, this, emit (ev_cerr ("Not connected to database." +:+ endl)) e)
  else
    let '(rc, errMsg, w) := sqlite3_exec (m_db this) (c_str query) (sqlite e) in
    let e1 := emit (ev_exec (m_db this) (c_str query) rc errMsg) (mkEnv w (trace e)) in
    if negb (rc =? SQLITE_OK)%Z then
      let e2 := emit_all (cerr_c_string "SQL error: " errMsg) e1 in
      (false, this, emit (ev_free errMsg) e2)
    else (true, this, emit (ev_cout ("successful " +:+ newline +:+ endl)) e1).

(** [executeQuery] once per statement of [queries], in order, on the same
    object. *)
Fixpoint executeQueries (this : SQLiteDBConnection handle) (queries : list string)
    (e : Env W handle) : list bool * SQLiteDBConnection handle * Env W handle :=
  match queries with
  | [] => ([], this, e)
  | query :: rest =>
      let '(ok, this1, e1) := executeQuery this query e in
      let '(oks, this2, e2) := executeQueries this1 rest e1 in
      (ok :: oks, this2, e2)
  end.


End Connection.

(** ** Objects behind [std::shared_ptr] *)

(** A [std::shared_ptr<SQLiteDBConnection>] is the address of the object it
    shares; copies of a pointer are the same address. *)
Abbreviation loc := nat.

Record Memory (W handle : Type) := mkMemory {
  env : Env W handle;
  heap : gmap loc (SQLiteDBConnection handle)
}.
Arguments mkMemory {W handle}.
Arguments env {W handle}.
Arguments heap {W handle}.

(** ** class ConnectionPool *)

(** [m_connections] is the [std::queue]: its front is the head of the list,
    [push] appends.  [m_mutex] and [m_condVar] hold nothing between two
    calls of a caller that is alone; they are part of [Shared] below. *)
Record ConnectionPool := mkPool {
  m_dbFile : string;
  m_poolSize : nat;
  m_connections : list loc
}.

Definition available_count (self : ConnectionPool) : nat := length (m_connections self).

Definition queue_push (connection : loc) (self : ConnectionPool) : ConnectionPool :=
  mkPool (m_dbFile self) (m_poolSize self) (m_connections self ++ [connection]).

Definition queue_pop (self : ConnectionPool) : ConnectionPool :=
  mkPool (m_dbFile self) (m_poolSize self) (tail (m_connections self)).

(** The result of [getConnection] for a caller alone on the pool: on an
    empty queue the caller waits on [m_condVar] and nobody is there to
    push. *)
Inductive Acquired (W handle : Type) :=
| Returned (connection : loc) (self : ConnectionPool) (m : Memory W handle)
| WaitsForever.
Arguments Returned {W handle}.
Arguments WaitsForever {W handle}.

Section Pool.
Context {W handle : Type} `{!Sqlite3 W handle}.

(** [std::make_shared<SQLiteDBConnection>(dbFile)]: a new object, at an
    address no live object has. *)
Definition make_shared (dbFile : string) (m : Memory W handle) : loc * Memory W handle :=
  let '(obj, e) := SQLiteDBConnection_ctor dbFile (env m) in
  let p := fresh (dom (heap m)) in
  (p, mkMemory e (<[p := obj]> (heap m))).

(** The last [shared_ptr] to an object goes out of scope: the object is
    destroyed. *)
Definition destroy (p : loc) (m : Memory W handle) : Memory W handle :=
  match heap m !! p with
  | Some obj => mkMemory (SQLiteDBConnection_dtor obj (env m)) (delete p (heap m))
  | None => m
  end.

Definition cout (text : string) (m : Memory W handle) : Memory W handle :=
  mkMemory (emit (ev_cout text) (env m)) (heap m).

Definition cerr (text : string) (m : Memory W handle) : Memory W handle :=
  mkMemory (emit (ev_cerr text) (env m)) (heap m).

(** Lines 98-112: the body of the [for] loop, for one value of [i].  A
    dangling [connection] has no [isConnected] to call ([None]). *)
Definition initializePool_body (i : nat) (self : ConnectionPool) (m : Memory W handle)
  : option (ConnectionPool * Memory W handle) :=
  let '(connection, m1) := make_shared (m_dbFile self) m in
  obj ← heap m1 !! connection;
  if isConnected obj then Some (queue_push connection self, m1)
  else
    let m2 := cerr ("Failed to create connection " +:+ pretty i +:+ endl) m1 in
    Some (self, destroy connection m2).

(** The loop, with [n] iterations left. *)
Fixpoint initializePool_from (n i : nat) (self : ConnectionPool) (m : Memory W handle)
  : option (ConnectionPool * Memory W handle) :=
  match n with
  | O => Some (self, m)
  | S n' =>
      '(self', m') ← initializePool_body i self m;
      initializePool_from n' (S i) self' m'
  end.

Definition initializePool (self : ConnectionPool) (m : Memory W handle)
  : option (ConnectionPool * Memory W handle) :=
  initializePool_from (m_poolSize self) 0 self m.

(** Lines 65-68. *)
Definition ConnectionPool_ctor (dbFile : string) (poolSize : nat) (m : Memory W handle)
  : option (ConnectionPool * Memory W handle) :=
  initializePool (mkPool dbFile poolSize []) m.

(** Lines 75-88, for a caller alone on the pool. *)
Definition getConnection (self : ConnectionPool) (m : Memory W handle) : Acquired W handle :=
  match m_connections self with
  | [] => WaitsForever
  | connection :: _ =>
      Returned connection (queue_pop self)
        (cout ("get connection successful " +:+ newline +:+ endl) m)
  end.

(** Lines 90-95, for a caller alone on the pool. *)
Definition releaseConnection (connection : loc) (self : ConnectionPool)
    (m : Memory W handle) : ConnectionPool * Memory W handle :=
  (queue_push connection self, m).

(** [connection->executeQuery(query)] through a pointer. *)
Definition call_executeQuery (connection : loc) (query : string) (m : Memory W handle)
  : option (bool * Memory W handle) :=
  obj ← heap m !! connection;
  let '(ok, obj', e) := executeQuery obj query (env m) in
  Some (ok, mkMemory e (<[connection := obj']> (heap m))).

(** A caller alone on the pool makes one call after the other. *)
Inductive Op :=
| acquire
| release (connection : loc).

(** What [release] calls pass, in order. *)
Definition released (ops : list Op) : list loc :=
  omap (λ op, match op with
              | release connection => Some connection
              | acquire => None
              end) ops.

(** The calls [ops] in order: what the acquires return, in order, and what
    is left; [None] when one of the acquires waits forever. *)
Fixpoint run_ops (ops : list Op) (self : ConnectionPool) (m : Memory W handle)
  : option (list loc * ConnectionPool * Memory W handle) :=
  match ops with
  | [] => Some ([], self, m)
  | acquire :: rest =>
      match getConnection self m with
      | Returned connection self1 m1 =>
          '(out, self2, m2) ← run_ops rest self1 m1;
          Some (connection :: out, self2, m2)
      | WaitsForever => None
      end
  | release connection :: rest =>
      let '(self1, m1) := releaseConnection connection self m in
      run_ops rest self1 m1
  end.

(** [getConnection] then [releaseConnection] of what it returned, [n]
    times. *)
Fixpoint round_trips (n : nat) (self : ConnectionPool) (m : Memory W handle)
  : option (ConnectionPool * Memory W handle) :=
  match n with
  | O => Some (self, m)
  | S n' =>
      match getConnection self m with
      | Returned connection self1 m1 =>
          let '(self2, m2) := releaseConnection connection self1 m1 in
          round_trips n' self2 m2
      | WaitsForever => None
      end
  end.

End Pool.

(** The opens of a trace, with what they answered. *)
Definition opens {handle} (tr : list (Event handle)) : list (string * Z * option handle) :=
  omap (λ ev, match ev with
              | ev_open filename rc db => Some (filename, rc, db)
              | _ => None
              end) tr.

(** An open leaves a connected object behind when it returns [SQLITE_OK]
    and a handle. *)
Definition connects {handle} (r : Z * option handle) : bool :=
  match r with
  | (rc, Some _) => (rc =? SQLITE_OK)%Z
  | (_, None) => false
  end.

Section Construction.
Context {W handle : Type} `{!Sqlite3 W handle}.

(** What [n] calls of [sqlite3_open] in a row answer, from the state [w]
    of the library. *)
Fixpoint attempts (n : nat) (filename : string) (w : W) : list (Z * option handle) :=
  match n with
  | O => []
  | S n' =>
      let '(rc, db, w') := sqlite3_open filename w in
      (rc, db) :: attempts n' filename w'
  end.

Definition successfully_opened (dbFile : string) (poolSize : nat) (m : Memory W handle)
  : list (Z * option handle) :=
  filter (λ r, connects r) (attempts poolSize (c_str dbFile) (sqlite (env m))).

Definition successfully_opened_count (dbFile : string) (poolSize : nat)
    (m : Memory W handle) : nat :=
  length (successfully_opened dbFile poolSize m).

(** What the loop of [initializePool] has done after [n] more iterations:
    [new] is what it pushed. *)
Record loop_result (n : nat) (self : ConnectionPool) (m : Memory W handle)
    (self' : ConnectionPool) (m' : Memory W handle) (new : list loc) : Prop := {
  loop_dbFile : m_dbFile self' = m_dbFile self;
  loop_poolSize : m_poolSize self' = m_poolSize self;
  loop_queue : m_connections self' = m_connections self ++ new;
  loop_opens : ∃ evs,
      trace (env m') = trace (env m) ++ evs ∧
      opens evs = (λ r, (c_str (m_dbFile self), r.1, r.2))
                    <$> attempts n (c_str (m_dbFile self)) (sqlite (env m));
  loop_objects :
      (λ c, heap m' !! c) <$> new
      = (λ r, Some (mkConnection r.2))
          <$> filter (λ r, connects r) (attempts n (c_str (m_dbFile self)) (sqlite (env m)));
  loop_nodup : NoDup new;
  loop_new : ∀ c, c ∈ new → heap m !! c = None;
  loop_dom : dom (heap m') = dom (heap m) ∪ list_to_set new;
  loop_old : ∀ p obj, heap m !! p = Some obj → heap m' !! p = Some obj
}.

End Construction.

(** ** A scripted SQLite to run the program on

    The state is the number of handles issued so far and the result codes
    of the opens still to come (an open past the end of the script
    succeeds); the statements ["bad"] and ["worse"] are rejected, each with
    its own message, the statement ["oom"] is rejected without one. *)
Module Scripted.

Definition W : Type := nat * list Z.

Definition open (filename : string) (w : W) : Z * option nat * W :=
  match w.2 with
  | [] => (SQLITE_OK, Some w.1, (S w.1, []))
  | rc :: script => (rc, Some w.1, (S w.1, script))
  end.

Definition errmsg (db : option nat) (w : W) : string := "unable to open database file".

Definition exec (db : option nat) (sql : string) (w : W) : Z * option string * W :=
  if String.eqb sql "bad" then (1%Z, Some "syntax error", w)
  else if String.eqb sql "worse" then (1%Z, Some "no such table", w)
  else if String.eqb sql "oom" then (7%Z, None, w)
  else (SQLITE_OK, None, w).

Definition close (db : option nat) (w : W) : W := w.

#[global] Instance api : Sqlite3 W nat := {
  sqlite3_open := open;
  sqlite3_errmsg := errmsg;
  sqlite3_exec := exec;
  sqlite3_close := close
}.

(** A process that has done nothing yet, in front of the script [script]. *)
Definition boot (script : list Z) : Memory W nat :=
  mkMemory (mkEnv (0, script) []) ∅.

End Scripted.


(** ** Threads on one pool

    A thread is either in caller code or at a statement of one of the two
    public methods; the constructors of [pc] are named by the line the
    thread is about to execute.  [connection] is the local variable of
    [getConnection], resp. the parameter of [releaseConnection]. *)
Abbreviation tid := nat.

Inductive pc :=
| Outside
| Get77                          (* std::unique_lock<std::mutex> lock(m_mutex) *)
| Get79                          (* while(m_connections.empty()) *)
| Get81_blocked                  (* inside m_condVar.wait(lock), mutex released *)
| Get81_woken                    (* inside m_condVar.wait(lock), locking again *)
| Get84                          (* auto connection = m_connections.front() *)
| Get85 (connection : loc)       (* std::cout << ... *)
| Get86 (connection : loc)       (* m_connections.pop() *)
| Get87 (connection : loc)       (* return connection *)
| Rel92 (connection : loc)       (* std::unique_lock<std::mutex> lock(m_mutex) *)
| Rel93 (connection : loc)       (* m_connections.push(connection) *)
| Rel94 (connection : loc)       (* m_condVar.notify_one() *)
| Rel95 (connection : loc)       (* } *)
| Undefined.                     (* front() or pop() of an empty std::queue *)

#[global] Instance pc_eq_dec : EqDecision pc.
Proof. solve_decision. Defined.

(** [held] is not a variable of the program: it lists what [getConnection]
    has returned to the thread and the thread has not passed to
    [releaseConnection] since. *)
Record Thread := mkThread {
  at_pc : pc;
  held : list loc
}.

Record Shared (W handle : Type) := mkShared {
  mem : Memory W handle;
  pool : ConnectionPool;
  m_mutex : option tid;
  threads : list Thread
}.
Arguments mkShared {W handle}.
Arguments mem {W handle}.
Arguments pool {W handle}.
Arguments m_mutex {W handle}.
Arguments threads {W handle}.

(** What the scheduler and the callers choose: a call of a pool method by
    a thread that is in caller code, the next statement of a thread, which
    waiter a [notify_one] wakes, a wake-up nobody asked for, and a call of
    [executeQuery] by a thread that is in caller code.  [m_condVar] has no
    state of its own: the threads waiting on it are the threads at
    [Get81_blocked].  [executeQuery] takes no lock of the program and is
    one step. *)
Inductive Label :=
| call_getConnection (t : tid)
| call_releaseConnection (t : tid) (connection : loc)
| next (t : tid)
| notify_wakes (t w : tid)
| spurious_wakeup (t : tid)
| executeQuery_by (t : tid) (connection : loc) (query : string).

Fixpoint remove_first (c : loc) (l : list loc) : list loc :=
  match l with
  | [] => []
  | x :: l' => if decide (x = c) then l' else x :: remove_first c l'
  end.

Definition blocked (th : Thread) : bool := bool_decide (at_pc th = Get81_blocked).

Section Threads.
Context {W handle : Type} `{!Sqlite3 W handle}.

Definition goto (t : tid) (th : Thread) (target : pc) (s : Shared W handle) : Shared W handle :=
  mkShared (mem s) (pool s) (m_mutex s) (<[t := mkThread target (held th)]> (threads s)).

(** [m_mutex.lock()]: taken only when nobody owns it. *)
Definition lock (t : tid) (th : Thread) (target : pc) (s : Shared W handle)
  : option (Shared W handle) :=
  match m_mutex s with
  | None =>
      Some (mkShared (mem s) (pool s) (Some t)
              (<[t := mkThread target (held th)]> (threads s)))
  | Some _ => None
  end.

Definition unlock (s : Shared W handle) : Shared W handle :=
  mkShared (mem s) (pool s) None (threads s).

Definition with_pool (p : ConnectionPool) (s : Shared W handle) : Shared W handle :=
  mkShared (mem s) p (m_mutex s) (threads s).

Definition with_mem (m : Memory W handle) (s : Shared W handle) : Shared W handle :=
  mkShared m (pool s) (m_mutex s) (threads s).

(** The statement thread [t] is at. *)
Definition statement (t : tid) (th : Thread) (s : Shared W handle) : option (Shared W handle) :=
  match at_pc th with
  | Outside => None
  | Get77 => lock t th Get79 s
  | Get79 =>
      match m_connections (pool s) with
      | [] => Some (goto t th Get81_blocked (unlock s))
      | _ :: _ => Some (goto t th Get84 s)
      end
  | Get81_blocked => None
  | Get81_woken => lock t th Get79 s
  | Get84 =>
      match m_connections (pool s) with
      | [] => Some (goto t th Undefined s)
      | connection :: _ => Some (goto t th (Get85 connection) s)
      end
  | Get85 connection =>
      Some (goto t th (Get86 connection)
              (with_mem (cout ("get connection successful " +:+ newline +:+ endl) (mem s)) s))
  | Get86 connection =>
      match m_connections (pool s) with
      | [] => Some (goto t th Undefined s)
      | _ :: _ => Some (goto t th (Get87 connection) (with_pool (queue_pop (pool s)) s))
      end
  | Get87 connection =>
      Some (mkShared (mem s) (pool s) None
              (<[t := mkThread Outside (held th ++ [connection])]> (threads s)))
  | Rel92 connection => lock t th (Rel93 connection) s
  | Rel93 connection =>
      Some (goto t th (Rel94 connection) (with_pool (queue_push connection (pool s)) s))
  | Rel94 connection =>
      if forallb (λ th', negb (blocked th')) (threads s)
      then Some (goto t th (Rel95 connection) s)
      else None
  | Rel95 connection => Some (goto t th Outside (unlock s))
  | Undefined => None
  end.

Definition step (l : Label) (s : Shared W handle) : option (Shared W handle) :=
  match l with
  | call_getConnection t =>
      th ← threads s !! t;
      if decide (at_pc th = Outside) then Some (goto t th Get77 s) else None
  | call_releaseConnection t connection =>
      th ← threads s !! t;
      if decide (at_pc th = Outside)
      then Some (mkShared (mem s) (pool s) (m_mutex s)
                   (<[t := mkThread (Rel92 connection) (remove_first connection (held th))]>
                      (threads s)))
      else None
  | next t => th ← threads s !! t; statement t th s
  | notify_wakes t w =>
      th ← threads s !! t;
      tw ← threads s !! w;
      match at_pc th with
      | Rel94 connection =>
          if blocked tw
          then Some (goto t th (Rel95 connection) (goto w tw Get81_woken s))
          else None
      | _ => None
      end
  | spurious_wakeup t =>
      th ← threads s !! t;
      if blocked th then Some (goto t th Get81_woken s) else None
  | executeQuery_by t connection query =>
      th ← threads s !! t;
      if decide (at_pc th = Outside)
      then '(ok, m1) ← call_executeQuery connection query (mem s); Some (with_mem m1 s)
      else None
  end.

Fixpoint exec (ls : list Label) (s : Shared W handle) : option (Shared W handle) :=
  match ls with
  | [] => Some s
  | l :: ls' => s' ← step l s; exec ls' s'
  end.

(** The callers' side of the contract of [releaseConnection]: the thread
    passes a connection it holds. *)
Definition releases_held (l : Label) (s : Shared W handle) : bool :=
  match l with
  | call_releaseConnection t connection =>
      match threads s !! t with
      | Some th => bool_decide (connection ∈ held th)
      | None => true
      end
  | _ => true
  end.

Fixpoint disciplined (ls : list Label) (s : Shared W handle) : bool :=
  match ls with
  | [] => true
  | l :: ls' =>
      releases_held l s &&
      match step l s with
      | Some s' => disciplined ls' s'
      | None => true
      end
  end.

(** A whole call of [getConnection] by [t], with nothing scheduled in
    between, when the queue is not empty; a whole call of
    [releaseConnection] by [t], when no thread waits on [m_condVar]. *)
Definition getConnection_alone (t : tid) : list Label :=
  call_getConnection t :: replicate 6 (next t).

Definition releaseConnection_alone (t : tid) (connection : loc) : list Label :=
  call_releaseConnection t connection :: replicate 4 (next t).

(** [k] whole calls of [getConnection] by [t], one after the other. *)
Fixpoint acquisitions (t : tid) (k : nat) : list Label :=
  match k with
  | O => []
  | S k' => getConnection_alone t ++ acquisitions t k'
  end.

(** The calls [ops] by [t], each one whole. *)
Fixpoint calls_alone (t : tid) (ops : list Op) : list Label :=
  match ops with
  | [] => []
  | acquire :: rest => getConnection_alone t ++ calls_alone t rest
  | release connection :: rest => releaseConnection_alone t connection ++ calls_alone t rest
  end.

(** [n] threads in caller code, holding nothing, on a pool nobody has
    locked. *)
Definition start (n : nat) (p : ConnectionPool) (m : Memory W handle) : Shared W handle :=
  mkShared m p None (replicate n (mkThread Outside [])).

(** Connections in the hands of a thread: those it holds, the one its
    [getConnection] has popped and not returned yet, the one its
    [releaseConnection] has not pushed yet. *)
Definition carried (p : pc) : list loc :=
  match p with
  | Get87 connection => [connection]
  | Rel92 connection => [connection]
  | Rel93 connection => [connection]
  | _ => []
  end.

Definition in_hand (th : Thread) : list loc := held th ++ carried (at_pc th).

Definition hands (ths : list Thread) : list loc := ths ≫= in_hand.

Definition checked_out (s : Shared W handle) : list loc := hands (threads s).

Definition checked_out_count (s : Shared W handle) : nat := length (checked_out s).

(** The statements between which a thread owns [m_mutex]. *)
Definition in_critical (p : pc) : bool :=
  match p with
  | Get79 | Get84 | Get85 _ | Get86 _ | Get87 _ | Rel93 _ | Rel94 _ | Rel95 _ => true
  | _ => false
  end.

(** What holds of every thread at every moment, whatever the callers pass:
    a thread between its lock and its unlock owns the mutex, a thread past
    the loop of [getConnection] sees a queue that is not empty, and its
    [connection] is the front of the queue until it has popped it. *)
Definition thread_safe (p : ConnectionPool) (owner : option tid) (t : tid) (th : Thread)
  : Prop :=
  at_pc th ≠ Undefined ∧
  (in_critical (at_pc th) = true →
   owner = Some t ∧
   (at_pc th = Get84 → m_connections p ≠ []) ∧
   (∀ c, at_pc th = Get85 c ∨ at_pc th = Get86 c → head (m_connections p) = Some c)).

Definition safe (s : Shared W handle) : Prop :=
  ∀ t th, threads s !! t = Some th → thread_safe (pool s) (m_mutex s) t th.

(** Every connection of [q0] is in one place: in the queue or in the hands
    of one thread. *)
Definition accounted (q0 : list loc) (s : Shared W handle) : Prop :=
  m_connections (pool s) ++ checked_out s ≡ₚ q0.

(** The thread that takes the step. *)
Definition actor (l : Label) : tid :=
  match l with
  | call_getConnection t => t
  | call_releaseConnection t _ => t
  | next t => t
  | notify_wakes t _ => t
  | spurious_wakeup t => t
  | executeQuery_by t _ _ => t
  end.

(** One thread, inside the loop of [getConnection], on an empty queue. *)
Definition waits_alone (s : Shared W handle) : Prop :=
  m_connections (pool s) = [] ∧
  ∃ th, threads s = [th] ∧
        (at_pc th = Get77 ∨ at_pc th = Get79 ∨
         at_pc th = Get81_blocked ∨ at_pc th = Get81_woken).

(** A thread is inside [getConnection]. *)
Definition in_getConnection (p : pc) : bool :=
  match p with
  | Get77 | Get79 | Get81_blocked | Get81_woken | Get84
  | Get85 _ | Get86 _ | Get87 _ => true
  | _ => false
  end.

Definition inside_getConnection (s : Shared W handle) (t : tid) : Prop :=
  ∃ th, threads s !! t = Some th ∧ in_getConnection (at_pc th) = true.

(** The step [l] is the [return connection] of a thread. *)
Definition returning (l : Label) (s : Shared W handle) : option (tid * loc) :=
  match l with
  | next t =>
      th ← threads s !! t;
      match at_pc th with
      | Get87 connection => Some (t, connection)
      | _ => None
      end
  | _ => None
  end.

(** What the first [getConnection] of [t] to return along [ls] returns. *)
Fixpoint first_return (t : tid) (ls : list Label) (s : Shared W handle) : option loc :=
  match ls with
  | [] => None
  | l :: ls' =>
      match returning l s with
      | Some (t', connection) =>
          if decide (t' = t) then Some connection
          else s' ← step l s; first_return t ls' s'
      | None => s' ← step l s; first_return t ls' s'
      end
  end.

(** What the calls of [getConnection] by [t] return along [ls], in the
    order of their return. *)
Fixpoint returns (t : tid) (ls : list Label) (s : Shared W handle) : list loc :=
  match ls with
  | [] => []
  | l :: ls' =>
      match step l s with
      | Some s' =>
          match returning l s with
          | Some (t', connection) =>
              if decide (t' = t) then connection :: returns t ls' s' else returns t ls' s'
          | None => returns t ls' s'
          end
      | None => []
      end
  end.

(** Along the run [ls] from [s0], thread [t] is [k] statements past a
    test of line 79 that found the queue not empty, in the same call: the
    run came by a state in which [t] was at the test, owned the mutex and
    the queue was [c :: q]; the next step is [t] taking the test, and the
    steps of [t] since are [k] statements of the method. *)
Definition past_test (s0 : Shared W handle) (ls : list Label) (t : tid) (k : nat)
    (c : loc) (q : list loc) : Prop :=
  ∃ ls1 s1 th1 rest,
    ls = ls1 ++ next t :: rest ∧
    exec ls1 s0 = Some s1 ∧
    threads s1 !! t = Some th1 ∧ at_pc th1 = Get79 ∧
    m_mutex s1 = Some t ∧
    m_connections (pool s1) = c :: q ∧
    filter (λ l, actor l = t) rest = replicate k (next t).

(** A thread past the loop of [getConnection] came there by the test, and
    the queue is still the one the test found, until the thread has
    popped its front. *)
Definition came_by_test (s0 : Shared W handle) (ls : list Label) (s : Shared W handle)
    (t : tid) (th : Thread) : Prop :=
  match at_pc th with
  | Get84 => ∃ c q, past_test s0 ls t 0 c q ∧ m_connections (pool s) = c :: q
  | Get85 c => ∃ q, past_test s0 ls t 1 c q ∧ m_connections (pool s) = c :: q
  | Get86 c => ∃ q, past_test s0 ls t 2 c q ∧ m_connections (pool s) = c :: q
  | Get87 c => ∃ q, past_test s0 ls t 3 c q ∧ m_connections (pool s) = q
  | _ => True
  end.

End Threads.

(** ** The claims on threads, as they are written *)

Section AsWritten.
Context {W handle : Type} `{!Sqlite3 W handle}.

(** C1 as it is written: the count holds after any calls whatever. *)
Definition any_calls_keep_count : Prop :=
  ∀ dbFile poolSize (m : Memory W handle) self m' n ls s,
    ConnectionPool_ctor dbFile poolSize m = Some (self, m') →
    exec ls (start n self m') = Some s →
    available_count (pool s) + checked_out_count s
      = successfully_opened_count dbFile poolSize m ∧
    successfully_opened_count dbFile poolSize m ≤ poolSize.

(** C2 as it is written, first half: two calls of [getConnection] that are
    in progress at the same moment and both return, return different
    connections. *)
Definition concurrent_calls_return_distinct : Prop :=
  ∀ dbFile poolSize (m : Memory W handle) self m' n before after s_mid s_end t1 t2 c1 c2,
    ConnectionPool_ctor dbFile poolSize m = Some (self, m') →
    exec before (start n self m') = Some s_mid →
    t1 ≠ t2 →
    inside_getConnection s_mid t1 →
    inside_getConnection s_mid t2 →
    exec after s_mid = Some s_end →
    first_return t1 after s_mid = Some c1 →
    first_return t2 after s_mid = Some c2 →
    c1 ≠ c2.

(** C2 as it is written, second half: after any calls whatever, no two
    threads hold the same connection. *)
Definition never_two_holders : Prop :=
  ∀ dbFile poolSize (m : Memory W handle) self m' n ls s t1 t2 th1 th2 c,
    ConnectionPool_ctor dbFile poolSize m = Some (self, m') →
    exec ls (start n self m') = Some s →
    t1 ≠ t2 →
    threads s !! t1 = Some th1 →
    threads s !! t2 = Some th2 →
    c ∈ held th1 →
    c ∉ held th2.

End AsWritten.

(** ** Runs on the scripted SQLite *)

Module Demo.

(** The pool [ConnectionPool(dbFile, poolSize)] builds in front of
    [script], and the memory it leaves. *)
Definition built (script : list Z) (dbFile : string) (poolSize : nat)
  : ConnectionPool * Memory Scripted.W nat :=
  default (mkPool dbFile poolSize [], Scripted.boot script)
    (ConnectionPool_ctor dbFile poolSize (Scripted.boot script)).

(** [n] threads on that pool. *)
Definition threads_on (script : list Z) (dbFile : string) (poolSize n : nat)
  : Shared Scripted.W nat :=
  start n (built script dbFile poolSize).1 (built script dbFile poolSize).2.

(** Where [ls] leads from [s] (from nowhere when a step of [ls] cannot be
    taken). *)
Definition outcome (ls : list Label) (s : Shared Scripted.W nat) : Shared Scripted.W nat :=
  default s (exec ls s).

(** One thread acquires the only connection, releases it, and releases it
    once more. *)
Definition released_twice : list Label :=
  getConnection_alone 0 ++ releaseConnection_alone 0 0 ++ releaseConnection_alone 0 0.

(** After [released_twice], thread 1 and thread 0 both acquire. *)
Definition released_twice_acquired_twice : list Label :=
  released_twice ++ getConnection_alone 1 ++ getConnection_alone 0.

(** Two threads have called [getConnection] on a pool of one connection. *)
Definition both_called : list Label := [call_getConnection 0; call_getConnection 1].

(** Thread 0 runs its call to the end and releases what it got; then
    thread 1 runs its call to the end. *)
Definition one_after_the_other : list Label :=
  replicate 6 (next 0) ++ releaseConnection_alone 0 0 ++ replicate 6 (next 1).

(** Three threads on two connections: threads 0 and 1 acquire, thread 2
    calls and blocks, is woken for nothing and blocks again; thread 0
    releases and its [notify_one] wakes thread 2, which gets the
    connection. *)
Definition contended : list Label :=
  getConnection_alone 0 ++ getConnection_alone 1 ++
  [call_getConnection 2; next 2; next 2; spurious_wakeup 2; next 2; next 2] ++
  [call_releaseConnection 0 0; next 0; next 0; notify_wakes 0 2; next 0] ++
  replicate 6 (next 2).

(** The same, up to the moment thread 2 is past the loop of
    [getConnection]. *)
Definition contended_past_loop : list Label :=
  getConnection_alone 0 ++ getConnection_alone 1 ++
  [call_getConnection 2; next 2; next 2; spurious_wakeup 2; next 2; next 2] ++
  [call_releaseConnection 0 0; next 0; next 0; notify_wakes 0 2; next 0] ++
  [next 2; next 2].

(** Two threads on a pool of two connections; thread 0 has acquired the
    first. *)
Definition one_checked_out : Shared Scripted.W nat :=
  outcome (getConnection_alone 0) (threads_on [] "test.db" 2 2).

(** A process that has opened nothing, and a connection object on handle
    0. *)
Definition fresh_env : Env Scripted.W nat := mkEnv (0, []) [].

Definition connected : SQLiteDBConnection nat := mkConnection (Some 0).

(** The memory [connection->executeQuery(query)] leaves. *)
Definition after_query (connection : loc) (query : string) (m : Memory Scripted.W nat)
  : Memory Scripted.W nat :=
  default m (snd <$> call_executeQuery connection query m).

End Demo.

(** * The rest of the program: teardown, [worker], [main] *)

(** The closes of a trace: the [sqlite3*] each [sqlite3_close] was given. *)
Definition closes {handle} (tr : list (Event handle)) : list (option handle) :=
  omap (λ ev, match ev with
              | ev_close db => Some db
              | _ => None
              end) tr.

(** The statements of a trace: the [sqlite3*] and the text each
    [sqlite3_exec] was given. *)
Definition execs {handle} (tr : list (Event handle)) : list (option handle * string) :=
  omap (λ ev, match ev with
              | ev_exec db sql _ _ => Some (db, sql)
              | _ => None
              end) tr.

(** The pointers of a queue, each at its last place in the queue. *)
Fixpoint last_copies (queue : list loc) : list loc :=
  match queue with
  | [] => []
  | c :: rest => if decide (c ∈ rest) then last_copies rest else c :: last_copies rest
  end.

Section Teardown.
Context {W handle : Type} `{!Sqlite3 W handle}.

(** Lines 116-120, one turn of the loop on a queue that is not empty.
    [connection] takes a copy of the front, [pop()] drops the copy the
    queue had, and at the closing brace [connection] goes out of scope:
    the object is destroyed when no other [shared_ptr] to it is left, in
    the rest of the queue or [elsewhere] in the program. *)
Definition shutdownPool_body (elsewhere : list loc) (self : ConnectionPool)
    (m : Memory W handle) : ConnectionPool * Memory W handle :=
  match m_connections self with
  | [] => (self, m)
  | connection :: _ =>
      let self1 := queue_pop self in
      if decide (connection ∈ m_connections self1 ++ elsewhere)
      then (self1, m)
      else (self1, destroy connection m)
  end.

(** The loop, with at most [n] turns left. *)
Fixpoint shutdownPool_from (n : nat) (elsewhere : list loc) (self : ConnectionPool)
    (m : Memory W handle) : ConnectionPool * Memory W handle :=
  match n with
  | O => (self, m)
  | S n' =>
      match m_connections self with
      | [] => (self, m)
      | _ :: _ =>
          let '(self1, m1) := shutdownPool_body elsewhere self m in
          shutdownPool_from n' elsewhere self1 m1
      end
  end.

(** Lines 114-121.  Every turn pops: the loop takes as many turns as the
    queue is long. *)
Definition shutdownPool (elsewhere : list loc) (self : ConnectionPool) (m : Memory W handle)
  : ConnectionPool * Memory W handle :=
  shutdownPool_from (length (m_connections self)) elsewhere self m.

(** Lines 70-73. *)
Definition ConnectionPool_dtor (elsewhere : list loc) (self : ConnectionPool)
    (m : Memory W handle) : ConnectionPool * Memory W handle :=
  shutdownPool elsewhere self m.

(** What [shutdownPool] closes: the objects of the queue nobody else
    points to, once each, those of them that are connected. *)
Definition doomed (elsewhere queue : list loc) : list loc :=
  filter (λ c, c ∉ elsewhere) (last_copies queue).

Definition close_events (objects : gmap loc (SQLiteDBConnection handle)) (ptrs : list loc)
  : list (Event handle) :=
  omap (λ c, obj ← objects !! c;
             if isConnected obj then Some (ev_close (m_db obj)) else None) ptrs.

(** One object from its construction to its destruction, with the
    statements [queries] in between. *)
Definition lifetime (dbFile : string) (queries : list string) (e : Env W handle)
  : list bool * Env W handle :=
  let '(obj, e1) := SQLiteDBConnection_ctor dbFile e in
  let '(oks, obj2, e2) := executeQueries obj queries e1 in
  (oks, SQLiteDBConnection_dtor obj2 e2).

End Teardown.

#[global] Instance Op_eq_dec : EqDecision Op.
Proof. solve_decision. Defined.

(** The number of [acquire] calls in a sequence of calls. *)
Definition acquires (ops : list Op) : nat :=
  length (filter (λ op, op = acquire) ops).

(** ** More on threads *)

(** A thread on its way to the queue or to the waiters: woken and not yet
    back at the test, at the test of line 79 (after the lock or after a
    wake-up), between the test and the [pop()] of [getConnection], or
    between the [push] and the [notify_one] of [releaseConnection]. *)
Definition on_the_way (p : pc) : bool :=
  match p with
  | Get81_woken | Get79 | Get84 | Get85 _ | Get86 _ | Rel94 _ => true
  | _ => false
  end.

Definition pending (ths : list Thread) : nat :=
  sum_list_with (λ th, if on_the_way (at_pc th) then 1 else 0) ths.

(** The statements of [getConnection] up to the end of its loop. *)
Definition in_loop (p : pc) : bool :=
  match p with
  | Get77 | Get79 | Get81_blocked | Get81_woken => true
  | _ => false
  end.

Section MoreThreads.
Context {W handle : Type} `{!Sqlite3 W handle}.

(** The mutex has an owner only while that thread is between a lock and
    an unlock. *)
Definition owned (s : Shared W handle) : Prop :=
  ∀ t, m_mutex s = Some t →
       ∃ th, threads s !! t = Some th ∧ in_critical (at_pc th) = true.

Definition some_blocked (s : Shared W handle) : Prop :=
  ∃ t th, threads s !! t = Some th ∧ at_pc th = Get81_blocked.

(** While a thread sleeps in [wait], every connection of the queue has a
    thread on its way for it. *)
Definition no_lost_wakeup (s : Shared W handle) : Prop :=
  some_blocked s → length (m_connections (pool s)) ≤ pending (threads s).

(** Nothing is in the queue, nothing is held, and every thread is in
    caller code or in the loop of [getConnection]. *)
Definition all_waiting (s : Shared W handle) : Prop :=
  m_connections (pool s) = [] ∧
  ∀ t th, threads s !! t = Some th →
          held th = [] ∧ (at_pc th = Outside ∨ in_loop (at_pc th) = true).

End MoreThreads.

(** ** [worker] *)

(** Lines 131-141: the line a worker thread is at.  Between its call of a
    pool method and the return of that call the thread is at a statement
    of the method, as [pc] says.  [connection] is the local variable of
    line 133. *)
Inductive wline :=
| L133                             (* auto connection = pool.getConnection() *)
| L133_inside                      (* ... the call has not returned *)
| L135 (connection : loc)          (* std::string query = ... *)
| L137 (connection : loc)          (* std::lock_guard<std::mutex> lock(writeMutex) *)
| L138 (connection : loc)          (* connection->executeQuery(query) *)
| L139 (connection : loc)          (* } *)
| L140 (connection : loc)          (* pool.releaseConnection(connection) *)
| L140_inside (connection : loc)   (* ... the call has not returned *)
| L141.                            (* } *)

#[global] Instance wline_eq_dec : EqDecision wline.
Proof. solve_decision. Defined.

Record Worker := mkWorker {
  workerId : Z;
  line : wline
}.

(** Line 135.  [std::to_string] of an [int] is its decimal writing. *)
Definition worker_query (workerId : Z) : string :=
  "INSERT INTO test_table (worker_id, data) VALUES (" +:+ pretty workerId
    +:+ ", 'data_" +:+ pretty workerId +:+ "');".

(** The worker threads on the pool: thread [t] runs the worker
    [workers !! t]. *)
Record Running (W handle : Type) := mkRunning {
  shared : Shared W handle;
  writeMutex : option tid;
  workers : list Worker
}.
Arguments mkRunning {W handle}.
Arguments shared {W handle}.
Arguments writeMutex {W handle}.
Arguments workers {W handle}.

(** What the scheduler chooses: the thread that goes on, which waiter the
    [notify_one] of a thread wakes, a wake-up nobody asked for. *)
Inductive Turn :=
| turn (t : tid)
| turn_notify (t w : tid)
| turn_spurious (t : tid).

Section Workers.
Context {W handle : Type} `{!Sqlite3 W handle}.

Definition move (t : tid) (w : Worker) (target : wline) (s : Shared W handle)
    (r : Running W handle) : Running W handle :=
  mkRunning s (writeMutex r) (<[t := mkWorker (workerId w) target]> (workers r)).

(** The next step of worker thread [t]: at lines 133 and 140 a call of
    the pool, inside a call the next statement of the method, at line 138
    the statement on the connection of line 133. *)
Definition worker_step (t : tid) (w : Worker) (r : Running W handle)
  : option (Running W handle) :=
  match line w with
  | L133 =>
      s ← step (call_getConnection t) (shared r);
      Some (move t w L133_inside s r)
  | L133_inside =>
      s ← step (next t) (shared r);
      match returning (next t) (shared r) with
      | Some (_, connection) => Some (move t w (L135 connection) s r)
      | None => Some (move t w L133_inside s r)
      end
  | L135 connection => Some (move t w (L137 connection) (shared r) r)
  | L137 connection =>
      match writeMutex r with
      | None =>
          Some (mkRunning (shared r) (Some t)
                  (<[t := mkWorker (workerId w) (L138 connection)]> (workers r)))
      | Some _ => None
      end
  | L138 connection =>
      s ← step (executeQuery_by t connection (worker_query (workerId w))) (shared r);
      Some (move t w (L139 connection) s r)
  | L139 connection =>
      Some (mkRunning (shared r) None
              (<[t := mkWorker (workerId w) (L140 connection)]> (workers r)))
  | L140 connection =>
      s ← step (call_releaseConnection t connection) (shared r);
      Some (move t w (L140_inside connection) s r)
  | L140_inside connection =>
      s ← step (next t) (shared r);
      th ← threads s !! t;
      if decide (at_pc th = Outside)
      then Some (move t w L141 s r)
      else Some (move t w (L140_inside connection) s r)
  | L141 => None
  end.

Definition turn_step (c : Turn) (r : Running W handle) : option (Running W handle) :=
  match c with
  | turn t => w ← workers r !! t; worker_step t w r
  | turn_notify t w' =>
      w ← workers r !! t;
      s ← step (notify_wakes t w') (shared r);
      Some (mkRunning s (writeMutex r) (workers r))
  | turn_spurious t =>
      w ← workers r !! t;
      s ← step (spurious_wakeup t) (shared r);
      Some (mkRunning s (writeMutex r) (workers r))
  end.

Fixpoint run_turns (cs : list Turn) (r : Running W handle) : option (Running W handle) :=
  match cs with
  | [] => Some r
  | c :: cs' => r' ← turn_step c r; run_turns cs' r'
  end.

(** Worker threads with the identifiers [ids], none of them started, on
    the pool [p]. *)
Definition launched (ids : list Z) (p : ConnectionPool) (m : Memory W handle)
  : Running W handle :=
  mkRunning (start (length ids) p m) None ((λ i, mkWorker i L133) <$> ids).

(** The connection a worker has in its variable and has not passed to
    [releaseConnection] yet. *)
Definition holding (w : Worker) : option loc :=
  match line w with
  | L135 c | L137 c | L138 c | L139 c | L140 c => Some c
  | _ => None
  end.

Definition finished (r : Running W handle) : Prop :=
  Forall (λ w, line w = L141) (workers r).

(** A worker and its thread agree on where they are. *)
Definition linked_at (w : Worker) (th : Thread) : Prop :=
  match line w with
  | L133 | L141 => at_pc th = Outside ∧ held th = []
  | L133_inside => in_getConnection (at_pc th) = true ∧ held th = []
  | L135 c | L137 c | L138 c | L139 c | L140 c => at_pc th = Outside ∧ held th = [c]
  | L140_inside c =>
      (at_pc th = Rel92 c ∨ at_pc th = Rel93 c ∨ at_pc th = Rel94 c ∨ at_pc th = Rel95 c) ∧
      held th = []
  end.

Definition linked (r : Running W handle) : Prop :=
  length (workers r) = length (threads (shared r)) ∧
  ∀ t w th, workers r !! t = Some w → threads (shared r) !! t = Some th → linked_at w th.

(** [writeMutex] is owned by the worker between its lock and the end of
    the block. *)
Definition in_block (l : wline) : bool :=
  match l with
  | L138 _ | L139 _ => true
  | _ => false
  end.

Definition write_locked (r : Running W handle) : Prop :=
  ∀ t, writeMutex r = Some t ↔ ∃ w, workers r !! t = Some w ∧ in_block (line w) = true.

(** What holds of the workers and of the pool at every moment of a run:
    [q0] is the queue the workers started on, [h0] the connection objects
    of that moment. *)
Definition worker_inv (q0 : list loc) (h0 : gmap loc (SQLiteDBConnection handle))
    (r : Running W handle) : Prop :=
  linked r ∧ safe (shared r) ∧ accounted q0 (shared r) ∧ owned (shared r) ∧
  no_lost_wakeup (shared r) ∧ write_locked r ∧ heap (mem (shared r)) = h0.

(** A worker whose next statement does not wait for anybody, when no
    thread owns [m_mutex]: it is in its own code and not at a taken
    [writeMutex], or it is at the lock of [getConnection]. *)
Definition ready (wm : option tid) (wt : Worker * Thread) : bool :=
  match line wt.1 with
  | L141 => false
  | L133_inside =>
      bool_decide (at_pc wt.2 = Get77 ∨ at_pc wt.2 = Get81_woken)
  | L140_inside c => bool_decide (at_pc wt.2 = Rel92 c)
  | L137 _ => bool_decide (wm = None)
  | _ => true
  end.

(** The workers whose [executeQuery] of line 138 has returned, and their
    statements. *)
Definition past_query (l : wline) : bool :=
  match l with
  | L139 _ | L140 _ | L140_inside _ | L141 => true
  | _ => false
  end.

Definition submitted (ws : list Worker) : list string :=
  ws ≫= λ w, if past_query (line w) then [worker_query (workerId w)] else [].

(** What the workers have given SQLite since the trace was [tr0]: the
    statements of the workers past line 138, each once, on handles of
    the connections of [q0]; nothing was opened or closed. *)
Definition queries_sent (tr0 : list (Event handle)) (q0 : list loc)
    (h0 : gmap loc (SQLiteDBConnection handle)) (r : Running W handle) : Prop :=
  ∃ evs,
    trace (env (mem (shared r))) = tr0 ++ evs ∧
    opens evs = [] ∧ closes evs = [] ∧
    (execs evs).*2 ≡ₚ c_str <$> submitted (workers r) ∧
    ∀ db sql, (db, sql) ∈ execs evs →
              ∃ c obj, c ∈ q0 ∧ h0 !! c = Some obj ∧ m_db obj = db.

(** The statements a worker has before it, counted so that a thread woken
    in [wait] has the test and, in the worst case, the [wait] before it
    again, which the [notify_one] that wakes it pays for. *)
Definition rank (w : Worker) (th : Thread) : nat :=
  match line w with
  | L133 => 19
  | L133_inside =>
      match at_pc th with
      | Get77 | Get81_woken => 18
      | Get79 => 17
      | Get81_blocked | Get84 => 16
      | Get85 _ => 15
      | Get86 _ => 14
      | Get87 _ => 13
      | _ => 0
      end
  | L135 _ => 12
  | L137 _ => 11
  | L138 _ => 10
  | L139 _ => 9
  | L140 _ => 8
  | L140_inside _ =>
      match at_pc th with
      | Rel92 _ => 7
      | Rel93 _ => 6
      | Rel94 _ => 5
      | Rel95 _ => 1
      | _ => 0
      end
  | L141 => 0
  end.

Fixpoint work (ws : list Worker) (ths : list Thread) : nat :=
  match ws, ths with
  | w :: ws', th :: ths' => rank w th + work ws' ths'
  | _, _ => 0
  end.

Definition work_left (r : Running W handle) : nat :=
  work (workers r) (threads (shared r)).

Definition no_spurious (c : Turn) : Prop := ∀ t, c ≠ turn_spurious t.

End Workers.

(** ** [main]

    Lines 143-171.  The constants of lines 145-147 are the arguments of
    [main_with]; [main] is the program as written. *)

(** Line 161 passes the [size_t] index [i] where [worker] takes an
    [int]. *)
Definition int_of_size_t (i : nat) : Z :=
  let z := (Z.of_nat i mod 2 ^ 32)%Z in
  if (z <? 2 ^ 31)%Z then z else (z - 2 ^ 32)%Z.

Definition create_table : string :=
  "CREATE TABLE IF NOT EXISTS test_table (id INTEGER PRIMARY KEY, worker_id INTEGER, data TEXT);".

(** Where [main] is: inside the [getConnection] of line 152 for ever, at
    the [join]s of lines 165-168 while the workers run, or returned. *)
Inductive Main (W handle : Type) :=
| waits_at_152 (pool : ConnectionPool) (m : Memory W handle)
| joining (r : Running W handle)
| exited (code : Z) (m : Memory W handle).
Arguments waits_at_152 {W handle}.
Arguments joining {W handle}.
Arguments exited {W handle}.

Section Main.
Context {W handle : Type} `{!Sqlite3 W handle}.

#[global] Instance finished_dec (r : Running W handle) : Decision (finished r).
Proof. unfold finished. apply _. Defined.

Definition worker_ids (numWorkers : nat) : list Z := int_of_size_t <$> seq 0 numWorkers.

(** Lines 149-163: the pool, the block of lines 151-155 with nobody else
    on the pool, and the threads. *)
Definition main_start (dbFile : string) (poolSize numWorkers : nat) (m : Memory W handle)
  : option (Main W handle) :=
  '(pool, m1) ← ConnectionPool_ctor dbFile poolSize m;
  match getConnection pool m1 with
  | WaitsForever => Some (waits_at_152 pool m1)
  | Returned connection pool2 m2 =>
      '(_, m3) ← call_executeQuery connection create_table m2;
      let '(pool3, m4) := releaseConnection connection pool2 m3 in
      Some (joining (launched (worker_ids numWorkers) pool3 m4))
  end.

(** Lines 165-171: when every worker has returned the [join]s return,
    [main] returns 0 and [pool] is destroyed; no pointer to a connection
    is left outside the queue. *)
Definition main_return (r : Running W handle) : option (Z * Memory W handle) :=
  if decide (finished r)
  then Some (0%Z, (ConnectionPool_dtor [] (pool (shared r)) (mem (shared r))).2)
  else None.

(** The program, with the workers scheduled as [cs] says. *)
Definition main_with (dbFile : string) (poolSize numWorkers : nat) (cs : list Turn)
    (m : Memory W handle) : option (Main W handle) :=
  st ← main_start dbFile poolSize numWorkers m;
  match st with
  | joining r =>
      r' ← run_turns cs r;
      match main_return r' with
      | Some (code, m') => Some (exited code m')
      | None => Some (joining r')
      end
  | _ => Some st
  end.

Definition main : list Turn → Memory W handle → option (Main W handle) :=
  main_with "test.db" 5 10.

End Main.

(** ** Runs of the program on the scripted SQLite *)
Module Program.

(** The workers [ids] on the pool built in front of [script]. *)
Definition workers_on (script : list Z) (dbFile : string) (poolSize : nat) (ids : list Z)
  : Running Scripted.W nat :=
  launched ids (Demo.built script dbFile poolSize).1 (Demo.built script dbFile poolSize).2.

(** Where [cs] leads from [r] (from nowhere when a step of [cs] cannot be
    taken). *)
Definition after (cs : list Turn) (r : Running Scripted.W nat) : Running Scripted.W nat :=
  default r (run_turns cs r).

(** Worker [t] from its first statement to its last, with nobody in its
    way. *)
Definition whole_worker (t : tid) : list Turn := replicate 16 (turn t).

(** The workers [0] to [n - 1], each one whole, one after the other. *)
Definition in_turn (n : nat) : list Turn := flat_map whole_worker (seq 0 n).



(** The same, up to the moment worker 1 sleeps and worker 0 has its
    connection. *)
Definition one_sleeps : list Turn := replicate 7 (turn 0) ++ replicate 3 (turn 1).

(** What [main] leaves when it has returned, and the workers while it has
    not. *)
Definition main_memory (cs : list Turn) (m : Memory Scripted.W nat) : Memory Scripted.W nat :=
  match main cs m with
  | Some (exited _ m') => m'
  | _ => m
  end.

Definition main_workers (cs : list Turn) (m : Memory Scripted.W nat)
  : Running Scripted.W nat :=
  match main cs m with
  | Some (joining r) => r
  | _ => launched [] (mkPool EmptyString 0 []) m
  end.

End Program.

(** * Properties of [SQLiteDBConnection] *)

Section ConnectionFacts.
Context {W handle : Type} `{!Sqlite3 W handle}.

Lemma isConnected_handle (this : SQLiteDBConnection handle) :
  isConnected this = true ↔ is_Some (m_db this).
Proof.
  unfold isConnected. destruct (m_db this) as [db|]; split; intros Hc.
  - by exists db.
  - done.
  - discriminate.
  - by destruct Hc.
Qed.

Lemma executeQuery_object (this : SQLiteDBConnection handle) query (e : Env W handle) :
  (executeQuery this query e).1.2 = this.
Proof.
  unfold executeQuery.
  destruct (negb (isConnected this)); [done|].
  destruct (sqlite3_exec _ _ _) as [[rc errMsg] w].
  by destruct (negb (rc =? SQLITE_OK)%Z).
Qed.

Lemma executeQueries_object (this : SQLiteDBConnection handle) queries (e : Env W handle) :
  (executeQueries this queries e).1.2 = this.
Proof.
  revert this e. induction queries as [|query rest IH]; intros this e; [done|].
  simpl. pose proof (executeQuery_object this query e) as Hq.
  destruct (executeQuery this query e) as [[ok this1] e1]. simpl in Hq. subst this1.
  specialize (IH this e1).
  by destruct (executeQueries this rest e1) as [[oks this2] e2].
Qed.

Lemma ctor_failed_open dbFile (e : Env W handle) :
  (sqlite3_open (c_str dbFile) (sqlite e)).1.1 ≠ SQLITE_OK →
  m_db (SQLiteDBConnection_ctor dbFile e).1 = None.
Proof.
  unfold SQLiteDBConnection_ctor.
  destruct (sqlite3_open _ _) as [[rc db] w]. simpl. intros Hrc.
  destruct (rc =? SQLITE_OK)%Z eqn:E; [|done].
  apply Z.eqb_eq in E. contradiction.
Qed.

Lemma ctor_open_ok dbFile (e : Env W handle) :
  (sqlite3_open (c_str dbFile) (sqlite e)).1.1 = SQLITE_OK →
  m_db (SQLiteDBConnection_ctor dbFile e).1 = (sqlite3_open (c_str dbFile) (sqlite e)).1.2.
Proof.
  unfold SQLiteDBConnection_ctor.
  destruct (sqlite3_open _ _) as [[rc db] w]. simpl. intros ->. done.
Qed.

(** C9.  For every connection object, [isConnected] answers [true] exactly
    when [m_db] holds a handle, and it is a function of the object alone.
    No call of [executeQuery] changes the object, so the answer never
    changes; in particular an object whose [sqlite3_open] did not return
    [SQLITE_OK] is built with a null [m_db] and answers [false] after any
    number of statements. *)
Theorem handle_present_iff_connected (this : SQLiteDBConnection handle) :
  (isConnected this = true ↔ is_Some (m_db this)) ∧
  (isConnected this = false ↔ m_db this = None) ∧
  (∀ queries (e : Env W handle),
     (executeQueries this queries e).1.2 = this) ∧
  (∀ dbFile (e : Env W handle),
     (sqlite3_open (c_str dbFile) (sqlite e)).1.1 ≠ SQLITE_OK →
     let built := (SQLiteDBConnection_ctor dbFile e).1 in
     m_db built = None ∧
     ∀ queries e', isConnected (executeQueries built queries e').1.2 = false).
Proof.
  split; [apply isConnected_handle|].
  split; [unfold isConnected; by destruct (m_db this)|].
  split; [intros; apply executeQueries_object|].
  intros dbFile e Hrc built.
  pose proof (ctor_failed_open dbFile e Hrc) as Hnull. fold built in Hnull.
  split; [done|]. intros queries e'.
  rewrite executeQueries_object. unfold isConnected. by rewrite Hnull.
Qed.

(** C4.  On an object that is not connected, [executeQuery] returns
    [false] whatever the statement is, leaves the object and the state of
    SQLite as they were, and its only trace is the line it inserts into
    [std::cerr]: [sqlite3_exec] is not called. *)
Theorem executeQuery_not_connected (this : SQLiteDBConnection handle) (query : string)
    (e : Env W handle) :
  isConnected this = false →
  executeQuery this query e
    = (false, this, mkEnv (sqlite e)
                      (trace e ++ [ev_cerr ("Not connected to database." +:+ endl)])).
Proof.
  intros Hc. unfold executeQuery. by rewrite Hc.
Qed.

(** What [executeQuery] does on a connected object, by the result of
    [sqlite3_exec]. *)
Lemma executeQuery_connected (this : SQLiteDBConnection handle) query (e : Env W handle)
    rc errMsg w :
  isConnected this = true →
  sqlite3_exec (m_db this) (c_str query) (sqlite e) = (rc, errMsg, w) →
  executeQuery this query e =
    if decide (rc = SQLITE_OK)
    then (true, this,
          mkEnv w (trace e ++ [ev_exec (m_db this) (c_str query) rc errMsg;
                               ev_cout ("successful " +:+ newline +:+ endl)]))
    else (false, this,
          mkEnv w (trace e ++ ev_exec (m_db this) (c_str query) rc errMsg
                             :: cerr_c_string "SQL error: " errMsg ++ [ev_free errMsg])).
Proof.
  intros Hc Hexec. unfold executeQuery. rewrite Hc, Hexec. simpl.
  unfold emit, emit_all. simpl. rewrite <- !app_assoc. simpl.
  destruct (decide (rc = SQLITE_OK)) as [->|Hne]; [done|].
  destruct (rc =? SQLITE_OK)%Z eqn:E; [apply Z.eqb_eq in E; contradiction|done].
Qed.




End ConnectionFacts.

(** * Construction of the pool *)

Section ConstructionFacts.
Context {W handle : Type} `{!Sqlite3 W handle}.

Lemma opens_app (a b : list (Event handle)) : opens (a ++ b) = opens a ++ opens b.
Proof. unfold opens. apply omap_app. Qed.

Lemma isConnected_connects rc (db : option handle) :
  isConnected (mkConnection (if negb (rc =? SQLITE_OK)%Z then None else db)) = connects (rc, db).
Proof.
  unfold isConnected, connects. simpl.
  destruct (rc =? SQLITE_OK)%Z, db; done.
Qed.

(** One iteration of the loop of [initializePool]. *)
Lemma initializePool_body_spec i self (m : Memory W handle) rc db w :
  sqlite3_open (c_str (m_dbFile self)) (sqlite (env m)) = (rc, db, w) →
  ∃ self' m' evs,
    initializePool_body i self m = Some (self', m') ∧
    sqlite (env m') = w ∧
    trace (env m') = trace (env m) ++ evs ∧
    opens evs = [(c_str (m_dbFile self), rc, db)] ∧
    if connects (rc, db)
    then self' = queue_push (fresh (dom (heap m))) self ∧
         heap m' = <[fresh (dom (heap m)) := mkConnection db]> (heap m)
    else self' = self ∧ heap m' = heap m.
Proof.
  intros Hopen.
  assert (heap m !! fresh (dom (heap m)) = None) as Hfresh.
  { apply not_elem_of_dom. apply is_fresh. }
  unfold initializePool_body, make_shared, SQLiteDBConnection_ctor.
  rewrite Hopen. cbn [fst snd env heap sqlite trace emit].
  pose proof (isConnected_connects rc db) as Hconn.
  destruct (negb (rc =? SQLITE_OK)%Z) eqn:Hrc; cbn [fst snd env heap sqlite trace emit];
    rewrite lookup_insert_eq; cbn [mbind option_bind]; rewrite Hconn;
    destruct (connects (rc, db)) eqn:Hc.
  - unfold connects in Hc. destruct db; [|done].
    rewrite Hc in Hrc. done.
  - eexists _, _, _. split; [reflexivity|].
    unfold destroy, cerr. cbn [fst snd env heap sqlite trace emit].
    rewrite lookup_insert_eq. cbn [SQLiteDBConnection_dtor m_db env heap sqlite trace emit].
    split; [done|]. split; [rewrite <- !app_assoc; reflexivity|].
    split; [done|]. split; [done|]. by apply delete_insert_id.
  - eexists _, _, _. split; [reflexivity|]. cbn [fst snd env heap sqlite trace emit].
    split; [done|]. split; [reflexivity|]. done.
  - eexists _, _, _. split; [reflexivity|].
    unfold destroy, cerr. cbn [fst snd env heap sqlite trace emit].
    rewrite lookup_insert_eq.
    unfold connects in Hc. destruct db as [h|].
    { apply negb_false_iff in Hrc. congruence. }
    cbn [SQLiteDBConnection_dtor m_db env heap sqlite trace emit].
    split; [done|]. split; [rewrite <- !app_assoc; reflexivity|].
    split; [done|]. split; [done|]. by apply delete_insert_id.
Qed.

Lemma initializePool_from_spec n i self (m : Memory W handle) :
  ∃ self' m' new,
    initializePool_from n i self m = Some (self', m') ∧
    loop_result n self m self' m' new.
Proof.
  revert i self m. induction n as [|n IH]; intros i self m.
  - exists self, m, []. split; [done|]. split; try done.
    + by rewrite app_nil_r.
    + exists []. by rewrite app_nil_r.
    + apply NoDup_nil_2.
    + intros c Hc. by apply elem_of_nil in Hc.
    + by rewrite list_to_set_nil, union_empty_r_L.
  - destruct (sqlite3_open (c_str (m_dbFile self)) (sqlite (env m))) as [[rc db] w] eqn:Hopen.
    destruct (initializePool_body_spec i self m rc db w Hopen)
      as (self1 & m1 & evs1 & Hbody & Hw & Htr & Hev & Hcase).
    destruct (IH (S i) self1 m1) as (self' & m' & new & Hrun & R).
    destruct R as [Rf Rs Rq (evs & Rtr & Rev) Robj Rnd Rnew Rdom Rold].
    cbn [initializePool_from attempts]. rewrite Hbody. cbn [mbind option_bind].
    rewrite Hrun.
    destruct (connects (rc, db)) eqn:Hc; destruct Hcase as [-> Hheap].
    + (* the connection was pushed *)
      set (p := fresh (dom (heap m))) in *.
      assert (heap m !! p = None) as Hp.
      { apply not_elem_of_dom. apply is_fresh. }
      assert (heap m1 !! p = Some (mkConnection db)) as Hp1.
      { rewrite Hheap. apply lookup_insert_eq. }
      exists self', m', (p :: new). split; [done|].
      cbn [queue_push m_dbFile m_poolSize m_connections] in *.
      split.
      * done.
      * done.
      * rewrite Rq. by rewrite <- app_assoc.
      * exists (evs1 ++ evs). split.
        { rewrite Rtr, Htr. by rewrite app_assoc. }
        cbn [attempts]. rewrite Hopen. rewrite opens_app, Hev, Rev, Hw. done.
      * cbn [attempts]. rewrite Hopen. rewrite filter_cons_True by (rewrite Hc; exact I).
        cbn [fmap list_fmap]. rewrite (Rold _ _ Hp1).
        cbn [snd]. f_equal. rewrite Robj, Hw. done.
      * apply NoDup_cons. split; [|done].
        intros Hin. apply Rnew in Hin. congruence.
      * intros c Hin. apply elem_of_cons in Hin as [->|Hin]; [done|].
        apply Rnew in Hin. rewrite Hheap in Hin.
        apply lookup_insert_None in Hin. tauto.
      * rewrite Rdom, Hheap, dom_insert_L, list_to_set_cons.
        rewrite (union_comm_L {[p]} (dom (heap m))). by rewrite union_assoc_L.
      * intros q obj Hq. apply Rold. rewrite Hheap.
        rewrite lookup_insert_ne; [done|]. intros <-. congruence.
    + (* the connection was dropped *)
      exists self', m', new. split; [done|]. split.
      * done.
      * done.
      * done.
      * exists (evs1 ++ evs). split.
        { rewrite Rtr, Htr. by rewrite app_assoc. }
        cbn [attempts]. rewrite Hopen. rewrite opens_app, Hev, Rev, Hw. done.
      * cbn [attempts]. rewrite Hopen. rewrite filter_cons_False by (rewrite Hc; exact id).
        rewrite Robj, Hw. done.
      * done.
      * intros c Hin. rewrite <- Hheap. by apply Rnew.
      * by rewrite Rdom, Hheap.
      * intros q obj Hq. apply Rold. by rewrite Hheap.
Qed.

Lemma attempts_length n filename (w : W) : length (attempts n filename w) = n.
Proof.
  revert w. induction n as [|n IH]; intros w; [done|].
  simpl. destruct (sqlite3_open filename w) as [[rc db] w']. simpl. by rewrite IH.
Qed.

Lemma ConnectionPool_ctor_result dbFile poolSize (m : Memory W handle) :
  ∃ self m',
    ConnectionPool_ctor dbFile poolSize m = Some (self, m') ∧
    loop_result poolSize (mkPool dbFile poolSize []) m self m' (m_connections self).
Proof.
  unfold ConnectionPool_ctor, initializePool. cbn [m_poolSize].
  destruct (initializePool_from_spec poolSize 0 (mkPool dbFile poolSize []) m)
    as (self & m' & new & Hrun & R).
  exists self, m'. split; [done|].
  pose proof (loop_queue _ _ _ _ _ _ R) as Hq. cbn in Hq. by rewrite Hq.
Qed.

(** The queue the constructor leaves has as many entries as opens
    succeeded, and no address twice. *)
Lemma ConnectionPool_ctor_queue dbFile poolSize (m : Memory W handle) self m' :
  ConnectionPool_ctor dbFile poolSize m = Some (self, m') →
  NoDup (m_connections self) ∧
  length (m_connections self) = successfully_opened_count dbFile poolSize m ∧
  successfully_opened_count dbFile poolSize m ≤ poolSize.
Proof.
  intros Hctor.
  destruct (ConnectionPool_ctor_result dbFile poolSize m) as (self0 & m0 & Hrun & R).
  rewrite Hctor in Hrun. injection Hrun as <- <-.
  split; [apply (loop_nodup _ _ _ _ _ _ R)|].
  unfold successfully_opened_count, successfully_opened.
  split.
  - pose proof (loop_objects _ _ _ _ _ _ R) as Hobj. cbn [m_dbFile] in Hobj.
    apply (f_equal length) in Hobj. by rewrite !length_fmap in Hobj.
  - etrans; [apply length_filter|]. by rewrite attempts_length.
Qed.

End ConstructionFacts.

(** * A caller alone on the pool *)

Section PoolFacts.
Context {W handle : Type} `{!Sqlite3 W handle}.

Lemma getConnection_front self (m : Memory W handle) front rest :
  m_connections self = front :: rest →
  getConnection self m
  = Returned front (mkPool (m_dbFile self) (m_poolSize self) rest)
      (cout ("get connection successful " +:+ newline +:+ endl) m).
Proof. intros Hq. unfold getConnection, queue_pop. by rewrite Hq. Qed.

Lemma getConnection_empty self (m : Memory W handle) :
  m_connections self = [] ↔ getConnection self m = WaitsForever.
Proof. unfold getConnection. by destruct (m_connections self). Qed.

Lemma run_ops_order ops self (m : Memory W handle) outs self' m' :
  run_ops ops self m = Some (outs, self', m') →
  outs ++ m_connections self' = m_connections self ++ released ops.
Proof.
  revert self m outs. induction ops as [|[|c] ops IH]; intros self m outs Hrun.
  - injection Hrun as <- <- <-. cbn. by rewrite app_nil_r.
  - cbn [run_ops] in Hrun.
    destruct (m_connections self) as [|front rest] eqn:Hq.
    { apply (getConnection_empty self m) in Hq. by rewrite Hq in Hrun. }
    rewrite (getConnection_front self m front rest Hq) in Hrun.
    destruct (run_ops ops _ _) as [[[out self2] m2]|] eqn:Hrest; [|done].
    injection Hrun as <- <- <-.
    apply IH in Hrest. cbn in Hrest. cbn. by rewrite Hrest.
  - cbn [run_ops releaseConnection] in Hrun.
    apply IH in Hrun. cbn in Hrun. cbn. by rewrite Hrun, <- app_assoc.
Qed.

(** Acquiring as many times as the queue is long hands out the queue, front
    first. *)
Lemma run_ops_acquires q rest f sz (m : Memory W handle) :
  ∃ m', run_ops (replicate (length q) acquire) (mkPool f sz (q ++ rest)) m
        = Some (q, mkPool f sz rest, m') ∧ heap m' = heap m.
Proof.
  revert m. induction q as [|c q IH]; intros m.
  - by exists m.
  - cbn [length replicate run_ops].
    rewrite (getConnection_front _ m c (q ++ rest)) by done. cbn [m_dbFile m_poolSize].
    destruct (IH (cout ("get connection successful " +:+ newline +:+ endl) m))
      as (m' & -> & Hheap).
    exists m'. split; [done|]. by rewrite Hheap.
Qed.

(** Each acquire of a sequence that runs to its end returns one
    connection. *)
Lemma run_ops_length ops self (m : Memory W handle) outs self' m' :
  run_ops ops self m = Some (outs, self', m') → length outs = acquires ops.
Proof.
  unfold acquires.
  revert self m outs. induction ops as [|[|c] ops IH]; intros self m outs Hrun.
  - by injection Hrun as <- <- <-.
  - cbn [run_ops] in Hrun.
    destruct (getConnection self m) as [c p1 m1|]; [|done].
    destruct (run_ops ops p1 m1) as [[[out self2] m2]|] eqn:Hrest; [|done].
    injection Hrun as <- <- <-.
    rewrite filter_cons_True by done. cbn [length]. f_equal. by eapply IH.
  - cbn [run_ops releaseConnection] in Hrun.
    rewrite filter_cons_False by done. by eapply IH.
Qed.

(** A sequence none of whose acquires outruns the queue and the releases
    before it runs to its end. *)
Lemma run_ops_completes ops self (m : Memory W handle) :
  (∀ k, acquires (take k ops) ≤ available_count self + length (released (take k ops))) →
  is_Some (run_ops ops self m).
Proof.
  unfold available_count, acquires, released.
  revert self m. induction ops as [|[|c] ops IH]; intros self m Hk.
  - by eexists.
  - cbn [run_ops]. destruct (m_connections self) as [|front rest] eqn:Hq.
    + specialize (Hk 1). cbn [take] in Hk. rewrite take_0 in Hk.
      rewrite filter_cons_True in Hk by done. cbn in Hk. lia.
    + rewrite (getConnection_front self m front rest Hq).
      destruct (IH (mkPool (m_dbFile self) (m_poolSize self) rest)
                  (cout ("get connection successful " +:+ newline +:+ endl) m))
        as [[[out self2] m2] Hrest].
      * intros k. specialize (Hk (S k)).
        cbn [take] in Hk. rewrite filter_cons_True in Hk by done.
        cbn [omap list_omap length m_connections] in *. lia.
      * rewrite Hrest. by eexists.
  - cbn [run_ops releaseConnection]. apply IH. intros k. specialize (Hk (S k)).
    cbn [take] in Hk. rewrite filter_cons_False in Hk by done.
    cbn [queue_push m_connections]. rewrite length_app.
    cbn [omap list_omap length] in *. lia.
Qed.

(** What the acquires of a sequence return, and what is left: the
    connections leave the queue in the order in which they entered it. *)
Lemma run_ops_fifo ops self (m : Memory W handle) outs self' m' :
  run_ops ops self m = Some (outs, self', m') →
  outs = take (acquires ops) (m_connections self ++ released ops) ∧
  m_connections self' = drop (acquires ops) (m_connections self ++ released ops).
Proof.
  intros Hrun.
  pose proof (run_ops_order _ _ _ _ _ _ Hrun) as Horder.
  pose proof (run_ops_length _ _ _ _ _ _ Hrun) as Hlen.
  rewrite <- Horder, <- Hlen. by rewrite take_app_length, drop_app_length.
Qed.

Lemma run_ops_pool ops self (m : Memory W handle) outs self' m' :
  run_ops ops self m = Some (outs, self', m') →
  m_dbFile self' = m_dbFile self ∧ m_poolSize self' = m_poolSize self.
Proof.
  revert self m outs. induction ops as [|[|c] ops IH]; intros self m outs Hrun.
  - by injection Hrun as <- <- <-.
  - cbn [run_ops] in Hrun. unfold getConnection in Hrun.
    destruct (m_connections self) as [|front rest]; [done|].
    destruct (run_ops ops _ _) as [[[out self2] m2]|] eqn:Hrest; [|done].
    injection Hrun as <- <- <-. by apply IH in Hrest.
  - cbn [run_ops releaseConnection] in Hrun. by apply IH in Hrun.
Qed.

(** C6.  From a pool whose queue holds as many connections as were
    successfully opened, at least one, [n] times [getConnection] followed
    by [releaseConnection] of the connection just obtained never waits
    and leaves as many connections in the queue, the same ones. *)
Theorem round_trips_restore n dbFile poolSize (m0 : Memory W handle) self
    (m : Memory W handle) :
  available_count self = successfully_opened_count dbFile poolSize m0 →
  1 ≤ successfully_opened_count dbFile poolSize m0 →
  ∃ self' m',
    round_trips n self m = Some (self', m') ∧
    available_count self' = successfully_opened_count dbFile poolSize m0 ∧
    m_connections self' ≡ₚ m_connections self.
Proof.
  generalize (successfully_opened_count dbFile poolSize m0). intros k.
  unfold available_count.
  revert self m. induction n as [|n IH]; intros self m Hlen Hk.
  - exists self, m. done.
  - destruct (m_connections self) as [|front rest] eqn:Hq.
    { cbn in Hlen. lia. }
    cbn [round_trips].
    rewrite (getConnection_front self m front rest Hq). cbn [releaseConnection].
    edestruct (IH (queue_push front (mkPool (m_dbFile self) (m_poolSize self) rest)))
      as (self' & m' & Hrun & Hlen' & Hperm); [| exact Hk |].
    { cbn. rewrite length_app. cbn in *. lia. }
    exists self', m'. split; [exact Hrun|]. split; [done|].
    rewrite Hperm. cbn. by rewrite <- Permutation_cons_append.
Qed.

Lemma call_executeQuery_heap connection query (m : Memory W handle) ok m1 :
  call_executeQuery connection query m = Some (ok, m1) → heap m1 = heap m.
Proof.
  unfold call_executeQuery.
  destruct (heap m !! connection) as [obj|] eqn:Hobj; [|done]. cbn.
  pose proof (executeQuery_object obj query (env m)) as Hsame.
  destruct (executeQuery obj query (env m)) as [[ok' obj'] e]. cbn in Hsame. subst obj'.
  intros [= _ <-]. cbn. by apply insert_id.
Qed.

(** After a call of [executeQuery] that returned [false], a lone caller
    releases the connection as it would have without the query, and the
    acquires that follow hand out the queue in order, that connection
    last. *)
Lemma failed_query_then_alone connection query self (m m1 : Memory W handle) :
  call_executeQuery connection query m = Some (false, m1) →
  heap m1 = heap m ∧
  (releaseConnection connection self m1).1 = (releaseConnection connection self m).1 ∧
  ∃ self' m',
    run_ops (replicate (S (length (m_connections self))) acquire)
      (releaseConnection connection self m1).1 (releaseConnection connection self m1).2
    = Some (m_connections self ++ [connection], self', m') ∧
    m_connections self' = [] ∧
    heap m' = heap m.
Proof.
  intros Hq. pose proof (call_executeQuery_heap _ _ _ _ _ Hq) as Hheap.
  split; [done|]. split; [done|].
  cbn [releaseConnection fst snd queue_push].
  destruct (run_ops_acquires (m_connections self ++ [connection]) []
              (m_dbFile self) (m_poolSize self) m1) as (m' & Hrun & Hheap').
  rewrite app_nil_r in Hrun.
  rewrite length_app in Hrun. cbn [length] in Hrun.
  replace (length (m_connections self) + 1) with (S (length (m_connections self))) in Hrun by lia.
  eexists _, m'. split; [exact Hrun|]. split; [done|]. by rewrite Hheap'.
Qed.

End PoolFacts.

(** * Threads on one pool *)

Section ThreadFacts.
Context {W handle : Type} `{!Sqlite3 W handle}.

Lemma exec_app (ls1 ls2 : list Label) (s : Shared W handle) :
  exec (ls1 ++ ls2) s = exec ls1 s ≫= exec ls2.
Proof.
  revert s. induction ls1 as [|l ls1 IH]; intros s; [done|].
  cbn [exec app]. destruct (step l s) as [s1|]; [apply IH|done].
Qed.

Lemma thread_safe_outside_critical p owner t th :
  at_pc th ≠ Undefined → in_critical (at_pc th) = false → thread_safe p owner t th.
Proof. intros Hdef Hnc. split; [done|]. rewrite Hnc. discriminate. Qed.

(** While [t] owns the mutex, or while nobody does, no other thread is
    between a lock and an unlock. *)
Lemma others_outside_critical (s : Shared W handle) t t' th' :
  safe s →
  m_mutex s = None ∨ m_mutex s = Some t →
  t' ≠ t →
  threads s !! t' = Some th' →
  ∀ p owner, thread_safe p owner t' th'.
Proof.
  intros Hs Hm Hne Ht' p owner.
  destruct (Hs t' th' Ht') as [Hdef Hcrit].
  apply thread_safe_outside_critical; [done|].
  destruct (in_critical (at_pc th')) eqn:Hc; [|done].
  destruct (Hcrit eq_refl) as [Hown _].
  destruct Hm as [Hm|Hm]; rewrite Hm in Hown; congruence.
Qed.

(** After thread [t] has moved to [th1], while it owned the mutex or nobody
    did: the state is safe when [t] is. *)
Lemma safe_update (s : Shared W handle) t th th1 (m1 : Memory W handle) p1 owner1 :
  safe s →
  threads s !! t = Some th →
  m_mutex s = None ∨ m_mutex s = Some t →
  thread_safe p1 owner1 t th1 →
  safe (mkShared m1 p1 owner1 (<[t := th1]> (threads s))).
Proof.
  intros Hs Ht Hm Hnew t' th' Hlook. cbn in *.
  apply list_lookup_insert_Some in Hlook as [(<- & <- & _)|(Hne & Hlook)]; [done|].
  by eapply others_outside_critical.
Qed.

(** The same when the thread touches neither the queue nor the mutex. *)
Lemma safe_update_local (s : Shared W handle) t th th1 (m1 : Memory W handle) :
  safe s →
  threads s !! t = Some th →
  thread_safe (pool s) (m_mutex s) t th1 →
  safe (mkShared m1 (pool s) (m_mutex s) (<[t := th1]> (threads s))).
Proof.
  intros Hs Ht Hnew t' th' Hlook. cbn in *.
  apply list_lookup_insert_Some in Hlook as [(<- & <- & _)|(Hne & Hlook)]; [done|].
  by apply Hs.
Qed.

Lemma safe_step (l : Label) (s s' : Shared W handle) :
  safe s → step l s = Some s' → safe s'.
Proof.
  intros Hs Hstep.
  destruct l as [t|t c|t|t w|t|t c query]; cbn [step] in Hstep;
    destruct (threads s !! t) as [th|] eqn:Ht; try discriminate;
    cbn [mbind option_bind] in Hstep.
  - (* a call of getConnection *)
    destruct (decide _) as [Hout|]; [|done]. injection Hstep as <-.
    apply (safe_update_local s t th); [done..|].
    by apply thread_safe_outside_critical.
  - (* a call of releaseConnection *)
    destruct (decide _) as [Hout|]; [|done]. injection Hstep as <-.
    apply (safe_update_local s t th); [done..|].
    by apply thread_safe_outside_critical.
  - (* a statement *)
    pose proof (Hs t th Ht) as [Hdef Hcrit].
    unfold statement, lock, goto, unlock, with_pool, with_mem in Hstep.
    destruct (at_pc th) as [| | | | | |c|c|c|c|c|c|c|] eqn:Hpc; try discriminate;
      cbn [in_critical] in Hcrit;
      try (destruct (Hcrit eq_refl) as (Hown & Hfront & Hcopy)).
    + (* 77 *)
      destruct (m_mutex s) eqn:Hm; [done|]. injection Hstep as <-.
      apply (safe_update s t th); [done|done|by left|].
      split; [done|]. intros _. split; [done|]. split; [done|].
      intros c [?|?]; done.
    + (* 79 *)
      destruct (m_connections (pool s)) as [|c q] eqn:Hq; injection Hstep as <-; cbn.
      * apply (safe_update s t th); [done|done|by right|].
        by apply thread_safe_outside_critical.
      * apply (safe_update_local s t th); [done..|].
        split; [done|]. intros _. split; [done|]. split; [by rewrite Hq|].
        intros c' [?|?]; done.
    + (* 81, woken *)
      destruct (m_mutex s) eqn:Hm; [done|]. injection Hstep as <-.
      apply (safe_update s t th); [done|done|by left|].
      split; [done|]. intros _. split; [done|]. split; [done|].
      intros c [?|?]; done.
    + (* 84 *)
      destruct (m_connections (pool s)) as [|c q] eqn:Hq.
      { by destruct Hfront. }
      injection Hstep as <-.
      apply (safe_update_local s t th); [done..|].
      split; [done|]. intros _. split; [done|]. split; [done|].
      intros c' [[= <-]|?]; [|done]. by rewrite Hq.
    + (* 85 *)
      injection Hstep as <-. cbn.
      apply (safe_update_local s t th); [done..|].
      split; [done|]. intros _. split; [done|]. split; [done|].
      intros c' [?|[= <-]]; [done|]. apply Hcopy. by left.
    + (* 86 *)
      destruct (m_connections (pool s)) as [|c' q] eqn:Hq.
      { by specialize (Hcopy c (or_intror eq_refl)). }
      injection Hstep as <-. cbn.
      apply (safe_update s t th); [done|done|by right|].
      split; [done|]. intros _. split; [done|]. split; [done|].
      intros c'' [?|?]; done.
    + (* 87 *)
      injection Hstep as <-.
      apply (safe_update s t th); [done|done|by right|].
      by apply thread_safe_outside_critical.
    + (* 92 *)
      destruct (m_mutex s) eqn:Hm; [done|]. injection Hstep as <-.
      apply (safe_update s t th); [done|done|by left|].
      split; [done|]. intros _. split; [done|]. split; [done|].
      intros c' [?|?]; done.
    + (* 93 *)
      injection Hstep as <-. cbn.
      apply (safe_update s t th); [done|done|by right|].
      split; [done|]. intros _. split; [done|]. split; [done|].
      intros c' [?|?]; done.
    + (* 94 *)
      destruct (forallb _ _); [|done]. injection Hstep as <-.
      apply (safe_update_local s t th); [done..|].
      split; [done|]. intros _. split; [done|]. split; [done|].
      intros c' [?|?]; done.
    + (* 95 *)
      injection Hstep as <-. cbn.
      apply (safe_update s t th); [done|done|by right|].
      by apply thread_safe_outside_critical.
  - (* notify_one wakes w *)
    destruct (threads s !! w) as [tw|] eqn:Hw; [|done]. cbn [mbind option_bind] in Hstep.
    destruct (at_pc th) as [| | | | | |c|c|c|c|c|c|c|] eqn:Hpc; try discriminate.
    destruct (blocked tw) eqn:Hb; [|done]. injection Hstep as <-.
    apply bool_decide_eq_true in Hb.
    assert (t ≠ w) as Hne by (intros ->; congruence).
    pose proof (Hs t th Ht) as [Hdef Hcrit]. rewrite Hpc in Hcrit.
    destruct (Hcrit eq_refl) as (Hown & _ & _).
    unfold goto at 1.
    apply (safe_update_local (goto w tw Get81_woken s) t th).
    + unfold goto. apply (safe_update_local s w tw); [done..|].
      by apply thread_safe_outside_critical.
    + unfold goto. simpl. rewrite list_lookup_insert_ne; [done|congruence].
    + unfold goto. simpl. split; [done|]. intros _. split; [done|]. split; [done|].
      intros c' [?|?]; done.
  - (* a spurious wake-up *)
    destruct (blocked th) eqn:Hb; [|done]. injection Hstep as <-.
    apply (safe_update_local s t th); [done..|].
    by apply thread_safe_outside_critical.
  - (* executeQuery *)
    destruct (decide _) as [Hout|]; [|done].
    destruct (call_executeQuery c query (mem s)) as [[ok m1]|]; [|done].
    injection Hstep as <-. exact Hs.
Qed.

Lemma safe_exec (ls : list Label) (s s' : Shared W handle) :
  safe s → exec ls s = Some s' → safe s'.
Proof.
  revert s. induction ls as [|l ls IH]; intros s Hs Hexec.
  - by injection Hexec as <-.
  - cbn [exec] in Hexec. destruct (step l s) as [s1|] eqn:Hstep; [|done].
    eapply IH; [|exact Hexec]. by eapply safe_step.
Qed.

Lemma safe_initial (s : Shared W handle) :
  m_mutex s = None →
  Forall (λ th, at_pc th = Outside) (threads s) →
  safe s.
Proof.
  intros Hm Hall t th Ht.
  rewrite Forall_forall in Hall.
  assert (at_pc th = Outside) as Hout.
  { apply Hall. by eapply list_elem_of_lookup_2. }
  apply thread_safe_outside_critical; by rewrite Hout.
Qed.

Lemma hands_split (ths : list Thread) t th :
  ths !! t = Some th →
  ∃ rest, hands ths ≡ₚ in_hand th ++ rest ∧
          ∀ th1, hands (<[t := th1]> ths) ≡ₚ in_hand th1 ++ rest.
Proof.
  intros Ht. exists (hands (take t ths) ++ hands (drop (S t) ths)).
  pose proof (lookup_lt_Some _ _ _ Ht) as Hlt.
  split.
  - rewrite <- (take_drop_middle ths t th Ht) at 1.
    unfold hands. rewrite bind_app, bind_cons.
    rewrite !app_assoc. f_equiv. apply Permutation_app_comm.
  - intros th1. rewrite insert_take_drop by done.
    unfold hands. rewrite bind_app, bind_cons.
    rewrite !app_assoc. f_equiv. apply Permutation_app_comm.
Qed.

Lemma remove_first_perm c (l : list loc) : c ∈ l → l ≡ₚ remove_first c l ++ [c].
Proof.
  induction l as [|x l IH]; intros Hin.
  - by apply elem_of_nil in Hin.
  - cbn [remove_first]. destruct (decide (x = c)) as [->|Hne].
    + apply Permutation_cons_append.
    + apply elem_of_cons in Hin as [Heq|Hin]; [congruence|].
      cbn. f_equiv. by apply IH.
Qed.

Lemma accounted_update q0 (s : Shared W handle) t th th1 (m1 : Memory W handle) p1 owner1 :
  accounted q0 s →
  threads s !! t = Some th →
  m_connections p1 ++ in_hand th1 ≡ₚ m_connections (pool s) ++ in_hand th →
  accounted q0 (mkShared m1 p1 owner1 (<[t := th1]> (threads s))).
Proof.
  unfold accounted, checked_out. intros Hacc Ht Hmove. simpl.
  destruct (hands_split (threads s) t th Ht) as (rest & Hold & Hnew).
  rewrite Hnew, app_assoc, Hmove, <- app_assoc, <- Hold. done.
Qed.

Lemma accounted_step q0 (l : Label) (s s' : Shared W handle) :
  safe s → accounted q0 s → releases_held l s = true → step l s = Some s' →
  accounted q0 s'.
Proof.
  intros Hs Hacc Hrel Hstep.
  destruct l as [t|t c|t|t w|t|t c query]; cbn [step releases_held] in Hstep, Hrel;
    destruct (threads s !! t) as [th|] eqn:Ht; try discriminate;
    cbn [mbind option_bind] in Hstep.
  - destruct (decide _) as [Hout|]; [|done]. injection Hstep as <-.
    apply (accounted_update q0 s t th); [done..|].
    unfold in_hand. simpl. by rewrite Hout.
  - destruct (decide _) as [Hout|]; [|done]. injection Hstep as <-.
    apply bool_decide_eq_true in Hrel.
    apply (accounted_update q0 s t th); [done..|].
    unfold in_hand. simpl. rewrite Hout. simpl. rewrite app_nil_r.
    f_equiv. symmetry. by apply remove_first_perm.
  - pose proof (Hs t th Ht) as [Hdef Hcrit].
    unfold statement, lock, goto, unlock, with_pool, with_mem in Hstep.
    destruct (at_pc th) as [| | | | | |c|c|c|c|c|c|c|] eqn:Hpc; try discriminate;
      cbn [in_critical] in Hcrit;
      try (destruct (Hcrit eq_refl) as (Hown & Hfront & Hcopy)).
    + destruct (m_mutex s); [done|]. injection Hstep as <-.
      apply (accounted_update q0 s t th); [done..|].
      unfold in_hand. simpl. by rewrite Hpc.
    + destruct (m_connections (pool s)) as [|c q] eqn:Hq; injection Hstep as <-; simpl;
        apply (accounted_update q0 s t th); try done;
        unfold in_hand; simpl; by rewrite Hpc, Hq.
    + destruct (m_mutex s); [done|]. injection Hstep as <-.
      apply (accounted_update q0 s t th); [done..|].
      unfold in_hand. simpl. by rewrite Hpc.
    + destruct (m_connections (pool s)) as [|c q] eqn:Hq; injection Hstep as <-;
        apply (accounted_update q0 s t th); try done;
        unfold in_hand; simpl; by rewrite Hpc, Hq.
    + injection Hstep as <-. simpl.
      apply (accounted_update q0 s t th); [done..|].
      unfold in_hand. simpl. by rewrite Hpc.
    + specialize (Hcopy c (or_intror eq_refl)).
      destruct (m_connections (pool s)) as [|c' q] eqn:Hq; [done|].
      injection Hcopy as ->.
      injection Hstep as <-. simpl.
      apply (accounted_update q0 s t th); [done..|].
      unfold in_hand. simpl. rewrite Hpc, Hq. simpl. rewrite app_nil_r.
      rewrite app_assoc. symmetry. apply Permutation_cons_append.
    + injection Hstep as <-.
      apply (accounted_update q0 s t th); [done..|].
      unfold in_hand. simpl. rewrite Hpc. simpl. by rewrite app_nil_r.
    + destruct (m_mutex s); [done|]. injection Hstep as <-.
      apply (accounted_update q0 s t th); [done..|].
      unfold in_hand. simpl. by rewrite Hpc.
    + injection Hstep as <-. simpl.
      apply (accounted_update q0 s t th); [done..|].
      unfold in_hand. simpl. rewrite Hpc. simpl. rewrite app_nil_r.
      rewrite <- !app_assoc. f_equiv. apply Permutation_app_comm.
    + destruct (forallb _ _); [|done]. injection Hstep as <-.
      apply (accounted_update q0 s t th); [done..|].
      unfold in_hand. simpl. by rewrite Hpc.
    + injection Hstep as <-. simpl.
      apply (accounted_update q0 s t th); [done..|].
      unfold in_hand. simpl. by rewrite Hpc.
  - destruct (threads s !! w) as [tw|] eqn:Hw; [|done]. cbn [mbind option_bind] in Hstep.
    destruct (at_pc th) as [| | | | | |c|c|c|c|c|c|c|] eqn:Hpc; try discriminate.
    destruct (blocked tw) eqn:Hb; [|done]. injection Hstep as <-.
    apply bool_decide_eq_true in Hb.
    assert (t ≠ w) as Hne by (intros ->; congruence).
    unfold goto at 1.
    apply (accounted_update q0 (goto w tw Get81_woken s) t th).
    + unfold goto. apply (accounted_update q0 s w tw); [done..|].
      unfold in_hand. simpl. by rewrite Hb.
    + unfold goto. simpl. rewrite list_lookup_insert_ne; [done|congruence].
    + unfold goto, in_hand. simpl. by rewrite Hpc.
  - destruct (blocked th) eqn:Hb; [|done]. injection Hstep as <-.
    apply bool_decide_eq_true in Hb.
    apply (accounted_update q0 s t th); [done..|].
    unfold in_hand. simpl. by rewrite Hb.
  - destruct (decide _) as [Hout|]; [|done].
    destruct (call_executeQuery c query (mem s)) as [[ok m1]|]; [|done].
    injection Hstep as <-. exact Hacc.
Qed.

Lemma accounted_exec q0 (ls : list Label) (s s' : Shared W handle) :
  safe s → accounted q0 s → disciplined ls s = true → exec ls s = Some s' →
  accounted q0 s'.
Proof.
  revert s. induction ls as [|l ls IH]; intros s Hs Hacc Hd Hexec.
  - by injection Hexec as <-.
  - cbn [exec disciplined] in Hexec, Hd.
    destruct (step l s) as [s1|] eqn:Hstep; [|done].
    apply andb_true_iff in Hd as [Hrel Hd].
    eapply IH; [| |exact Hd|exact Hexec].
    + by eapply safe_step.
    + by eapply accounted_step.
Qed.

Lemma hands_replicate n : hands (replicate n (mkThread Outside [])) = [].
Proof.
  induction n as [|n IH]; [done|].
  unfold hands in *. cbn [replicate]. rewrite bind_cons, IH. done.
Qed.

Lemma start_safe n p (m : Memory W handle) : safe (start n p m).
Proof.
  apply safe_initial; [done|]. simpl.
  apply Forall_forall. intros th Hth. by apply elem_of_replicate_inv in Hth as ->.
Qed.

Lemma start_accounted n p (m : Memory W handle) : accounted (m_connections p) (start n p m).
Proof.
  unfold accounted, checked_out. simpl. by rewrite hands_replicate, app_nil_r.
Qed.

(** Two threads with the same connection in hand show up as a duplicate. *)
Lemma hands_two_threads (ths : list Thread) t1 t2 th1 th2 c :
  t1 ≠ t2 →
  ths !! t1 = Some th1 →
  ths !! t2 = Some th2 →
  c ∈ in_hand th1 →
  c ∈ in_hand th2 →
  ¬ NoDup (hands ths).
Proof.
  intros Hne H1 H2 Hc1 Hc2 Hnd.
  destruct (hands_split ths t1 th1 H1) as (rest & Hold & Hnew).
  specialize (Hnew (mkThread Outside [])). unfold in_hand at 1 in Hnew. simpl in Hnew.
  assert (c ∈ rest) as Hrest.
  { rewrite <- Hnew. unfold hands. apply list_elem_of_bind. exists th2. split; [done|].
    eapply list_elem_of_lookup_2. rewrite list_lookup_insert_ne; [exact H2|done]. }
  rewrite Hold in Hnd. apply NoDup_app in Hnd as (_ & Hdisj & _).
  by apply (Hdisj c).
Qed.

(** ** A thread that runs alone *)

Ltac run_next :=
  rewrite list_lookup_insert_eq by done; simpl;
  unfold statement, lock, goto, unlock, with_pool, with_mem; simpl;
  rewrite ?list_insert_insert_eq.

(** [getConnection] by a thread nobody interferes with: the call and its
    six statements do what the function [getConnection] says. *)
Lemma solo_getConnection (s : Shared W handle) t th c p1 m1 :
  threads s !! t = Some th →
  at_pc th = Outside →
  m_mutex s = None →
  getConnection (pool s) (mem s) = Returned c p1 m1 →
  exec (getConnection_alone t) s
  = Some (mkShared m1 p1 None (<[t := mkThread Outside (held th ++ [c])]> (threads s))).
Proof.
  intros Ht Hout Hm Hget. unfold getConnection_alone.
  pose proof (lookup_lt_Some _ _ _ Ht) as Hlt.
  destruct s as [m p owner ths]. simpl in *. subst owner.
  unfold getConnection in Hget.
  destruct (m_connections p) as [|c' q] eqn:Hq; [done|]. injection Hget as <- <- <-.
  rewrite Ht. simpl. rewrite decide_True by done. unfold goto. simpl.
  run_next. run_next. rewrite Hq. simpl. rewrite ?list_insert_insert_eq.
  run_next. rewrite Hq. simpl. rewrite ?list_insert_insert_eq.
  run_next. run_next. rewrite Hq. simpl. rewrite ?list_insert_insert_eq.
  run_next. done.
Qed.

Lemma forallb_insert {A} (f : A → bool) (l : list A) i x :
  forallb f l = true → f x = true → forallb f (<[i := x]> l) = true.
Proof.
  revert i. induction l as [|y l IH]; intros i Hl Hx; [done|].
  simpl in Hl. apply andb_true_iff in Hl as [Hy Hl].
  destruct i as [|i]; simpl.
  - by rewrite Hx, Hl.
  - rewrite Hy. simpl. by apply IH.
Qed.

(** [releaseConnection] by a thread nobody interferes with, when no thread
    waits on [m_condVar]: the call and its four statements do what the
    function [releaseConnection] says. *)
Lemma solo_releaseConnection (s : Shared W handle) t th c :
  threads s !! t = Some th →
  at_pc th = Outside →
  m_mutex s = None →
  forallb (λ th', negb (blocked th')) (threads s) = true →
  exec (releaseConnection_alone t c) s
  = Some (mkShared (releaseConnection c (pool s) (mem s)).2
            (releaseConnection c (pool s) (mem s)).1 None
            (<[t := mkThread Outside (remove_first c (held th))]> (threads s))).
Proof.
  intros Ht Hout Hm Hnb. unfold releaseConnection_alone.
  pose proof (lookup_lt_Some _ _ _ Ht) as Hlt.
  destruct s as [m p owner ths]. simpl in *. subst owner.
  rewrite Ht. simpl. rewrite decide_True by done. simpl.
  run_next. run_next.
  rewrite list_lookup_insert_eq by done. simpl.
  unfold statement. simpl.
  rewrite forallb_insert by done.
  unfold goto. simpl. rewrite ?list_insert_insert_eq.
  run_next. done.
Qed.

(** A thread alone on an empty queue never leaves the loop of
    [getConnection], whatever is scheduled and however often it is woken. *)
Lemma waits_alone_step (l : Label) (s s' : Shared W handle) :
  waits_alone s → step l s = Some s' → waits_alone s'.
Proof.
  intros (Hq & th & Hths & Hpc) Hstep.
  destruct s as [m p owner ths]. simpl in *. subst ths.
  destruct l as [t|t c|t|t w|t|t c query]; simpl in Hstep;
    destruct t as [|t]; simpl in Hstep; try discriminate.
  - destruct (decide _) as [Hout|]; [|done].
    rewrite Hout in Hpc. by destruct Hpc as [?|[?|[?|?]]].
  - destruct (decide _) as [Hout|]; [|done].
    rewrite Hout in Hpc. by destruct Hpc as [?|[?|[?|?]]].
  - unfold statement, lock, goto, unlock, with_pool, with_mem in Hstep. simpl in Hstep.
    rewrite Hq in Hstep.
    destruct Hpc as [Hpc|[Hpc|[Hpc|Hpc]]]; rewrite Hpc in Hstep; try discriminate.
    + destruct owner; [done|]. injection Hstep as <-.
      split; [done|]. eexists. split; [done|]. simpl. tauto.
    + injection Hstep as <-.
      split; [done|]. eexists. split; [done|]. simpl. tauto.
    + destruct owner; [done|]. injection Hstep as <-.
      split; [done|]. eexists. split; [done|]. simpl. tauto.
  - destruct w as [|w]; simpl in Hstep; [|done].
    destruct Hpc as [Hpc|[Hpc|[Hpc|Hpc]]]; rewrite Hpc in Hstep; discriminate.
  - destruct (blocked th); [|done]. injection Hstep as <-.
    split; [done|]. eexists. split; [done|]. simpl. tauto.
  - destruct (decide _) as [Hout|]; [|done].
    rewrite Hout in Hpc. by destruct Hpc as [?|[?|[?|?]]].
Qed.

Lemma waits_alone_exec (ls : list Label) (s s' : Shared W handle) :
  waits_alone s → exec ls s = Some s' → waits_alone s'.
Proof.
  revert s. induction ls as [|l ls IH]; intros s Hw Hexec.
  - by injection Hexec as <-.
  - cbn [exec] in Hexec. destruct (step l s) as [s1|] eqn:Hstep; [|done].
    eapply IH; [|exact Hexec]. by eapply waits_alone_step.
Qed.

(** This is what [WaitsForever] stands for: on an empty queue the call of
    a thread that is alone never comes back, whatever is scheduled. *)
Lemma solo_getConnection_waits p (m : Memory W handle) (ls : list Label) s' :
  getConnection p m = WaitsForever →
  exec (call_getConnection 0 :: ls) (start 1 p m) = Some s' →
  waits_alone s'.
Proof.
  intros Hget Hexec. apply getConnection_empty in Hget.
  cbn [exec step start threads] in Hexec. simpl in Hexec.
  apply (waits_alone_exec ls (goto 0 (mkThread Outside []) Get77 (start 1 p m))); [|done].
  split; [done|]. eexists. split; [reflexivity|]. by left.
Qed.

(** A step leaves the threads that do not take it where they are, except
    the waiter a [notify_one] wakes. *)
Lemma step_frame (l : Label) (s s' : Shared W handle) t th th' :
  step l s = Some s' →
  threads s !! t = Some th →
  threads s' !! t = Some th' →
  actor l ≠ t →
  th' = th ∨ (at_pc th = Get81_blocked ∧ at_pc th' = Get81_woken).
Proof.
  intros Hstep Ht Ht' Hact.
  destruct l as [t0|t0 c|t0|t0 w|t0|t0 c query]; simpl in Hstep, Hact;
    destruct (threads s !! t0) as [th0|] eqn:Ht0; try discriminate; simpl in Hstep.
  - destruct (decide _); [|done]. injection Hstep as <-. simpl in Ht'.
    rewrite list_lookup_insert_ne in Ht' by done. left. congruence.
  - destruct (decide _); [|done]. injection Hstep as <-. simpl in Ht'.
    rewrite list_lookup_insert_ne in Ht' by done. left. congruence.
  - left. unfold statement, lock, goto, unlock, with_pool, with_mem in Hstep.
    destruct (at_pc th0); try discriminate;
      repeat match type of Hstep with
             | context [match ?x with _ => _ end] => destruct x; try discriminate
             end;
      injection Hstep as <-; simpl in Ht';
      rewrite list_lookup_insert_ne in Ht' by done; congruence.
  - destruct (threads s !! w) as [tw|] eqn:Hw; [|done]. simpl in Hstep.
    destruct (at_pc th0); try discriminate.
    destruct (blocked tw) eqn:Hb; [|done]. injection Hstep as <-.
    apply bool_decide_eq_true in Hb.
    unfold goto in Ht'. simpl in Ht'.
    rewrite list_lookup_insert_ne in Ht' by done.
    destruct (decide (w = t)) as [->|Hne].
    + right. rewrite list_lookup_insert_eq in Ht' by (by eapply lookup_lt_Some).
      injection Ht' as <-. simpl. split; [congruence|done].
    + left. rewrite list_lookup_insert_ne in Ht' by done. congruence.
  - destruct (blocked th0); [|done]. injection Hstep as <-. simpl in Ht'.
    rewrite list_lookup_insert_ne in Ht' by done. left. congruence.
  - destruct (decide _); [|done].
    destruct (call_executeQuery c query (mem s)) as [[ok m1]|]; [|done].
    injection Hstep as <-. simpl in Ht'. left. congruence.
Qed.

(** A thread blocked in [wait] leaves it only as a woken thread. *)
Lemma blocked_then (l : Label) (s s' : Shared W handle) t th th' :
  step l s = Some s' →
  threads s !! t = Some th →
  threads s' !! t = Some th' →
  at_pc th = Get81_blocked →
  at_pc th' = Get81_blocked ∨ at_pc th' = Get81_woken.
Proof.
  intros Hstep Ht Ht' Hpc.
  destruct (decide (actor l = t)) as [Hact|Hact].
  - right. pose proof (lookup_lt_Some _ _ _ Ht) as Hlt.
    destruct l as [t0|t0 c|t0|t0 w|t0|t0 c query]; simpl in Hact; subst t0;
      simpl in Hstep; rewrite Ht in Hstep; simpl in Hstep.
    + destruct (decide _); [congruence|done].
    + destruct (decide _); [congruence|done].
    + unfold statement in Hstep. by rewrite Hpc in Hstep.
    + destruct (threads s !! w); [|done]. simpl in Hstep. by rewrite Hpc in Hstep.
    + destruct (blocked th); [|done]. injection Hstep as <-. simpl in Ht'.
      rewrite list_lookup_insert_eq in Ht' by done. by injection Ht' as <-.
    + destruct (decide _); [congruence|done].
  - destruct (step_frame l s s' t th th' Hstep Ht Ht' Hact) as [->|[_ ?]]; tauto.
Qed.

(** A woken thread goes nowhere but to the test of the loop. *)
Lemma woken_then (l : Label) (s s' : Shared W handle) t th th' :
  step l s = Some s' →
  threads s !! t = Some th →
  threads s' !! t = Some th' →
  at_pc th = Get81_woken →
  at_pc th' = Get81_woken ∨ at_pc th' = Get79.
Proof.
  intros Hstep Ht Ht' Hpc.
  destruct (decide (actor l = t)) as [Hact|Hact].
  - right. pose proof (lookup_lt_Some _ _ _ Ht) as Hlt.
    destruct l as [t0|t0 c|t0|t0 w|t0|t0 c query]; simpl in Hact; subst t0;
      simpl in Hstep; rewrite Ht in Hstep; simpl in Hstep.
    + destruct (decide _); [congruence|done].
    + destruct (decide _); [congruence|done].
    + unfold statement, lock in Hstep. rewrite Hpc in Hstep.
      destruct (m_mutex s); [done|]. injection Hstep as <-. simpl in Ht'.
      rewrite list_lookup_insert_eq in Ht' by done. by injection Ht' as <-.
    + destruct (threads s !! w); [|done]. simpl in Hstep. by rewrite Hpc in Hstep.
    + unfold blocked in Hstep. rewrite Hpc in Hstep. done.
    + destruct (decide _); [congruence|done].
  - destruct (step_frame l s s' t th th' Hstep Ht Ht' Hact) as [->|[? _]]; [tauto|congruence].
Qed.

(** At the test, an empty queue sends the thread back into [wait]. *)
Lemma test_empty_then (l : Label) (s s' : Shared W handle) t th th' :
  step l s = Some s' →
  threads s !! t = Some th →
  threads s' !! t = Some th' →
  at_pc th = Get79 →
  m_connections (pool s) = [] →
  at_pc th' = Get79 ∨ at_pc th' = Get81_blocked.
Proof.
  intros Hstep Ht Ht' Hpc Hq.
  destruct (decide (actor l = t)) as [Hact|Hact].
  - right. pose proof (lookup_lt_Some _ _ _ Ht) as Hlt.
    destruct l as [t0|t0 c|t0|t0 w|t0|t0 c query]; simpl in Hact; subst t0;
      simpl in Hstep; rewrite Ht in Hstep; simpl in Hstep.
    + destruct (decide _); [congruence|done].
    + destruct (decide _); [congruence|done].
    + unfold statement in Hstep. rewrite Hpc, Hq in Hstep.
      injection Hstep as <-. simpl in Ht'.
      rewrite list_lookup_insert_eq in Ht' by done. by injection Ht' as <-.
    + destruct (threads s !! w); [|done]. simpl in Hstep. by rewrite Hpc in Hstep.
    + unfold blocked in Hstep. rewrite Hpc in Hstep. done.
    + destruct (decide _); [congruence|done].
  - destruct (step_frame l s s' t th th' Hstep Ht Ht' Hact) as [->|[? _]]; [tauto|congruence].
Qed.

(** A step leaves the threads that do not take it as they are, except
    that the waiter a [notify_one] wakes is woken. *)
Lemma step_frame_thread (l : Label) (s s' : Shared W handle) t th th' :
  step l s = Some s' →
  threads s !! t = Some th →
  threads s' !! t = Some th' →
  actor l ≠ t →
  th' = th ∨ (at_pc th = Get81_blocked ∧ th' = mkThread Get81_woken (held th)).
Proof.
  intros Hstep Ht Ht' Hact.
  destruct l as [t0|t0 c|t0|t0 w|t0|t0 c query]; simpl in Hstep, Hact;
    destruct (threads s !! t0) as [th0|] eqn:Ht0; try discriminate; simpl in Hstep.
  - destruct (decide _); [|done]. injection Hstep as <-. simpl in Ht'.
    rewrite list_lookup_insert_ne in Ht' by done. left. congruence.
  - destruct (decide _); [|done]. injection Hstep as <-. simpl in Ht'.
    rewrite list_lookup_insert_ne in Ht' by done. left. congruence.
  - left. unfold statement, lock, goto, unlock, with_pool, with_mem in Hstep.
    destruct (at_pc th0); try discriminate;
      repeat match type of Hstep with
             | context [match ?x with _ => _ end] => destruct x; try discriminate
             end;
      injection Hstep as <-; simpl in Ht';
      rewrite list_lookup_insert_ne in Ht' by done; congruence.
  - destruct (threads s !! w) as [tw|] eqn:Hw; [|done]. simpl in Hstep.
    destruct (at_pc th0); try discriminate.
    destruct (blocked tw) eqn:Hb; [|done]. injection Hstep as <-.
    apply bool_decide_eq_true in Hb.
    unfold goto in Ht'. simpl in Ht'.
    rewrite list_lookup_insert_ne in Ht' by done.
    destruct (decide (w = t)) as [->|Hne].
    + right. rewrite list_lookup_insert_eq in Ht' by (by eapply lookup_lt_Some).
      injection Ht' as <-. split; [congruence|]. congruence.
    + left. rewrite list_lookup_insert_ne in Ht' by done. congruence.
  - destruct (blocked th0); [|done]. injection Hstep as <-. simpl in Ht'.
    rewrite list_lookup_insert_ne in Ht' by done. left. congruence.
  - destruct (decide _); [|done].
    destruct (call_executeQuery c query (mem s)) as [[ok m1]|]; [|done].
    injection Hstep as <-. simpl in Ht'. left. congruence.
Qed.

Lemma step_length (l : Label) (s s' : Shared W handle) :
  step l s = Some s' → length (threads s') = length (threads s).
Proof.
  intros Hstep.
  destruct l as [t|t c|t|t w|t|t c query]; simpl in Hstep;
    destruct (threads s !! t) as [th|] eqn:Ht; try discriminate; simpl in Hstep.
  - destruct (decide _); [|done]. injection Hstep as <-. simpl. by rewrite length_insert.
  - destruct (decide _); [|done]. injection Hstep as <-. simpl. by rewrite length_insert.
  - unfold statement, lock, goto, unlock, with_pool, with_mem in Hstep.
    destruct (at_pc th); try discriminate;
      repeat match type of Hstep with
             | context [match ?x with _ => _ end] => destruct x; try discriminate
             end;
      injection Hstep as <-; simpl; by rewrite length_insert.
  - destruct (threads s !! w) as [tw|]; [|done]. simpl in Hstep.
    destruct (at_pc th); try discriminate.
    destruct (blocked tw); [|done]. injection Hstep as <-.
    unfold goto. simpl. by rewrite !length_insert.
  - destruct (blocked th); [|done]. injection Hstep as <-. simpl. by rewrite length_insert.
  - destruct (decide _); [|done].
    destruct (call_executeQuery c query (mem s)) as [[ok m1]|]; [|done].
    by injection Hstep as <-.
Qed.

(** The queue changes only under the hands of a thread that is at its
    [pop()] or at its [push]. *)
Lemma step_pool (l : Label) (s s' : Shared W handle) :
  step l s = Some s' →
  pool s' = pool s ∨
  ∃ th, threads s !! actor l = Some th ∧ in_critical (at_pc th) = true.
Proof.
  intros Hstep.
  destruct l as [t|t c|t|t w|t|t c query]; simpl in Hstep |- *;
    destruct (threads s !! t) as [th|] eqn:Ht; try discriminate; simpl in Hstep.
  - destruct (decide _); [|done]. injection Hstep as <-. by left.
  - destruct (decide _); [|done]. injection Hstep as <-. by left.
  - unfold statement, lock, goto, unlock, with_pool, with_mem in Hstep.
    destruct (at_pc th) eqn:Hpc; try discriminate;
      repeat match type of Hstep with
             | context [match ?x with _ => _ end] => destruct x; try discriminate
             end;
      injection Hstep as <-;
      first [ by left | right; exists th; by rewrite Hpc ].
  - destruct (threads s !! w) as [tw|]; [|done]. simpl in Hstep.
    destruct (at_pc th); try discriminate.
    destruct (blocked tw); [|done]. injection Hstep as <-. by left.
  - destruct (blocked th); [|done]. injection Hstep as <-. by left.
  - destruct (decide _); [|done].
    destruct (call_executeQuery c query (mem s)) as [[ok m1]|]; [|done].
    injection Hstep as <-. by left.
Qed.

(** What a thread holds changes only when its [getConnection] returns
    and when it calls [releaseConnection]. *)
Lemma step_held (l : Label) (s s' : Shared W handle) t th th' :
  step l s = Some s' →
  threads s !! t = Some th →
  threads s' !! t = Some th' →
  held th' = held th ∨
  (∃ c, l = next t ∧ at_pc th = Get87 c ∧ held th' = held th ++ [c]) ∨
  (∃ c, l = call_releaseConnection t c ∧ at_pc th = Outside ∧
        held th' = remove_first c (held th)).
Proof.
  intros Hstep Ht Ht'.
  destruct (decide (actor l = t)) as [Hact|Hact].
  - pose proof (lookup_lt_Some _ _ _ Ht) as Hlt.
    destruct l as [t0|t0 c|t0|t0 w|t0|t0 c query]; simpl in Hact; subst t0;
      simpl in Hstep; rewrite Ht in Hstep; simpl in Hstep.
    + destruct (decide _); [|done]. injection Hstep as <-. simpl in Ht'.
      rewrite list_lookup_insert_eq in Ht' by done. injection Ht' as <-. by left.
    + destruct (decide _); [|done]. injection Hstep as <-. simpl in Ht'.
      rewrite list_lookup_insert_eq in Ht' by done. injection Ht' as <-.
      right; right. by exists c.
    + unfold statement, lock, goto, unlock, with_pool, with_mem in Hstep.
      destruct (at_pc th) eqn:Hpc; try discriminate;
        repeat match type of Hstep with
               | context [match ?x with _ => _ end] => destruct x; try discriminate
               end;
        injection Hstep as <-; simpl in Ht';
        rewrite list_lookup_insert_eq in Ht' by done; injection Ht' as <-;
        first [ by left | right; left; by eexists ].
    + destruct (threads s !! w) as [tw|] eqn:Hw; [|done]. simpl in Hstep.
      destruct (at_pc th) eqn:Hpc; try discriminate.
      destruct (blocked tw) eqn:Hb; [|done]. injection Hstep as <-.
      unfold goto in Ht'. simpl in Ht'.
      rewrite list_lookup_insert_eq in Ht' by (by rewrite length_insert).
      injection Ht' as <-. by left.
    + destruct (blocked th); [|done]. injection Hstep as <-. simpl in Ht'.
      rewrite list_lookup_insert_eq in Ht' by done. injection Ht' as <-. by left.
    + destruct (decide _); [|done].
      destruct (call_executeQuery c query (mem s)) as [[ok m1]|]; [|done].
      injection Hstep as <-. simpl in Ht'. left. congruence.
  - left. destruct (step_frame_thread l s s' t th th' Hstep Ht Ht' Hact) as [->|[_ ->]]; done.
Qed.

Lemma past_test_other (s0 : Shared W handle) ls l t k c q :
  actor l ≠ t → past_test s0 ls t k c q → past_test s0 (ls ++ [l]) t k c q.
Proof.
  intros Hact (ls1 & s1 & th1 & rest & -> & Hexec & Ht1 & Hpc & Hm & Hq & Hrest).
  exists ls1, s1, th1, (rest ++ [l]). rewrite <- app_assoc. do 6 (split; [done|]).
  rewrite filter_app, Hrest, filter_cons_False, app_nil_r; done.
Qed.

Lemma past_test_self (s0 : Shared W handle) ls t k c q :
  past_test s0 ls t k c q → past_test s0 (ls ++ [next t]) t (S k) c q.
Proof.
  intros (ls1 & s1 & th1 & rest & -> & Hexec & Ht1 & Hpc & Hm & Hq & Hrest).
  exists ls1, s1, th1, (rest ++ [next t]). rewrite <- app_assoc. do 6 (split; [done|]).
  rewrite filter_app, Hrest, filter_cons_True by done.
  by rewrite replicate_S_end.
Qed.

(** One more step of the run. *)
Lemma came_by_test_step (s0 : Shared W handle) ls s l s' :
  safe s →
  exec ls s0 = Some s →
  (∀ t th, threads s !! t = Some th → came_by_test s0 ls s t th) →
  step l s = Some s' →
  ∀ t th', threads s' !! t = Some th' → came_by_test s0 (ls ++ [l]) s' t th'.
Proof.
  intros Hs Hexec Hinv Hstep t th' Ht'.
  assert (is_Some (threads s !! t)) as [th Ht].
  { apply lookup_lt_is_Some. rewrite <- (step_length l s s' Hstep).
    by eapply lookup_lt_Some. }
  pose proof (Hinv t th Ht) as Hcame.
  destruct (decide (actor l = t)) as [Hact|Hact].
  - pose proof (lookup_lt_Some _ _ _ Ht) as Hlt.
    destruct (Hs t th Ht) as [_ Hcrit].
    unfold came_by_test in *.
    destruct l as [t0|t0 c|t0|t0 w|t0|t0 c query]; simpl in Hact; subst t0;
      simpl in Hstep; rewrite Ht in Hstep; simpl in Hstep.
    + destruct (decide _); [|done]. injection Hstep as <-. simpl in Ht'.
      rewrite list_lookup_insert_eq in Ht' by done. by injection Ht' as <-.
    + destruct (decide _); [|done]. injection Hstep as <-. simpl in Ht'.
      rewrite list_lookup_insert_eq in Ht' by done. by injection Ht' as <-.
    + unfold statement, lock, goto, unlock, with_pool, with_mem in Hstep.
      destruct (at_pc th) eqn:Hpc; try discriminate;
        repeat match type of Hstep with
               | context [match ?x with _ => _ end] => destruct x eqn:?; try discriminate
               end;
        injection Hstep as <-; simpl in Ht';
        rewrite list_lookup_insert_eq in Ht' by done; injection Ht' as <-;
        cbn [at_pc pool m_connections queue_pop tail]; try done.
      * (* the test found the queue not empty *)
        destruct (Hcrit eq_refl) as (Hown & _).
        match goal with
        | H : m_connections (pool s) = ?c :: ?q |- _ =>
            exists c, q; split; [|exact H]; exists ls, s, th, []
        end.
        by rewrite Hpc.
      * (* front() *)
        destruct Hcame as (c0 & q & Hpast & [= <- <-]).
        eexists. split; [by apply past_test_self|done].
      * (* the line on std::cout *)
        destruct Hcame as (q & Hpast & Hq).
        exists q. split; [by apply past_test_self|done].
      * (* pop() *)
        destruct Hcame as (q & Hpast & [= _ <-]).
        eexists. split; [by apply past_test_self|].
        match goal with H : m_connections (pool s) = _ |- _ => by rewrite H end.
    + destruct (threads s !! w) as [tw|] eqn:Hw; [|done]. simpl in Hstep.
      destruct (at_pc th) eqn:Hpc; try discriminate.
      destruct (blocked tw) eqn:Hb; [|done]. injection Hstep as <-.
      unfold goto in Ht'. simpl in Ht'.
      rewrite list_lookup_insert_eq in Ht' by (by rewrite length_insert).
      by injection Ht' as <-.
    + destruct (blocked th); [|done]. injection Hstep as <-. simpl in Ht'.
      rewrite list_lookup_insert_eq in Ht' by done. by injection Ht' as <-.
    + destruct (decide _) as [Hout|]; [|done].
      destruct (call_executeQuery c query (mem s)) as [[ok m1]|]; [|done].
      injection Hstep as <-. simpl in Ht'.
      assert (th' = th) as -> by congruence. by rewrite Hout.
  - destruct (step_frame_thread l s s' t th th' Hstep Ht Ht' Hact) as [->|[_ ->]]; [|done].
    assert (in_critical (at_pc th) = true → pool s' = pool s) as Hpool.
    { intros Hc. destruct (step_pool l s s' Hstep) as [?|(tha & Hta & Hca)]; [done|].
      destruct (Hs t th Ht) as [_ Hcrit]. destruct (Hcrit Hc) as [Hown _].
      destruct (Hs _ tha Hta) as [_ Hcrita]. destruct (Hcrita Hca) as [Howna _].
      congruence. }
    unfold came_by_test in *.
    destruct (at_pc th) eqn:Hpc; try done.
    + destruct Hcame as (c & q & Hpast & Hq). exists c, q.
      split; [by apply past_test_other|]. by rewrite Hpool.
    + destruct Hcame as (q & Hpast & Hq). exists q.
      split; [by apply past_test_other|]. by rewrite Hpool.
    + destruct Hcame as (q & Hpast & Hq). exists q.
      split; [by apply past_test_other|]. by rewrite Hpool.
    + destruct Hcame as (q & Hpast & Hq). exists q.
      split; [by apply past_test_other|]. by rewrite Hpool.
Qed.

Lemma came_by_test_exec (s0 : Shared W handle) ls s :
  m_mutex s0 = None →
  Forall (λ th, at_pc th = Outside) (threads s0) →
  exec ls s0 = Some s →
  ∀ t th, threads s !! t = Some th → came_by_test s0 ls s t th.
Proof.
  intros Hm Hall. revert s. induction ls as [|l ls IH] using rev_ind; intros s Hexec.
  - injection Hexec as <-. intros t th Ht. unfold came_by_test.
    rewrite Forall_forall in Hall.
    by rewrite (Hall th (list_elem_of_lookup_2 _ _ _ Ht)).
  - rewrite exec_app in Hexec.
    destruct (exec ls s0) as [s1|] eqn:Hexec1; [|done].
    cbn [mbind option_bind exec] in Hexec.
    destruct (step l s1) as [s2|] eqn:Hstep; [|done].
    cbn [mbind option_bind] in Hexec. injection Hexec as <-.
    apply (came_by_test_step s0 ls s1 l s2); try done; [|by apply IH].
    by apply (safe_exec ls s0 s1 (safe_initial s0 Hm Hall)).
Qed.

(** C8.  Threads start in caller code on an unlocked pool and are
    scheduled in any order, with any calls and any wake-ups.  A call of
    [getConnection] that is about to return [c] has, in this same call,
    taken the test of line 79 on a queue that was not empty and had [c]
    at its front, while it owned the mutex; it has executed three
    statements since (the [front()], the line on [std::cout], the
    [pop()]), and the queue is now what that test found without [c]:
    what is returned was taken from a queue that was not empty, and no
    other thread touched the queue in between.  No thread ever calls
    [front()] or [pop()] on an empty queue: from the test of line 79 to
    its return a thread owns the mutex, at line 84 it sees a queue that is
    not empty, and from line 85 until its [pop()] its [connection] is the
    front of the queue.  The only ways to get there go through the test
    of line 79: a thread blocked in [wait] can only become a woken
    thread, by [notify_one] or spuriously; a woken thread can only go to
    the test; and at the test an empty queue sends the thread back into
    [wait].  A thread gets to hold one more connection only by the return
    of its [getConnection]. *)
Theorem getConnection_rechecks_empty (s0 : Shared W handle) (ls : list Label) s :
  m_mutex s0 = None →
  Forall (λ th, at_pc th = Outside) (threads s0) →
  exec ls s0 = Some s →
  ∀ t th,
    threads s !! t = Some th →
    at_pc th ≠ Undefined ∧
    (in_critical (at_pc th) = true → m_mutex s = Some t) ∧
    (at_pc th = Get84 → m_connections (pool s) ≠ []) ∧
    (∀ c, at_pc th = Get85 c ∨ at_pc th = Get86 c →
          head (m_connections (pool s)) = Some c) ∧
    (∀ c, at_pc th = Get87 c →
          ∃ q, past_test s0 ls t 3 c q ∧ m_connections (pool s) = q) ∧
    came_by_test s0 ls s t th ∧
    (∀ l s' th',
       step l s = Some s' → threads s' !! t = Some th' →
       (at_pc th = Get81_blocked →
        at_pc th' = Get81_blocked ∨ at_pc th' = Get81_woken) ∧
       (at_pc th = Get81_woken →
        at_pc th' = Get81_woken ∨ at_pc th' = Get79) ∧
       (at_pc th = Get79 → m_connections (pool s) = [] →
        at_pc th' = Get79 ∨ at_pc th' = Get81_blocked) ∧
       (held th' = held th ∨
        (∃ c, l = next t ∧ at_pc th = Get87 c ∧ held th' = held th ++ [c]) ∨
        (∃ c, l = call_releaseConnection t c ∧ at_pc th = Outside ∧
              held th' = remove_first c (held th)))).
Proof.
  intros Hm Hall Hexec t th Ht.
  pose proof (safe_exec ls s0 s (safe_initial s0 Hm Hall) Hexec) as Hs.
  pose proof (came_by_test_exec s0 ls s Hm Hall Hexec t th Ht) as Hcame.
  destruct (Hs t th Ht) as [Hdef Hcrit].
  split; [done|]. split; [|split; [|split; [|split; [|split]]]].
  - intros Hc. by destruct (Hcrit Hc) as (Hown & _).
  - intros Hpc. rewrite Hpc in Hcrit. destruct (Hcrit eq_refl) as (_ & Hfront & _).
    by apply Hfront.
  - intros c Hpc.
    assert (in_critical (at_pc th) = true) as Hc by (by destruct Hpc as [->| ->]).
    destruct (Hcrit Hc) as (_ & _ & Hcopy). by apply Hcopy.
  - intros c Hpc. unfold came_by_test in Hcame. by rewrite Hpc in Hcame.
  - done.
  - intros l s' th' Hstep Ht'. split; [|split; [|split]].
    + by eapply blocked_then.
    + by eapply woken_then.
    + by eapply test_empty_then.
    + by eapply step_held.
Qed.

(** Whole calls of [getConnection] by one thread, one after the other, as
    long as the queue lasts: the thread ends up holding the front of the
    queue, in order. *)
Lemma solo_acquisitions q rest (s : Shared W handle) t th f sz :
  threads s !! t = Some th →
  at_pc th = Outside →
  m_mutex s = None →
  pool s = mkPool f sz (q ++ rest) →
  ∃ m',
    exec (acquisitions t (length q)) s
    = Some (mkShared m' (mkPool f sz rest) None
              (<[t := mkThread Outside (held th ++ q)]> (threads s))) ∧
    heap m' = heap (mem s).
Proof.
  revert s th. induction q as [|c q IH]; intros s th Ht Hout Hm Hpool.
  - exists (mem s). split; [|done]. simpl.
    destruct s as [m p owner ths], th as [a h]. simpl in *. subst.
    by rewrite app_nil_r, list_insert_id.
  - cbn [length acquisitions]. rewrite exec_app.
    assert (getConnection (pool s) (mem s)
            = Returned c (mkPool f sz (q ++ rest))
                (cout ("get connection successful " +:+ newline +:+ endl) (mem s))) as Hget.
    { rewrite Hpool. reflexivity. }
    rewrite (solo_getConnection s t th c _ _ Ht Hout Hm Hget). simpl.
    pose proof (lookup_lt_Some _ _ _ Ht) as Hlt.
    edestruct (IH (mkShared (cout ("get connection successful " +:+ newline +:+ endl) (mem s))
                     (mkPool f sz (q ++ rest)) None
                     (<[t := mkThread Outside (held th ++ [c])]> (threads s)))
                 (mkThread Outside (held th ++ [c]))) as (m' & Hrun & Hheap).
    + simpl. by rewrite list_lookup_insert_eq.
    + done.
    + done.
    + done.
    + exists m'. split; [|done]. rewrite Hrun. simpl.
      by rewrite list_insert_insert_eq, <- app_assoc.
Qed.

(** The functions for a lone caller say what a thread does when nobody
    interferes: a sequence of calls that [run_ops] completes is completed
    by the thread, with the same pool and the same memory at the end. *)
Lemma solo_run_ops ops (s : Shared W handle) t th outs p' m' :
  threads s !! t = Some th →
  at_pc th = Outside →
  m_mutex s = None →
  forallb (λ th0, negb (blocked th0)) (threads s) = true →
  run_ops ops (pool s) (mem s) = Some (outs, p', m') →
  ∃ h', exec (calls_alone t ops) s
        = Some (mkShared m' p' None (<[t := mkThread Outside h']> (threads s))).
Proof.
  revert s th outs. induction ops as [|[|c] ops IH]; intros s th outs Ht Hout Hm Hnb Hrun.
  - injection Hrun as <- <- <-. exists (held th). simpl.
    destruct s as [m p owner ths], th as [a h]. simpl in *. subst.
    by rewrite list_insert_id.
  - cbn [run_ops calls_alone] in *. rewrite exec_app.
    destruct (getConnection (pool s) (mem s)) as [c p1 m1|] eqn:Hget; [|done].
    destruct (run_ops ops p1 m1) as [[[out p2] m2]|] eqn:Hrest; [|done].
    injection Hrun as <- <- <-.
    rewrite (solo_getConnection s t th c p1 m1 Ht Hout Hm Hget). simpl.
    pose proof (lookup_lt_Some _ _ _ Ht) as Hlt.
    edestruct (IH (mkShared m1 p1 None (<[t := mkThread Outside (held th ++ [c])]> (threads s)))
                 (mkThread Outside (held th ++ [c]))) as (h' & Hexec).
    + simpl. by rewrite list_lookup_insert_eq.
    + done.
    + done.
    + simpl. by apply forallb_insert.
    + exact Hrest.
    + exists h'. rewrite Hexec. simpl. by rewrite list_insert_insert_eq.
  - cbn [run_ops calls_alone releaseConnection] in *. rewrite exec_app.
    rewrite (solo_releaseConnection s t th c Ht Hout Hm Hnb). simpl.
    pose proof (lookup_lt_Some _ _ _ Ht) as Hlt.
    edestruct (IH (mkShared (mem s) (queue_push c (pool s)) None
                     (<[t := mkThread Outside (remove_first c (held th))]> (threads s)))
                 (mkThread Outside (remove_first c (held th)))) as (h' & Hexec).
    + simpl. by rewrite list_lookup_insert_eq.
    + done.
    + done.
    + simpl. by apply forallb_insert.
    + exact Hrun.
    + exists h'. rewrite Hexec. simpl. by rewrite list_insert_insert_eq.
Qed.

Lemma returns_app t (ls1 ls2 : list Label) (s s1 : Shared W handle) :
  exec ls1 s = Some s1 →
  returns t (ls1 ++ ls2) s = returns t ls1 s ++ returns t ls2 s1.
Proof.
  revert s. induction ls1 as [|l ls1 IH]; intros s Hexec.
  - by injection Hexec as <-.
  - cbn [exec] in Hexec. cbn [app returns].
    destruct (step l s) as [s'|]; [|done]. cbn [mbind option_bind] in Hexec.
    rewrite (IH s' Hexec).
    destruct (returning l s) as [[t' c]|]; [|done]. by destruct (decide (t' = t)).
Qed.

(** The one return of a whole call of [getConnection]. *)
Lemma solo_getConnection_returns (s : Shared W handle) t th c p1 m1 :
  threads s !! t = Some th →
  at_pc th = Outside →
  m_mutex s = None →
  getConnection (pool s) (mem s) = Returned c p1 m1 →
  returns t (getConnection_alone t) s = [c].
Proof.
  intros Ht Hout Hm Hget. unfold getConnection_alone.
  pose proof (lookup_lt_Some _ _ _ Ht) as Hlt.
  destruct s as [m p owner ths]. simpl in *. subst owner.
  unfold getConnection in Hget.
  destruct (m_connections p) as [|c' q] eqn:Hq; [done|]. injection Hget as <- <- <-.
  rewrite Ht. simpl. rewrite decide_True by done. unfold goto. simpl.
  run_next. run_next. rewrite Hq. simpl. rewrite ?list_insert_insert_eq.
  run_next. rewrite Hq. simpl. rewrite ?list_insert_insert_eq.
  run_next. run_next. rewrite Hq. simpl. rewrite ?list_insert_insert_eq.
  run_next. by rewrite decide_True.
Qed.

Lemma solo_releaseConnection_returns (s : Shared W handle) t th c :
  threads s !! t = Some th →
  at_pc th = Outside →
  m_mutex s = None →
  forallb (λ th', negb (blocked th')) (threads s) = true →
  returns t (releaseConnection_alone t c) s = [].
Proof.
  intros Ht Hout Hm Hnb. unfold releaseConnection_alone.
  pose proof (lookup_lt_Some _ _ _ Ht) as Hlt.
  destruct s as [m p owner ths]. simpl in *. subst owner.
  rewrite Ht. simpl. rewrite decide_True by done. simpl.
  run_next. run_next.
  rewrite list_lookup_insert_eq by done. simpl.
  unfold statement. simpl.
  rewrite forallb_insert by done.
  unfold goto. simpl. rewrite ?list_insert_insert_eq.
  run_next. done.
Qed.

(** The thread gets from its calls what [run_ops] says. *)
Lemma solo_run_ops_returns ops (s : Shared W handle) t th outs p' m' :
  threads s !! t = Some th →
  at_pc th = Outside →
  m_mutex s = None →
  forallb (λ th0, negb (blocked th0)) (threads s) = true →
  run_ops ops (pool s) (mem s) = Some (outs, p', m') →
  returns t (calls_alone t ops) s = outs.
Proof.
  revert s th outs. induction ops as [|[|c] ops IH]; intros s th outs Ht Hout Hm Hnb Hrun.
  - by injection Hrun as <- <- <-.
  - cbn [run_ops calls_alone] in *.
    destruct (getConnection (pool s) (mem s)) as [c p1 m1|] eqn:Hget; [|done].
    destruct (run_ops ops p1 m1) as [[[out p2] m2]|] eqn:Hrest; [|done].
    injection Hrun as <- <- <-.
    rewrite (returns_app t _ _ s _ (solo_getConnection s t th c p1 m1 Ht Hout Hm Hget)).
    rewrite (solo_getConnection_returns s t th c p1 m1 Ht Hout Hm Hget).
    pose proof (lookup_lt_Some _ _ _ Ht) as Hlt.
    cbn [app]. f_equal.
    apply (IH _ (mkThread Outside (held th ++ [c]))); try done.
    + simpl. by rewrite list_lookup_insert_eq.
    + simpl. by apply forallb_insert.
  - cbn [run_ops calls_alone releaseConnection] in *.
    rewrite (returns_app t _ _ s _ (solo_releaseConnection s t th c Ht Hout Hm Hnb)).
    rewrite (solo_releaseConnection_returns s t th c Ht Hout Hm Hnb).
    pose proof (lookup_lt_Some _ _ _ Ht) as Hlt.
    cbn [app].
    apply (IH _ (mkThread Outside (remove_first c (held th)))); try done.
    + simpl. by rewrite list_lookup_insert_eq.
    + simpl. by apply forallb_insert.
Qed.

(** C10.  [m_connections] is first in, first out.  [getConnection] takes
    the front of the queue and leaves the rest, [releaseConnection] puts
    its argument at the back.  A thread that is alone on the pool makes
    the calls [ops], none of whose acquires comes before the queue and
    the releases so far can serve it.  Then the calls all return, and the
    connections [getConnection] returns to the thread, in the order of
    the calls, are the first ones of the initial queue followed by the
    released connections in the order of their release, as many as there
    are acquires; what is left in the queue is the rest of that
    sequence.  The function [run_ops] gives the same. *)
Theorem available_set_is_fifo (s : Shared W handle) t th ops :
  threads s !! t = Some th →
  at_pc th = Outside →
  m_mutex s = None →
  forallb (λ th0, negb (blocked th0)) (threads s) = true →
  (∀ k, acquires (take k ops)
        ≤ available_count (pool s) + length (released (take k ops))) →
  (∀ front rest,
     m_connections (pool s) = front :: rest →
     ∃ m1, getConnection (pool s) (mem s)
           = Returned front (mkPool (m_dbFile (pool s)) (m_poolSize (pool s)) rest) m1) ∧
  (∀ c, (releaseConnection c (pool s) (mem s)).1
        = mkPool (m_dbFile (pool s)) (m_poolSize (pool s)) (m_connections (pool s) ++ [c])) ∧
  ∃ s',
    exec (calls_alone t ops) s = Some s' ∧
    returns t (calls_alone t ops) s
    = take (acquires ops) (m_connections (pool s) ++ released ops) ∧
    m_connections (pool s')
    = drop (acquires ops) (m_connections (pool s) ++ released ops) ∧
    run_ops ops (pool s) (mem s)
    = Some (take (acquires ops) (m_connections (pool s) ++ released ops), pool s', mem s').
Proof.
  intros Ht Hout Hm Hnb Hk.
  split; [|split].
  - intros front rest Hq. eexists. by apply getConnection_front.
  - done.
  - destruct (run_ops_completes ops (pool s) (mem s) Hk) as [[[outs p'] m'] Hrun].
    destruct (run_ops_fifo _ _ _ _ _ _ Hrun) as [Houts Hleft].
    destruct (solo_run_ops ops s t th outs p' m' Ht Hout Hm Hnb Hrun) as [h' Hexec].
    eexists. split; [exact Hexec|]. cbn [pool mem].
    split; [|split; [done|by rewrite <- Houts]].
    rewrite <- Houts. by eapply solo_run_ops_returns.
Qed.

(** C7.  A thread in caller code calls [executeQuery] and gets [false].
    The step changes nothing of the pool: queue, mutex, the threads and
    what they hold, and every connection object are as before.  The
    thread can then release the connection, and another thread that
    acquires as long as the queue lasts ends up holding it: with nobody
    else at work, the release and the acquires all return, and the
    connection is the last one handed out. *)
Theorem failed_query_leaves_pool (s : Shared W handle) t th c query m1 :
  threads s !! t = Some th →
  at_pc th = Outside →
  call_executeQuery c query (mem s) = Some (false, m1) →
  ∃ s1,
    step (executeQuery_by t c query) s = Some s1 ∧
    pool s1 = pool s ∧ m_mutex s1 = m_mutex s ∧ threads s1 = threads s ∧
    heap (mem s1) = heap (mem s) ∧
    ∀ t' th',
      t' ≠ t →
      threads s !! t' = Some th' →
      at_pc th' = Outside →
      m_mutex s = None →
      forallb (λ th0, negb (blocked th0)) (threads s) = true →
      ∃ s2,
        exec (releaseConnection_alone t c
                ++ acquisitions t' (S (length (m_connections (pool s))))) s1
        = Some s2 ∧
        m_connections (pool s2) = [] ∧
        threads s2 !! t' = Some (mkThread Outside (held th' ++ m_connections (pool s) ++ [c])).
Proof.
  intros Ht Hout Hq.
  pose proof (call_executeQuery_heap _ _ _ _ _ Hq) as Hheap.
  exists (with_mem m1 s). split.
  { simpl. rewrite Ht. simpl. rewrite decide_True by done. by rewrite Hq. }
  split; [done|]. split; [done|]. split; [done|]. split; [done|].
  intros t' th' Hne Ht' Hout' Hm Hnb.
  rewrite exec_app.
  rewrite (solo_releaseConnection (with_mem m1 s) t th c Ht Hout Hm Hnb). simpl.
  destruct (pool s) as [f sz q] eqn:Hpool. simpl.
  edestruct (solo_acquisitions (q ++ [c]) []
               (mkShared m1 (queue_push c (mkPool f sz q)) None
                  (<[t := mkThread Outside (remove_first c (held th))]> (threads s)))
               t' th' f sz) as (m' & Hrun & _).
  - simpl. by rewrite list_lookup_insert_ne.
  - done.
  - done.
  - simpl. unfold queue_push. simpl. by rewrite app_nil_r.
  - rewrite length_app in Hrun. simpl in Hrun.
    replace (length q + 1) with (S (length q)) in Hrun by lia.
    eexists. split; [exact Hrun|]. simpl. split; [done|].
    rewrite list_lookup_insert_eq; [done|].
    rewrite length_insert. by eapply lookup_lt_Some.
Qed.

End ThreadFacts.

(** * The pool and its callers *)

Section PoolThreads.
Context {W handle : Type} `{!Sqlite3 W handle}.

(** Where the connections of the constructed pool are, after calls that
    release only what the caller holds. *)
Lemma connections_accounted dbFile poolSize (m : Memory W handle) self m' n ls s :
  ConnectionPool_ctor dbFile poolSize m = Some (self, m') →
  exec ls (start n self m') = Some s →
  disciplined ls (start n self m') = true →
  safe s ∧
  NoDup (m_connections (pool s) ++ checked_out s) ∧
  length (m_connections (pool s) ++ checked_out s)
    = successfully_opened_count dbFile poolSize m.
Proof.
  intros Hctor Hexec Hd.
  destruct (ConnectionPool_ctor_queue dbFile poolSize m self m' Hctor) as (Hnd & Hlen & _).
  pose proof (start_safe n self m') as Hs0.
  pose proof (accounted_exec _ ls _ s Hs0 (start_accounted n self m') Hd Hexec) as Hacc.
  unfold accounted in Hacc.
  split; [by eapply safe_exec|]. split.
  - by rewrite Hacc.
  - by rewrite Hacc.
Qed.

(** C1, as the code has it.  The pool is constructed and then used by any
    number of threads, scheduled in any order, each call of
    [releaseConnection] passing a connection its caller holds.  At every
    moment the connections in the queue and the connections in the hands
    of threads are together as many as opens succeeded at construction,
    and that is at most [poolSize]. *)
Theorem count_invariant dbFile poolSize (m : Memory W handle) self m' n ls s :
  ConnectionPool_ctor dbFile poolSize m = Some (self, m') →
  exec ls (start n self m') = Some s →
  disciplined ls (start n self m') = true →
  available_count (pool s) + checked_out_count s
    = successfully_opened_count dbFile poolSize m ∧
  successfully_opened_count dbFile poolSize m ≤ poolSize.
Proof.
  intros Hctor Hexec Hd.
  destruct (connections_accounted _ _ _ _ _ _ _ _ Hctor Hexec Hd) as (_ & _ & Hlen).
  destruct (ConnectionPool_ctor_queue dbFile poolSize m self m' Hctor) as (_ & _ & Hle).
  split; [|done].
  unfold available_count, checked_out_count. by rewrite <- length_app.
Qed.

(** C3.  [ConnectionPool(dbFile, poolSize)] returns, whatever the opens
    answer.  It calls [sqlite3_open] on [dbFile] exactly [poolSize] times,
    one after the other.  Afterwards the queue lists, in the order of the
    opens, one object per open that connected, each holding the handle of
    its open, at addresses that are new and pairwise different; the
    objects of the other opens are gone from the heap.  When no open
    connected the pool still exists: its queue is empty, the
    [getConnection] of a lone thread stays in its loop whatever is
    scheduled, and a connection released into the pool is handed out by
    the next [getConnection]. *)
Theorem ConnectionPool_ctor_spec dbFile poolSize (m : Memory W handle) :
  let tries := attempts poolSize (c_str dbFile) (sqlite (env m)) in
  ∃ self m' evs,
    ConnectionPool_ctor dbFile poolSize m = Some (self, m') ∧
    m_dbFile self = dbFile ∧ m_poolSize self = poolSize ∧
    length tries = poolSize ∧
    trace (env m') = trace (env m) ++ evs ∧
    opens evs = (λ r, (c_str dbFile, r.1, r.2)) <$> tries ∧
    (λ c, heap m' !! c) <$> m_connections self
      = (λ r, Some (mkConnection r.2)) <$> filter (λ r, connects r) tries ∧
    Forall (λ c, ∃ obj, heap m' !! c = Some obj ∧ isConnected obj = true)
      (m_connections self) ∧
    NoDup (m_connections self) ∧
    (∀ c, c ∈ m_connections self → heap m !! c = None) ∧
    dom (heap m') = dom (heap m) ∪ list_to_set (m_connections self) ∧
    (successfully_opened_count dbFile poolSize m = 0 →
     m_connections self = [] ∧
     getConnection self m' = WaitsForever ∧
     (∀ ls s', exec (call_getConnection 0 :: ls) (start 1 self m') = Some s' →
               waits_alone s') ∧
     ∀ c, ∃ m'', getConnection (releaseConnection c self m').1 (releaseConnection c self m').2
                 = Returned c self m'').
Proof.
  intros tries.
  destruct (ConnectionPool_ctor_result dbFile poolSize m) as (self & m' & Hrun & R).
  destruct R as [Rf Rs Rq (evs & Rtr & Rev) Robj Rnd Rnew Rdom Rold].
  cbn [m_dbFile m_poolSize m_connections] in *.
  exists self, m', evs.
  repeat match goal with |- _ ∧ _ => split end; try done.
  - apply attempts_length.
  - apply Forall_forall. intros c Hc.
    apply list_elem_of_lookup in Hc as [k Hk].
    apply (f_equal (λ l, l !! k)) in Robj.
    rewrite !list_lookup_fmap, Hk in Robj. cbn in Robj.
    destruct (filter _ _ !! k) as [r|] eqn:Hr; [|done].
    cbn in Robj. injection Robj as Hobj.
    exists (mkConnection r.2). split; [done|].
    apply list_elem_of_lookup_2, list_elem_of_filter in Hr as [Hr _].
    destruct r as [rc [h|]]; [done|].
    unfold connects in Hr. done.
  - intros Hzero.
    assert (m_connections self = []) as Hq.
    { apply (f_equal length) in Robj. rewrite !length_fmap in Robj.
      unfold successfully_opened_count, successfully_opened in Hzero.
      apply length_zero_iff_nil. fold tries in Robj. by rewrite Robj. }
    assert (getConnection self m' = WaitsForever) as Hwaits.
    { unfold getConnection. by rewrite Hq. }
    split; [done|]. split; [done|]. split.
    + intros ls s'. by apply solo_getConnection_waits.
    + intros c. eexists. unfold releaseConnection, getConnection. cbn.
      rewrite Hq. cbn. f_equal.
      destruct self as [f sz q]. cbn in *. by subst.
Qed.

Lemma held_in_hand th c : c ∈ held th → c ∈ in_hand th.
Proof. intros Hc. unfold in_hand. apply elem_of_app. by left. Qed.

(** C2, as the code has it.  Under the same conditions as for C1, no
    connection is held by two threads, none is held twice by one thread,
    and none is held while it is in the queue.  When a [getConnection]
    returns a connection to a thread, no other thread holds that
    connection at that moment. *)
Theorem no_two_holders dbFile poolSize (m : Memory W handle) self m' n ls s :
  ConnectionPool_ctor dbFile poolSize m = Some (self, m') →
  exec ls (start n self m') = Some s →
  disciplined ls (start n self m') = true →
  (∀ t1 t2 th1 th2 c,
     t1 ≠ t2 → threads s !! t1 = Some th1 → threads s !! t2 = Some th2 →
     c ∈ held th1 → c ∉ held th2) ∧
  (∀ t th, threads s !! t = Some th → NoDup (held th)) ∧
  (∀ t th c, threads s !! t = Some th → c ∈ held th → c ∉ m_connections (pool s)) ∧
  (∀ t2 c2 t1 th1,
     returning (next t2) s = Some (t2, c2) →
     t1 ≠ t2 → threads s !! t1 = Some th1 → c2 ∉ held th1).
Proof.
  intros Hctor Hexec Hd.
  destruct (connections_accounted _ _ _ _ _ _ _ _ Hctor Hexec Hd) as (Hs & Hnd & _).
  apply NoDup_app in Hnd as (Hq & Hdisj & Hco). unfold checked_out in *.
  split; [|split; [|split]].
  - intros t1 t2 th1 th2 c Hne H1 H2 Hc1 Hc2.
    apply (hands_two_threads (threads s) t1 t2 th1 th2 c); auto using held_in_hand.
  - intros t th Ht.
    destruct (hands_split (threads s) t th Ht) as (rest & Hold & _).
    rewrite Hold in Hco. apply NoDup_app in Hco as (Hin & _ & _).
    unfold in_hand in Hin. by apply NoDup_app in Hin as (? & _ & _).
  - intros t th c Ht Hc Hinq. apply (Hdisj c Hinq).
    unfold hands. apply list_elem_of_bind. exists th.
    split; [by apply held_in_hand|]. by eapply list_elem_of_lookup_2.
  - intros t2 c2 t1 th1 Hret Hne H1 Hc.
    simpl in Hret. destruct (threads s !! t2) as [th2|] eqn:H2; [|done]. simpl in Hret.
    destruct (at_pc th2) eqn:Hpc; try discriminate. injection Hret as ->.
    apply (hands_two_threads (threads s) t1 t2 th1 th2 c2); auto using held_in_hand.
    unfold in_hand. rewrite Hpc. apply elem_of_app. right. by apply list_elem_of_singleton.
Qed.

End PoolThreads.

(** * The program on the scripted SQLite *)


(** C1 as it is written fails: a thread that releases the connection it
    acquired, and releases it once more, leaves two entries in the queue
    of a pool that opened one connection. *)
Lemma count_invariant_needs_contract :
  ¬ @any_calls_keep_count Scripted.W nat Scripted.api.
Proof.
  intros Hinv.
  destruct (Hinv "test.db" 1 (Scripted.boot [])
              (Demo.built [] "test.db" 1).1 (Demo.built [] "test.db" 1).2 1
              Demo.released_twice
              (Demo.outcome Demo.released_twice (Demo.threads_on [] "test.db" 1 1)))
    as [Hcount _].
  - vm_compute. reflexivity.
  - vm_compute. reflexivity.
  - vm_compute in Hcount. discriminate.
Qed.

(** C2 as it is written fails, both halves.  On a pool of one connection,
    two calls of [getConnection] in progress at the same moment both
    return that connection when the first caller releases it before the
    second call returns; every release of that run passes a connection
    its caller holds.  And after a connection has been released twice, two
    threads acquire it and hold it together. *)
Lemma concurrent_acquires_counterexample :
  ¬ @concurrent_calls_return_distinct Scripted.W nat Scripted.api ∧
  ¬ @never_two_holders Scripted.W nat Scripted.api.
Proof.
  split.
  - intros Hdistinct.
    apply (Hdistinct "test.db" 1 (Scripted.boot [])
             (Demo.built [] "test.db" 1).1 (Demo.built [] "test.db" 1).2 2
             Demo.both_called Demo.one_after_the_other
             (Demo.outcome Demo.both_called (Demo.threads_on [] "test.db" 1 2))
             (Demo.outcome (Demo.both_called ++ Demo.one_after_the_other)
                (Demo.threads_on [] "test.db" 1 2))
             0 1 0 0).
    + vm_compute. reflexivity.
    + vm_compute. reflexivity.
    + lia.
    + eexists. split; [vm_compute; reflexivity|reflexivity].
    + eexists. split; [vm_compute; reflexivity|reflexivity].
    + vm_compute. reflexivity.
    + vm_compute. reflexivity.
    + vm_compute. reflexivity.
    + reflexivity.
  - intros Hholders.
    apply (Hholders "test.db" 1 (Scripted.boot [])
             (Demo.built [] "test.db" 1).1 (Demo.built [] "test.db" 1).2 2
             Demo.released_twice_acquired_twice
             (Demo.outcome Demo.released_twice_acquired_twice
                (Demo.threads_on [] "test.db" 1 2))
             0 1 (mkThread Outside [0]) (mkThread Outside [0]) 0).
    + vm_compute. reflexivity.
    + vm_compute. reflexivity.
    + lia.
    + vm_compute. reflexivity.
    + vm_compute. reflexivity.
    + simpl. apply list_elem_of_singleton. reflexivity.
    + simpl. apply list_elem_of_singleton. reflexivity.
Qed.

(** The run of the first half keeps the contract of [releaseConnection]. *)
Example one_after_the_other_disciplined :
  disciplined (Demo.both_called ++ Demo.one_after_the_other)
    (Demo.threads_on [] "test.db" 1 2) = true.
Proof. vm_compute. reflexivity. Qed.

(** ** The theorems at work *)

(** An open that fails leaves an object that stays disconnected through
    two statements. *)
Lemma handle_present_iff_connected_witness :
  let built := (SQLiteDBConnection_ctor "missing.db" (mkEnv (0, [14%Z]) [])).1 in
  m_db built = None ∧
  isConnected (executeQueries built ["SELECT 1;"; "bad"] Demo.fresh_env).1.2 = false.
Proof.
  intros built.
  destruct (handle_present_iff_connected (W := Scripted.W) Demo.connected)
    as (_ & _ & _ & Hfailed).
  destruct (Hfailed "missing.db" (mkEnv (0, [14%Z]) [])) as [Hnull Hstays].
  - vm_compute. lia.
  - split; [exact Hnull|]. apply Hstays.
Defined.

(** The object an open that failed leaves behind refuses a statement. *)
Lemma executeQuery_not_connected_witness :
  executeQuery (SQLiteDBConnection_ctor "missing.db" (mkEnv (0, [14%Z]) [])).1
    "SELECT 1;" Demo.fresh_env
  = (false, mkConnection None,
     mkEnv (0, []) [ev_cerr ("Not connected to database." +:+ endl)]).
Proof.
  exact (executeQuery_not_connected
           (SQLiteDBConnection_ctor "missing.db" (mkEnv (0, [14%Z]) [])).1
           "SELECT 1;" Demo.fresh_env eq_refl).
Defined.


(** Capacity 3 and three opens that fail: the pool is built, and empty. *)
Lemma ConnectionPool_ctor_spec_witness :
  ∃ self m',
    ConnectionPool_ctor "missing.db" 3 (Scripted.boot [14; 14; 14]%Z) = Some (self, m') ∧
    m_connections self = [] ∧
    getConnection self m' = WaitsForever.
Proof.
  destruct (ConnectionPool_ctor_spec "missing.db" 3 (Scripted.boot [14; 14; 14]%Z))
    as (self & m' & evs & Hctor & _ & _ & _ & _ & _ & _ & _ & _ & _ & _ & Hzero).
  exists self, m'. split; [exact Hctor|].
  destruct Hzero as (Hq & Hwaits & _ & _).
  - vm_compute. reflexivity.
  - split; [exact Hq|exact Hwaits].
Defined.

Lemma round_trips_restore_witness :
  ∃ self' m',
    round_trips 3 (Demo.built [] "test.db" 2).1 (Demo.built [] "test.db" 2).2
    = Some (self', m') ∧
    available_count self' = successfully_opened_count "test.db" 2 (Scripted.boot []) ∧
    m_connections self' ≡ₚ m_connections (Demo.built [] "test.db" 2).1.
Proof.
  apply (round_trips_restore 3 "test.db" 2 (Scripted.boot [])
           (Demo.built [] "test.db" 2).1 (Demo.built [] "test.db" 2).2).
  - vm_compute. reflexivity.
  - vm_compute. lia.
Defined.

(** Thread 0 holds connection 0 of a pool of two, its statement is
    rejected; thread 1 then gets connection 1 and connection 0. *)
Lemma failed_query_leaves_pool_witness :
  ∃ s1 s2,
    step (executeQuery_by 0 0 "bad") Demo.one_checked_out = Some s1 ∧
    pool s1 = pool Demo.one_checked_out ∧
    exec (releaseConnection_alone 0 0 ++ acquisitions 1 2) s1 = Some s2 ∧
    threads s2 !! 1 = Some (mkThread Outside [1; 0]).
Proof.
  destruct (failed_query_leaves_pool Demo.one_checked_out 0 (mkThread Outside [0]) 0 "bad"
              (Demo.after_query 0 "bad" (mem Demo.one_checked_out)))
    as (s1 & Hstep & Hpool & _ & _ & _ & Hagain).
  - vm_compute. reflexivity.
  - reflexivity.
  - vm_compute. reflexivity.
  - destruct (Hagain 1 (mkThread Outside [])) as (s2 & Hrun & _ & Hheld).
    + lia.
    + vm_compute. reflexivity.
    + reflexivity.
    + vm_compute. reflexivity.
    + vm_compute. reflexivity.
    + exists s1, s2. split; [exact Hstep|]. split; [exact Hpool|].
      split; [exact Hrun|exact Hheld].
Defined.

(** One thread on a pool of two connections acquires, releases a
    connection 7, and acquires twice: it gets 0, 1 and then 7. *)
Lemma available_set_is_fifo_witness :
  returns 0 (calls_alone 0 [acquire; release 7; acquire; acquire])
    (Demo.threads_on [] "test.db" 2 1) = [0; 1; 7].
Proof.
  destruct (available_set_is_fifo (Demo.threads_on [] "test.db" 2 1) 0 (mkThread Outside [])
              [acquire; release 7; acquire; acquire])
    as (_ & _ & s' & _ & Hret & _).
  - vm_compute. reflexivity.
  - reflexivity.
  - reflexivity.
  - vm_compute. reflexivity.
  - intros [|[|[|[|[|k]]]]]; vm_compute; lia.
  - rewrite Hret. vm_compute. reflexivity.
Defined.

Lemma count_invariant_witness :
  available_count (pool (Demo.outcome Demo.contended
                           (Demo.threads_on [0; 14; 0]%Z "test.db" 3 3)))
  + checked_out_count (Demo.outcome Demo.contended
                         (Demo.threads_on [0; 14; 0]%Z "test.db" 3 3))
  = successfully_opened_count "test.db" 3 (Scripted.boot [0; 14; 0]%Z) ∧
  successfully_opened_count "test.db" 3 (Scripted.boot [0; 14; 0]%Z) ≤ 3.
Proof.
  apply (count_invariant "test.db" 3 (Scripted.boot [0; 14; 0]%Z)
           (Demo.built [0; 14; 0]%Z "test.db" 3).1
           (Demo.built [0; 14; 0]%Z "test.db" 3).2 3 Demo.contended).
  - vm_compute. reflexivity.
  - vm_compute. reflexivity.
  - vm_compute. reflexivity.
Defined.

Lemma no_two_holders_witness :
  0 ∉ held (mkThread Outside [1]).
Proof.
  destruct (no_two_holders "test.db" 3 (Scripted.boot [0; 14; 0]%Z)
              (Demo.built [0; 14; 0]%Z "test.db" 3).1
              (Demo.built [0; 14; 0]%Z "test.db" 3).2 3 Demo.contended
              (Demo.outcome Demo.contended (Demo.threads_on [0; 14; 0]%Z "test.db" 3 3)))
    as (Hothers & _).
  - vm_compute. reflexivity.
  - vm_compute. reflexivity.
  - vm_compute. reflexivity.
  - apply (Hothers 2 1 (mkThread Outside [0]) (mkThread Outside [1]) 0).
    + lia.
    + vm_compute. reflexivity.
    + vm_compute. reflexivity.
    + simpl. apply list_elem_of_singleton. reflexivity.
Defined.

(** Three threads on two connections: thread 2, woken by the release of
    thread 0, is about to return connection 0; it took the test on the
    queue [0] three statements ago, and the queue is empty now. *)
Lemma getConnection_rechecks_empty_witness :
  ∃ q,
    past_test (Demo.threads_on [0; 14; 0]%Z "test.db" 3 3)
      (Demo.contended_past_loop ++ replicate 3 (next 2)) 2 3 0 q ∧
    m_connections
      (pool (Demo.outcome (Demo.contended_past_loop ++ replicate 3 (next 2))
               (Demo.threads_on [0; 14; 0]%Z "test.db" 3 3))) = q.
Proof.
  destruct (getConnection_rechecks_empty
              (Demo.threads_on [0; 14; 0]%Z "test.db" 3 3)
              (Demo.contended_past_loop ++ replicate 3 (next 2))
              (Demo.outcome (Demo.contended_past_loop ++ replicate 3 (next 2))
                 (Demo.threads_on [0; 14; 0]%Z "test.db" 3 3))
              eq_refl) with (t := 2) (th := mkThread (Get87 0) [])
    as (_ & _ & _ & _ & Hreturn & _).
  - vm_compute. repeat constructor.
  - vm_compute. reflexivity.
  - vm_compute. reflexivity.
  - apply Hreturn. reflexivity.
Defined.

(** * Teardown *)

Section TeardownFacts.
Context {W handle : Type} `{!Sqlite3 W handle}.

Lemma executeQuery_not_connected_env (this : SQLiteDBConnection handle) query
    (e : Env W handle) :
  isConnected this = false →
  executeQuery this query e
  = (false, this,
     mkEnv (sqlite e) (trace e ++ [ev_cerr ("Not connected to database." +:+ endl)])).
Proof. intros Hc. unfold executeQuery. by rewrite Hc. Qed.

Lemma closes_app (a b : list (Event handle)) : closes (a ++ b) = closes a ++ closes b.
Proof. unfold closes. apply omap_app. Qed.

Lemma execs_app (a b : list (Event handle)) : execs (a ++ b) = execs a ++ execs b.
Proof. unfold execs. apply omap_app. Qed.

Lemma last_copies_elem c queue : c ∈ last_copies queue ↔ c ∈ queue.
Proof.
  induction queue as [|x rest IH]; [done|].
  cbn [last_copies]. destruct (decide (x ∈ rest)) as [Hin|Hin].
  - rewrite IH, elem_of_cons. split; [tauto|]. intros [->|?]; done.
  - rewrite !elem_of_cons, IH. done.
Qed.

Lemma last_copies_NoDup queue : NoDup (last_copies queue).
Proof.
  induction queue as [|x rest IH]; [apply NoDup_nil_2|].
  cbn [last_copies]. destruct (decide (x ∈ rest)) as [Hin|Hin]; [done|].
  apply NoDup_cons. split; [|done]. by rewrite last_copies_elem.
Qed.

Lemma last_copies_id queue : NoDup queue → last_copies queue = queue.
Proof.
  induction 1 as [|x rest Hx Hnd IH]; [done|].
  cbn [last_copies]. rewrite decide_False by done. by rewrite IH.
Qed.

Lemma doomed_NoDup elsewhere queue : NoDup (doomed elsewhere queue).
Proof. apply NoDup_filter, last_copies_NoDup. Qed.

Lemma doomed_elem elsewhere queue c :
  c ∈ doomed elsewhere queue ↔ c ∈ queue ∧ c ∉ elsewhere.
Proof. unfold doomed. rewrite list_elem_of_filter, last_copies_elem. tauto. Qed.

Lemma doomed_unshared queue : NoDup queue → doomed [] queue = queue.
Proof.
  intros Hnd. unfold doomed. rewrite last_copies_id by done.
  induction queue as [|c queue IH]; [done|].
  apply NoDup_cons in Hnd as [_ Hnd].
  rewrite filter_cons_True by apply not_elem_of_nil. by rewrite IH.
Qed.

(** The events of closing do not depend on objects that are not closed. *)
Lemma close_events_delete (objects : gmap loc (SQLiteDBConnection handle)) c ptrs :
  c ∉ ptrs → close_events (delete c objects) ptrs = close_events objects ptrs.
Proof.
  intros Hc. unfold close_events. apply list_omap_ext.
  induction ptrs as [|p ptrs IH]; [constructor|].
  apply not_elem_of_cons in Hc as [Hne Hc].
  constructor; [|by apply IH].
  by rewrite lookup_delete_ne.
Qed.

Lemma destroy_spec c (m : Memory W handle) :
  trace (env (destroy c m)) = trace (env m) ++ close_events (heap m) [c] ∧
  sqlite (env (destroy c m))
    = foldl (λ w db, sqlite3_close db w) (sqlite (env m)) (closes (close_events (heap m) [c])) ∧
  heap (destroy c m) = delete c (heap m).
Proof.
  unfold destroy, close_events. cbn [omap list_omap].
  destruct (heap m !! c) as [obj|] eqn:Hobj; cbn [mbind option_bind].
  - unfold SQLiteDBConnection_dtor, isConnected.
    destruct (m_db obj) as [db|]; simpl; [done|]. by rewrite app_nil_r.
  - simpl. rewrite app_nil_r. split; [done|]. split; [done|].
    symmetry. by apply delete_id.
Qed.

Lemma shutdownPool_from_spec n elsewhere self (m : Memory W handle) :
  length (m_connections self) ≤ n →
  (shutdownPool_from n elsewhere self m).1 = mkPool (m_dbFile self) (m_poolSize self) [] ∧
  trace (env (shutdownPool_from n elsewhere self m).2)
    = trace (env m) ++ close_events (heap m) (doomed elsewhere (m_connections self)) ∧
  sqlite (env (shutdownPool_from n elsewhere self m).2)
    = foldl (λ w db, sqlite3_close db w) (sqlite (env m))
        (closes (close_events (heap m) (doomed elsewhere (m_connections self)))) ∧
  ∀ p, heap (shutdownPool_from n elsewhere self m).2 !! p
       = if decide (p ∈ doomed elsewhere (m_connections self)) then None else heap m !! p.
Proof.
  revert self m. induction n as [|n IH]; intros self m Hlen.
  - destruct self as [f sz q]. simpl in *. destruct q; [|simpl in Hlen; lia].
    simpl. rewrite app_nil_r. repeat split; try done.
  - destruct self as [f sz [|c rest]]; simpl in Hlen.
    { simpl. rewrite app_nil_r. repeat split; try done. }
    cbn [shutdownPool_from m_connections shutdownPool_body queue_pop m_dbFile m_poolSize tail].
    destruct (decide (c ∈ rest ++ elsewhere)) as [Hin|Hout].
    + assert (doomed elsewhere (c :: rest) = doomed elsewhere rest) as ->.
      { unfold doomed. cbn [last_copies]. destruct (decide (c ∈ rest)) as [|Hrest]; [done|].
        rewrite filter_cons_False; [done|].
        apply elem_of_app in Hin as [?|?]; [done|]. by intros ?. }
      apply (IH (mkPool f sz rest) m). simpl. lia.
    + apply not_elem_of_app in Hout as [Hrest Helse].
      assert (doomed elsewhere (c :: rest) = c :: doomed elsewhere rest) as Hd.
      { unfold doomed. cbn [last_copies]. rewrite decide_False by done.
        by rewrite filter_cons_True. }
      rewrite Hd.
      assert (c ∉ doomed elsewhere rest) as Hc.
      { rewrite doomed_elem. tauto. }
      destruct (destroy_spec c m) as (Htr & Hsq & Hheap).
      destruct (IH (mkPool f sz rest) (destroy c m)) as (Hq & Htr' & Hsq' & Hheap').
      { simpl. lia. }
      cbn [m_connections m_dbFile m_poolSize] in *.
      assert (close_events (heap m) (c :: doomed elsewhere rest)
              = close_events (heap m) [c] ++ close_events (heap m) (doomed elsewhere rest)) as Hev.
      { unfold close_events. change (c :: doomed elsewhere rest) with ([c] ++ doomed elsewhere rest).
        by rewrite omap_app. }
      rewrite Hheap, close_events_delete in Htr', Hsq' by done.
      change (queue_pop (mkPool f sz (c :: rest))) with (mkPool f sz rest).
      split; [done|]. split; [|split].
      * rewrite Htr', Htr, Hev. by rewrite app_assoc.
      * rewrite Hsq', Hsq, Hev, closes_app, foldl_app. done.
      * intros p. rewrite Hheap', Hheap.
        destruct (decide (p ∈ doomed elsewhere rest)) as [Hp|Hp].
        -- rewrite decide_True; [done|]. by apply elem_of_cons; right.
        -- destruct (decide (p = c)) as [->|Hne].
           ++ rewrite decide_True by (by apply elem_of_cons; left).
              apply lookup_delete_eq.
           ++ rewrite decide_False by (rewrite elem_of_cons; tauto).
              by apply lookup_delete_ne.
Qed.

(** X1.  [shutdownPool] empties the queue and writes nothing but closes.
    It destroys the objects of the queue that no [shared_ptr] outside the
    queue points to, each of them once even when the queue lists it more
    than once, and closes the handle of those that are connected, in the
    order of their last place in the queue.  Objects somebody else still
    points to are neither closed nor freed. *)
Theorem shutdownPool_closes_unshared elsewhere self (m : Memory W handle) :
  (shutdownPool elsewhere self m).1 = mkPool (m_dbFile self) (m_poolSize self) [] ∧
  trace (env (shutdownPool elsewhere self m).2)
    = trace (env m) ++ close_events (heap m) (doomed elsewhere (m_connections self)) ∧
  NoDup (doomed elsewhere (m_connections self)) ∧
  (∀ c, c ∈ doomed elsewhere (m_connections self) ↔ c ∈ m_connections self ∧ c ∉ elsewhere) ∧
  (∀ c, c ∈ m_connections self → c ∉ elsewhere →
        heap (shutdownPool elsewhere self m).2 !! c = None) ∧
  (∀ c, c ∈ elsewhere → heap (shutdownPool elsewhere self m).2 !! c = heap m !! c).
Proof.
  destruct (shutdownPool_from_spec (length (m_connections self)) elsewhere self m (le_n _))
    as (Hq & Htr & _ & Hheap).
  fold (shutdownPool elsewhere self m) in Hq, Htr, Hheap.
  split; [done|]. split; [done|]. split; [apply doomed_NoDup|].
  split; [intros c; apply doomed_elem|]. split.
  - intros c Hin Hout. rewrite Hheap. rewrite decide_True; [done|].
    by apply doomed_elem.
  - intros c Hin. rewrite Hheap. rewrite decide_False; [done|].
    rewrite doomed_elem. tauto.
Qed.

Lemma close_events_connected (objects : gmap loc (SQLiteDBConnection handle)) queue
    (rs : list (Z * option handle)) :
  (λ c, objects !! c) <$> queue = (λ r, Some (mkConnection r.2)) <$> rs →
  Forall (λ r, connects r) rs →
  close_events objects queue = (λ r, ev_close r.2) <$> rs.
Proof.
  revert rs. induction queue as [|c queue IH]; intros [|r rs] Heq Hall; try done.
  cbn [fmap list_fmap] in Heq. injection Heq as Hc Heq.
  apply Forall_cons in Hall as [Hr Hall].
  unfold close_events in *. cbn [omap list_omap fmap list_fmap].
  rewrite Hc. cbn [mbind option_bind].
  destruct r as [rc [h|]]; [|done]. cbn [isConnected m_db snd].
  f_equal. by apply IH.
Qed.

(** X2.  A pool that is destroyed right after its construction, with no
    connection handed out, closes exactly the handles its opens obtained:
    each successfully opened handle once, in the order of the opens, and
    nothing else happens; the objects it allocated are all gone. *)
Theorem ConnectionPool_ctor_dtor dbFile poolSize (m : Memory W handle) self m1 :
  ConnectionPool_ctor dbFile poolSize m = Some (self, m1) →
  m_connections (ConnectionPool_dtor [] self m1).1 = [] ∧
  trace (env (ConnectionPool_dtor [] self m1).2)
    = trace (env m1) ++ ((λ r, ev_close r.2) <$> successfully_opened dbFile poolSize m) ∧
  heap (ConnectionPool_dtor [] self m1).2 = heap m.
Proof.
  intros Hctor.
  destruct (ConnectionPool_ctor_result dbFile poolSize m) as (self0 & m0 & Hrun & R).
  rewrite Hctor in Hrun. injection Hrun as <- <-.
  destruct R as [Rf Rs Rq _ Robj Rnd Rnew Rdom Rold].
  cbn [m_dbFile m_poolSize m_connections] in *.
  unfold ConnectionPool_dtor.
  destruct (shutdownPool_from_spec (length (m_connections self)) [] self m1 (le_n _))
    as (Hq & Htr & _ & Hheap).
  fold (shutdownPool [] self m1) in Hq, Htr, Hheap.
  rewrite (doomed_unshared _ Rnd) in Htr, Hheap.
  split; [by rewrite Hq|]. split.
  - rewrite Htr. f_equal. apply close_events_connected; [exact Robj|].
    apply Forall_forall. intros r Hr. by apply list_elem_of_filter in Hr as [Hr _].
  - apply map_eq. intros p. rewrite Hheap.
    destruct (decide (p ∈ m_connections self)) as [Hin|Hout].
    + symmetry. by apply Rnew.
    + destruct (heap m !! p) as [obj|] eqn:Hp; [by apply Rold|].
      apply not_elem_of_dom. rewrite Rdom. apply not_elem_of_union. split.
      * by apply not_elem_of_dom.
      * by rewrite elem_of_list_to_set.
Qed.

(** What a sequence of statements on one object leaves in the trace. *)
Lemma executeQueries_trace (this : SQLiteDBConnection handle) queries (e : Env W handle) :
  ∃ evs,
    trace (executeQueries this queries e).2 = trace e ++ evs ∧
    opens evs = [] ∧ closes evs = [] ∧
    execs evs = (if isConnected this then (λ q, (m_db this, c_str q)) <$> queries else []) ∧
    (isConnected this = false →
     (executeQueries this queries e).1.1 = replicate (length queries) false ∧
     sqlite (executeQueries this queries e).2 = sqlite e).
Proof.
  revert e. induction queries as [|query rest IH]; intros e.
  - exists []. simpl. rewrite app_nil_r. by destruct (isConnected this).
  - cbn [executeQueries].
    pose proof (executeQuery_object this query e) as Hsame.
    destruct (isConnected this) eqn:Hc.
    + destruct (sqlite3_exec (m_db this) (c_str query) (sqlite e)) as [[rc errMsg] w] eqn:Hexec.
      pose proof (executeQuery_connected this query e rc errMsg w Hc Hexec) as Hq.
      destruct (executeQuery this query e) as [[ok this1] e1]. cbn in Hsame. subst this1.
      destruct (IH e1) as (evs & Htr & Hop & Hcl & Hex & _).
      destruct (executeQueries this rest e1) as [[oks this2] e2]. cbn [fst snd] in *.
      destruct (decide (rc = SQLITE_OK)); injection Hq as _ ->.
      * eexists ([_; _] ++ evs). cbn [trace] in *. rewrite Htr.
        split; [by rewrite <- app_assoc|].
        rewrite opens_app, closes_app, execs_app, Hop, Hcl, Hex. done.
      * eexists (_ ++ evs). cbn [trace] in *. rewrite Htr.
        split; [by rewrite <- app_assoc|].
        rewrite opens_app, closes_app, execs_app, Hop, Hcl, Hex.
        by destruct errMsg.
    + pose proof (executeQuery_not_connected_env this query e Hc) as Hq.
      destruct (executeQuery this query e) as [[ok this1] e1]. cbn in Hsame. subst this1.
      injection Hq as -> ->.
      destruct (IH (mkEnv (sqlite e) (trace e ++ [ev_cerr ("Not connected to database." +:+ endl)])))
        as (evs & Htr & Hop & Hcl & Hex & Hoks).
      destruct (executeQueries this rest _) as [[oks this2] e2]. cbn [fst snd] in *.
      eexists ([_] ++ evs). cbn [trace] in *. rewrite Htr.
      split; [by rewrite <- app_assoc|].
      rewrite opens_app, closes_app, execs_app, Hop, Hcl, Hex.
      destruct (Hoks eq_refl) as [-> ->]. done.
Qed.

(** X3.  One connection object from construction to destruction, with any
    statements in between, opens once.  When the open connected, every
    statement goes to [sqlite3_exec] on the handle of the open, in order,
    and the destructor closes that handle, once.  When it did not, no
    statement reaches SQLite, every [executeQuery] returns [false], and
    nothing is closed: a handle [sqlite3_open] stored next to its error
    code is dropped by the constructor and never given to
    [sqlite3_close]. *)
Theorem connection_lifetime dbFile queries (e : Env W handle) :
  let '(rc, db, _) := sqlite3_open (c_str dbFile) (sqlite e) in
  ∃ evs,
    trace (lifetime dbFile queries e).2 = trace e ++ evs ∧
    opens evs = [(c_str dbFile, rc, db)] ∧
    if connects (rc, db)
    then execs evs = (λ q, (db, c_str q)) <$> queries ∧ closes evs = [db]
    else execs evs = [] ∧ closes evs = [] ∧
         (lifetime dbFile queries e).1 = replicate (length queries) false.
Proof.
  unfold lifetime, SQLiteDBConnection_ctor.
  destruct (sqlite3_open (c_str dbFile) (sqlite e)) as [[rc db] w] eqn:Hopen.
  pose proof (isConnected_connects rc db) as Hconn.
  destruct (negb (rc =? SQLITE_OK)%Z) eqn:Hrc;
    match goal with
    | |- context [executeQueries ?obj queries ?e1] =>
        destruct (executeQueries_trace obj queries e1) as (evs & Htr & Hop & Hcl & Hex & Hoks);
        pose proof (executeQueries_object obj queries e1) as Hsame;
        destruct (executeQueries obj queries e1) as [[oks obj2] e2]
    end; cbn [fst snd] in *; subst obj2; rewrite Hconn in Hex.
  - cbn [isConnected m_db] in Hconn. rewrite <- Hconn in *.
    cbn [SQLiteDBConnection_dtor m_db].
    eexists ([_; _; _] ++ evs). rewrite Htr. cbn [trace emit].
    split; [by rewrite <- !app_assoc|].
    rewrite opens_app, closes_app, execs_app, Hop, Hcl, Hex.
    destruct (Hoks eq_refl) as [-> _]. done.
  - unfold SQLiteDBConnection_dtor. cbn [m_db].
    destruct (connects (rc, db)) eqn:Hc.
    + destruct db as [h|]; [|done].
      eexists ([_] ++ evs ++ [_]). cbn [trace emit]. rewrite Htr. cbn [trace emit].
      split; [by rewrite <- !app_assoc|].
      rewrite !opens_app, !closes_app, !execs_app, Hop, Hcl, Hex.
      cbn. by rewrite app_nil_r.
    + assert (db = None) as ->.
      { destruct db; [|done]. apply negb_false_iff in Hrc. cbn in Hc. congruence. }
      eexists ([_] ++ evs). rewrite Htr. cbn [trace emit].
      split; [by rewrite <- !app_assoc|].
      rewrite opens_app, closes_app, execs_app, Hop, Hcl, Hex.
      destruct (Hoks eq_refl) as [-> _]. done.
Qed.

End TeardownFacts.

(** * More on a caller alone on the pool *)

Section AloneFacts.
Context {W handle : Type} `{!Sqlite3 W handle}.

(** X4.  A sequence of calls by a lone caller runs to its end exactly
    when no call of [getConnection] finds the queue empty: at every point
    of the sequence, the acquires so far are at most the connections the
    queue had at the start plus the releases so far.  Otherwise the
    caller waits forever in the first acquire that goes beyond. *)
Theorem run_ops_returns_iff ops self (m : Memory W handle) :
  is_Some (run_ops ops self m) ↔
  ∀ k, acquires (take k ops) ≤ available_count self + length (released (take k ops)).
Proof.
  unfold available_count, acquires, released.
  revert self m. induction ops as [|[|c] ops IH]; intros self m.
  - split; [|by eexists]. intros _ k. rewrite take_nil. apply Nat.le_0_l.
  - cbn [run_ops]. destruct (m_connections self) as [|front rest] eqn:Hq.
    + rewrite (proj1 (getConnection_empty self m) Hq). split.
      * by intros [? ?].
      * intros Hk. specialize (Hk 1). cbn [take] in Hk. rewrite take_0 in Hk.
        rewrite filter_cons_True in Hk by done. cbn in Hk. lia.
    + rewrite (getConnection_front self m front rest Hq).
      specialize (IH (mkPool (m_dbFile self) (m_poolSize self) rest)
                    (cout ("get connection successful " +:+ newline +:+ endl) m)).
      cbn [m_connections] in IH.
      destruct (run_ops ops _ _) as [[[out self2] m2]|] eqn:Hrest; cbn [mbind option_bind].
      * split; [|by eexists]. intros _ [|k]; [rewrite take_0; apply Nat.le_0_l|].
        pose proof (proj1 IH (mk_is_Some _ _ eq_refl) k) as Hk.
        cbn [take]. rewrite filter_cons_True by done.
        cbn [omap list_omap length] in *. lia.
      * split; [by intros [? ?]|]. intros Hk.
        apply IH. intros k. specialize (Hk (S k)).
        cbn [take] in Hk. rewrite filter_cons_True in Hk by done.
        cbn [omap list_omap length] in *. lia.
  - cbn [run_ops releaseConnection].
    specialize (IH (queue_push c self) m). cbn [queue_push m_connections] in IH.
    rewrite length_app in IH. cbn [length] in IH. rewrite IH.
    split.
    + intros Hk [|k]; [rewrite take_0; apply Nat.le_0_l|]. specialize (Hk k).
      cbn [take]. rewrite filter_cons_False by done.
      cbn [omap list_omap length] in *. lia.
    + intros Hk k. specialize (Hk (S k)).
      cbn [take] in Hk. rewrite filter_cons_False in Hk by done.
      cbn [omap list_omap length] in *. lia.
Qed.

Lemma round_trips_rotate a b f sz (m : Memory W handle) :
  ∃ m', round_trips (length a) (mkPool f sz (a ++ b)) m = Some (mkPool f sz (b ++ a), m') ∧
        heap m' = heap m.
Proof.
  revert b m. induction a as [|c a IH]; intros b m.
  - exists m. by rewrite app_nil_r.
  - cbn [length round_trips].
    rewrite (getConnection_front _ m c (a ++ b)) by done.
    unfold releaseConnection, queue_push.
    cbn [m_dbFile m_poolSize m_connections].
    rewrite <- app_assoc.
    destruct (IH (b ++ [c]) (cout ("get connection successful " +:+ newline +:+ endl) m))
      as (m' & -> & Hheap).
    exists m'. split; [|done]. by rewrite <- app_assoc.
Qed.

(** X5.  [n] round trips of acquire and release by a lone caller rotate
    the queue by [n]: the first [n] connections have been handed out
    once each, in queue order, and are now at the back.  After as many
    round trips as the queue is long the pool is exactly as it was. *)
Theorem round_trips_rotate_queue n self (m : Memory W handle) :
  n ≤ available_count self →
  ∃ m',
    round_trips n self m
    = Some (mkPool (m_dbFile self) (m_poolSize self)
              (drop n (m_connections self) ++ take n (m_connections self)), m') ∧
    (n = available_count self →
     round_trips n self m = Some (self, m')).
Proof.
  unfold available_count. intros Hn. destruct self as [f sz q]. cbn [m_connections] in *.
  destruct (round_trips_rotate (take n q) (drop n q) f sz m) as (m' & Hrun & _).
  rewrite take_drop, length_take, Nat.min_l in Hrun by done.
  exists m'. split; [done|]. intros ->.
  by rewrite Hrun, drop_all, take_ge.
Qed.

End AloneFacts.

(** * More on threads *)

Section MoreThreadFacts.
Context {W handle : Type} `{!Sqlite3 W handle}.

Lemma step_heap (l : Label) (s s' : Shared W handle) :
  step l s = Some s' → heap (mem s') = heap (mem s).
Proof.
  intros Hstep.
  destruct l as [t|t c|t|t w|t|t c query]; simpl in Hstep;
    destruct (threads s !! t) as [th|] eqn:Ht; try discriminate; simpl in Hstep.
  - destruct (decide _); [|done]. by injection Hstep as <-.
  - destruct (decide _); [|done]. by injection Hstep as <-.
  - unfold statement, lock, goto, unlock, with_pool, with_mem in Hstep.
    destruct (at_pc th); try discriminate;
      repeat match type of Hstep with
             | context [match ?x with _ => _ end] => destruct x; try discriminate
             end;
      by injection Hstep as <-.
  - destruct (threads s !! w) as [tw|]; [|done]. simpl in Hstep.
    destruct (at_pc th); try discriminate.
    destruct (blocked tw); [|done]. by injection Hstep as <-.
  - destruct (blocked th); [|done]. by injection Hstep as <-.
  - destruct (decide _); [|done].
    destruct (call_executeQuery c query (mem s)) as [[ok m1]|] eqn:Hq; [|done].
    injection Hstep as <-. simpl. by eapply call_executeQuery_heap.
Qed.

Lemma exec_heap (ls : list Label) (s s' : Shared W handle) :
  exec ls s = Some s' → heap (mem s') = heap (mem s).
Proof.
  revert s. induction ls as [|l ls IH]; intros s Hexec.
  - by injection Hexec as <-.
  - cbn [exec] in Hexec. destruct (step l s) as [s1|] eqn:Hstep; [|done].
    rewrite (IH s1 Hexec). by eapply step_heap.
Qed.

(** ** The mutex and its owner *)

Lemma owned_update (s : Shared W handle) t th th1 (m1 : Memory W handle) p1 owner1 :
  owned s →
  threads s !! t = Some th →
  (owner1 = None ∨
   (owner1 = Some t ∧ in_critical (at_pc th1) = true) ∨
   (owner1 = m_mutex s ∧ (in_critical (at_pc th) = true → in_critical (at_pc th1) = true))) →
  owned (mkShared m1 p1 owner1 (<[t := th1]> (threads s))).
Proof.
  intros Ho Ht Hcase t0 Hm. simpl in *.
  pose proof (lookup_lt_Some _ _ _ Ht) as Hlt.
  destruct Hcase as [->|[[-> Hc]|[-> Hc]]]; [done| |].
  - injection Hm as <-. exists th1. by rewrite list_lookup_insert_eq.
  - destruct (Ho t0 Hm) as (th0 & Ht0 & Hc0).
    destruct (decide (t0 = t)) as [->|Hne].
    + exists th1. rewrite list_lookup_insert_eq by done. split; [done|].
      apply Hc. congruence.
    + exists th0. by rewrite list_lookup_insert_ne.
Qed.

Lemma owned_step (l : Label) (s s' : Shared W handle) :
  safe s → owned s → step l s = Some s' → owned s'.
Proof.
  intros Hs Ho Hstep.
  destruct l as [t|t c|t|t w|t|t c query]; simpl in Hstep;
    destruct (threads s !! t) as [th|] eqn:Ht; try discriminate; simpl in Hstep.
  - destruct (decide _) as [Hout|]; [|done]. injection Hstep as <-.
    apply (owned_update s t th); [done..|]. right; right. split; [done|].
    by rewrite Hout.
  - destruct (decide _) as [Hout|]; [|done]. injection Hstep as <-.
    apply (owned_update s t th); [done..|]. right; right. split; [done|].
    by rewrite Hout.
  - pose proof (Hs t th Ht) as [Hdef Hcrit].
    unfold statement, lock, goto, unlock, with_pool, with_mem in Hstep.
    destruct (at_pc th) eqn:Hpc; try discriminate;
      cbn [in_critical] in Hcrit;
      try (destruct (Hcrit eq_refl) as (Hown & Hfront & Hcopy));
      repeat match type of Hstep with
             | context [match ?x with _ => _ end] => destruct x eqn:?; try discriminate
             end;
      try (by destruct Hfront);
      try (by specialize (Hcopy _ (or_intror eq_refl)));
      injection Hstep as <-; simpl;
      apply (owned_update s t th); try done; simpl;
      first [ by left | by right; left | by right; right ].
  - destruct (threads s !! w) as [tw|] eqn:Hw; [|done]. simpl in Hstep.
    destruct (at_pc th) eqn:Hpc; try discriminate.
    destruct (blocked tw) eqn:Hb; [|done]. injection Hstep as <-.
    apply bool_decide_eq_true in Hb.
    assert (t ≠ w) as Hne by (intros ->; congruence).
    unfold goto at 1.
    apply (owned_update (goto w tw Get81_woken s) t th).
    + unfold goto. apply (owned_update s w tw); [done..|]. right; right.
      split; [done|]. by rewrite Hb.
    + unfold goto. simpl. rewrite list_lookup_insert_ne; [done|congruence].
    + right; right. done.
  - destruct (blocked th) eqn:Hb; [|done]. injection Hstep as <-.
    apply bool_decide_eq_true in Hb.
    apply (owned_update s t th); [done..|]. right; right. split; [done|].
    by rewrite Hb.
  - destruct (decide _); [|done].
    destruct (call_executeQuery c query (mem s)) as [[ok m1]|]; [|done].
    by injection Hstep as <-.
Qed.

Lemma owned_exec (ls : list Label) (s s' : Shared W handle) :
  safe s → owned s → exec ls s = Some s' → owned s'.
Proof.
  revert s. induction ls as [|l ls IH]; intros s Hs Ho Hexec.
  - by injection Hexec as <-.
  - cbn [exec] in Hexec. destruct (step l s) as [s1|] eqn:Hstep; [|done].
    eapply IH; [| |exact Hexec]; [by eapply safe_step|by eapply owned_step].
Qed.

(** X6.  Threads start in caller code on an unlocked pool and are
    scheduled in any order.  At every moment the mutex is owned by a
    thread exactly when that thread is between the lock and the unlock of
    [getConnection] or [releaseConnection]; so at most one thread is
    there, and whenever all threads are back in caller code the mutex is
    free: no call leaves it locked. *)
Theorem mutex_owned_in_critical_section (s0 : Shared W handle) (ls : list Label) s :
  m_mutex s0 = None →
  Forall (λ th, at_pc th = Outside) (threads s0) →
  exec ls s0 = Some s →
  (∀ t, m_mutex s = Some t ↔
        ∃ th, threads s !! t = Some th ∧ in_critical (at_pc th) = true) ∧
  (∀ t1 t2 th1 th2,
     threads s !! t1 = Some th1 → threads s !! t2 = Some th2 →
     in_critical (at_pc th1) = true → in_critical (at_pc th2) = true → t1 = t2) ∧
  (Forall (λ th, at_pc th = Outside) (threads s) → m_mutex s = None).
Proof.
  intros Hm Hall Hexec.
  pose proof (safe_exec ls s0 s (safe_initial s0 Hm Hall) Hexec) as Hs.
  assert (owned s0) as Ho0 by (intros t Ht; congruence).
  pose proof (owned_exec ls s0 s (safe_initial s0 Hm Hall) Ho0 Hexec) as Ho.
  assert (∀ t th, threads s !! t = Some th → in_critical (at_pc th) = true →
                  m_mutex s = Some t) as Hcrit.
  { intros t th Ht Hc. by destruct (Hs t th Ht) as [_ [? _]]. }
  split; [|split].
  - intros t. split; [apply Ho|]. intros (th & Ht & Hc). by eapply Hcrit.
  - intros t1 t2 th1 th2 H1 H2 Hc1 Hc2.
    pose proof (Hcrit t1 th1 H1 Hc1). pose proof (Hcrit t2 th2 H2 Hc2). congruence.
  - intros Hout. destruct (m_mutex s) as [t|] eqn:Hown; [|done].
    destruct (Ho t Hown) as (th & Ht & Hc).
    rewrite Forall_forall in Hout.
    rewrite (Hout th) in Hc; [done|]. by eapply list_elem_of_lookup_2.
Qed.

(** ** No wake-up is lost *)

Lemma pending_split (ths : list Thread) t th :
  ths !! t = Some th →
  ∃ rest,
    pending ths = (if on_the_way (at_pc th) then 1 else 0) + rest ∧
    ∀ th1, pending (<[t := th1]> ths) = (if on_the_way (at_pc th1) then 1 else 0) + rest.
Proof.
  intros Ht. exists (pending (take t ths) + pending (drop (S t) ths)).
  pose proof (lookup_lt_Some _ _ _ Ht) as Hlt. unfold pending. split.
  - rewrite <- (take_drop_middle ths t th Ht) at 1.
    rewrite sum_list_with_app. simpl. lia.
  - intros th1. rewrite insert_take_drop by done.
    rewrite sum_list_with_app. simpl. lia.
Qed.

Lemma blocked_insert (ths : list Thread) t th1 :
  (∃ t' th', <[t := th1]> ths !! t' = Some th' ∧ at_pc th' = Get81_blocked) →
  at_pc th1 = Get81_blocked ∨ ∃ t' th', ths !! t' = Some th' ∧ at_pc th' = Get81_blocked.
Proof.
  intros (t' & th' & Hlook & Hb).
  apply list_lookup_insert_Some in Hlook as [(<- & <- & _)|(Hne & Hlook)]; [by left|].
  right. by exists t', th'.
Qed.

Lemma some_blocked_update (s : Shared W handle) t th1 (m1 : Memory W handle) p1 owner1 :
  some_blocked (mkShared m1 p1 owner1 (<[t := th1]> (threads s))) →
  at_pc th1 = Get81_blocked ∨ some_blocked s.
Proof. apply blocked_insert. Qed.

(** Thread [t] moves to [th1], the queue becomes that of [p1]: no wake-up
    is lost when the queue does not grow by more than the thread gains on
    its way, and is empty when the thread goes to sleep. *)
Lemma no_lost_wakeup_update (s : Shared W handle) t th th1 (m1 : Memory W handle) p1 owner1 :
  no_lost_wakeup s →
  threads s !! t = Some th →
  m_connections p1 = [] ∨
  (at_pc th1 ≠ Get81_blocked ∧
   length (m_connections p1) + (if on_the_way (at_pc th) then 1 else 0)
     ≤ length (m_connections (pool s)) + (if on_the_way (at_pc th1) then 1 else 0)) →
  no_lost_wakeup (mkShared m1 p1 owner1 (<[t := th1]> (threads s))).
Proof.
  intros Hinv Ht [Hempty|[Hth1 Hmove]] Hb; cbn [pool threads].
  { rewrite Hempty. cbn. lia. }
  apply some_blocked_update in Hb as [?|Hb]; [done|].
  specialize (Hinv Hb).
  destruct (pending_split (threads s) t th Ht) as (rest & Hold & Hnew).
  rewrite Hnew. lia.
Qed.

Lemma not_blocked_all (s : Shared W handle) :
  forallb (λ th, negb (blocked th)) (threads s) = true → ¬ some_blocked s.
Proof.
  intros Hall (t & th & Ht & Hb).
  apply Is_true_true, forallb_True in Hall. rewrite Forall_forall in Hall.
  specialize (Hall th (list_elem_of_lookup_2 _ _ _ Ht)).
  unfold blocked in Hall. by rewrite bool_decide_eq_true_2 in Hall.
Qed.

Lemma no_lost_wakeup_step (l : Label) (s s' : Shared W handle) :
  no_lost_wakeup s → step l s = Some s' → no_lost_wakeup s'.
Proof.
  intros Hinv Hstep.
  destruct l as [t|t c|t|t w|t|t c query]; simpl in Hstep;
    destruct (threads s !! t) as [th|] eqn:Ht; try discriminate; simpl in Hstep.
  - destruct (decide _) as [Hout|]; [|done]. injection Hstep as <-.
    apply (no_lost_wakeup_update s t th); [done..|]; simpl; right; split; [done|].
    rewrite Hout. simpl. lia.
  - destruct (decide _) as [Hout|]; [|done]. injection Hstep as <-.
    apply (no_lost_wakeup_update s t th); [done..|]; simpl; right; split; [done|].
    rewrite Hout. simpl. lia.
  - unfold statement, lock, goto, unlock, with_pool, with_mem in Hstep.
    destruct (at_pc th) eqn:Hpc; try discriminate.
    + destruct (m_mutex s); [done|]. injection Hstep as <-.
      apply (no_lost_wakeup_update s t th); [done..|]; simpl; right; split; [done|].
      rewrite Hpc. simpl. lia.
    + destruct (m_connections (pool s)) as [|c q] eqn:Hq; injection Hstep as <-; simpl;
        apply (no_lost_wakeup_update s t th); try done; simpl.
      * by left.
      * right. split; [done|]. rewrite Hpc, Hq. simpl. lia.
    + destruct (m_mutex s); [done|]. injection Hstep as <-.
      apply (no_lost_wakeup_update s t th); [done..|]; simpl; right; split; [done|].
      rewrite Hpc. simpl. lia.
    + destruct (m_connections (pool s)) as [|c q] eqn:Hq; injection Hstep as <-;
        apply (no_lost_wakeup_update s t th); try done; simpl.
      * by left.
      * right. split; [done|]. rewrite Hpc, Hq. simpl. lia.
    + injection Hstep as <-. simpl.
      apply (no_lost_wakeup_update s t th); [done..|]; simpl; right; split; [done|].
      rewrite Hpc. simpl. lia.
    + destruct (m_connections (pool s)) as [|c q] eqn:Hq; injection Hstep as <-; simpl;
        apply (no_lost_wakeup_update s t th); try done; simpl.
      * by left.
      * right. split; [done|]. rewrite Hpc, Hq. simpl. lia.
    + injection Hstep as <-.
      apply (no_lost_wakeup_update s t th); [done..|]; simpl; right; split; [done|].
      rewrite Hpc. simpl. lia.
    + destruct (m_mutex s); [done|]. injection Hstep as <-.
      apply (no_lost_wakeup_update s t th); [done..|]; simpl; right; split; [done|].
      rewrite Hpc. simpl. lia.
    + injection Hstep as <-. simpl.
      apply (no_lost_wakeup_update s t th); [done..|]; simpl; right; split; [done|].
      rewrite Hpc, length_app. simpl. lia.
    + destruct (forallb _ _) eqn:Hnb; [|done]. injection Hstep as <-.
      intros Hb. apply some_blocked_update in Hb as [?|Hb]; [done|].
      by apply not_blocked_all in Hnb.
    + injection Hstep as <-. simpl.
      apply (no_lost_wakeup_update s t th); [done..|]; simpl; right; split; [done|].
      rewrite Hpc. simpl. lia.
  - destruct (threads s !! w) as [tw|] eqn:Hw; [|done]. simpl in Hstep.
    destruct (at_pc th) eqn:Hpc; try discriminate.
    destruct (blocked tw) eqn:Hb; [|done]. injection Hstep as <-.
    apply bool_decide_eq_true in Hb.
    assert (t ≠ w) as Hne by (intros ->; congruence).
    intros Hsome. unfold goto in Hsome |- *. simpl in Hsome |- *.
    unfold some_blocked in Hsome. simpl in Hsome.
    apply blocked_insert in Hsome as [?|Hsome]; [done|].
    apply blocked_insert in Hsome as [?|Hsome]; [done|].
    specialize (Hinv Hsome).
    destruct (pending_split (threads s) w tw Hw) as (rest & Hold & Hnew).
    assert (<[w := mkThread Get81_woken (held tw)]> (threads s) !! t = Some th) as Ht'.
    { rewrite list_lookup_insert_ne; [done|congruence]. }
    destruct (pending_split _ t th Ht') as (rest' & Hold' & Hnew').
    rewrite Hnew'. rewrite Hnew in Hold'. simpl in *. rewrite Hpc, Hb in *. simpl in *. lia.
  - destruct (blocked th) eqn:Hb; [|done]. injection Hstep as <-.
    apply bool_decide_eq_true in Hb.
    apply (no_lost_wakeup_update s t th); [done..|]; simpl; right; split; [done|].
    rewrite Hb. simpl. lia.
  - destruct (decide _); [|done].
    destruct (call_executeQuery c query (mem s)) as [[ok m1]|]; [|done].
    by injection Hstep as <-.
Qed.

Lemma no_lost_wakeup_exec (ls : list Label) (s s' : Shared W handle) :
  no_lost_wakeup s → exec ls s = Some s' → no_lost_wakeup s'.
Proof.
  revert s. induction ls as [|l ls IH]; intros s Hinv Hexec.
  - by injection Hexec as <-.
  - cbn [exec] in Hexec. destruct (step l s) as [s1|] eqn:Hstep; [|done].
    eapply IH; [|exact Hexec]. by eapply no_lost_wakeup_step.
Qed.

Lemma no_lost_wakeup_initial (s : Shared W handle) :
  Forall (λ th, at_pc th = Outside) (threads s) → no_lost_wakeup s.
Proof.
  intros Hall (t & th & Ht & Hb). rewrite Forall_forall in Hall.
  rewrite (Hall th) in Hb; [done|]. by eapply list_elem_of_lookup_2.
Qed.

Lemma pending_zero (ths : list Thread) :
  (∀ t th, ths !! t = Some th → on_the_way (at_pc th) = false) → pending ths = 0.
Proof.
  unfold pending. induction ths as [|th ths IH]; intros Hall; [done|].
  simpl. rewrite (Hall 0 th eq_refl). simpl. apply IH.
  intros t th' Ht. by apply (Hall (S t)).
Qed.

(** X7.  Threads start in caller code and are scheduled in any order,
    with any calls.  Whenever a thread sleeps in [wait], the queue holds
    no more connections than there are threads on their way: woken and
    not yet back at the test, at the test, between the test and the
    [pop()], or between the [push] and the [notify_one].  So no thread is left
    sleeping next to an available connection: when some thread sleeps and
    nobody is on the way, the queue is empty. *)
Theorem no_wakeup_is_lost (s0 : Shared W handle) (ls : list Label) s :
  Forall (λ th, at_pc th = Outside) (threads s0) →
  exec ls s0 = Some s →
  some_blocked s →
  available_count (pool s) ≤ pending (threads s) ∧
  ((∀ t th, threads s !! t = Some th → on_the_way (at_pc th) = false) →
   m_connections (pool s) = []).
Proof.
  intros Hall Hexec Hb.
  pose proof (no_lost_wakeup_exec ls s0 s (no_lost_wakeup_initial s0 Hall) Hexec Hb) as Hle.
  split; [done|]. intros Hnone.
  rewrite (pending_zero _ Hnone) in Hle.
  apply length_zero_iff_nil. lia.
Qed.

End MoreThreadFacts.

(** * More on the pool and its callers *)

Section MorePoolThreads.
Context {W handle : Type} `{!Sqlite3 W handle}.

Lemma ctor_objects_connected dbFile poolSize (m : Memory W handle) self m' :
  ConnectionPool_ctor dbFile poolSize m = Some (self, m') →
  ∀ c, c ∈ m_connections self →
       ∃ obj, heap m' !! c = Some obj ∧ isConnected obj = true.
Proof.
  intros Hctor c Hc.
  destruct (ConnectionPool_ctor_result dbFile poolSize m) as (self0 & m0 & Hrun & R).
  rewrite Hctor in Hrun. injection Hrun as <- <-.
  pose proof (loop_objects _ _ _ _ _ _ R) as Robj.
  apply list_elem_of_lookup in Hc as [k Hk].
  apply (f_equal (λ l, l !! k)) in Robj.
  rewrite !list_lookup_fmap, Hk in Robj. cbn in Robj.
  destruct (filter _ _ !! k) as [r|] eqn:Hr; [|done].
  cbn in Robj. injection Robj as Hobj.
  exists (mkConnection r.2). split; [done|].
  apply list_elem_of_lookup_2, list_elem_of_filter in Hr as [Hr _].
  destruct r as [rc [h|]]; [done|]. unfold connects in Hr. done.
Qed.

(** X8.  The pool is constructed and then used by any number of threads,
    scheduled in any order, each release passing a connection its caller
    holds.  Then every connection [getConnection] returns, and every
    connection a thread holds, is one of the objects the constructor
    queued: it exists and it is connected.  A caller never receives a
    null, dangling or disconnected connection. *)
Theorem getConnection_returns_connected dbFile poolSize (m : Memory W handle) self m' n ls s :
  ConnectionPool_ctor dbFile poolSize m = Some (self, m') →
  exec ls (start n self m') = Some s →
  disciplined ls (start n self m') = true →
  ∀ t th c,
    threads s !! t = Some th →
    c ∈ held th ∨ at_pc th = Get87 c →
    c ∈ m_connections self ∧
    ∃ obj, heap (mem s) !! c = Some obj ∧ isConnected obj = true.
Proof.
  intros Hctor Hexec Hd t th c Ht Hc.
  pose proof (accounted_exec _ ls _ s (start_safe n self m') (start_accounted n self m')
                Hd Hexec) as Hacc.
  assert (c ∈ m_connections self) as Hin.
  { unfold accounted in Hacc. rewrite <- Hacc. apply elem_of_app. right.
    unfold checked_out, hands. apply list_elem_of_bind. exists th.
    split; [|by eapply list_elem_of_lookup_2].
    unfold in_hand. apply elem_of_app. destruct Hc as [Hc|Hc]; [by left|right].
    rewrite Hc. by apply list_elem_of_singleton. }
  split; [done|].
  rewrite (exec_heap ls _ s Hexec). simpl.
  by eapply ctor_objects_connected.
Qed.

Lemma all_waiting_step (l : Label) (s s' : Shared W handle) :
  all_waiting s → releases_held l s = true → step l s = Some s' → all_waiting s'.
Proof.
  intros [Hq Hall] Hrel Hstep.
  assert (∀ t th th1 (m1 : Memory W handle) owner1,
            threads s !! t = Some th →
            held th1 = [] →
            at_pc th1 = Outside ∨ in_loop (at_pc th1) = true →
            all_waiting (mkShared m1 (pool s) owner1 (<[t := th1]> (threads s)))) as Hupd.
  { intros t th th1 m1 owner1 Ht Hh Hpc. split; [done|].
    intros t' th' Hlook. simpl in Hlook.
    apply list_lookup_insert_Some in Hlook as [(<- & <- & _)|(Hne & Hlook)]; [done|].
    by apply (Hall t'). }
  destruct l as [t|t c|t|t w|t|t c query]; simpl in Hstep, Hrel;
    destruct (threads s !! t) as [th|] eqn:Ht; try discriminate; simpl in Hstep;
    destruct (Hall t th Ht) as [Hheld Hpc].
  - destruct (decide _) as [Hout|]; [|done]. injection Hstep as <-.
    apply (Hupd t th); [done|done|by right].
  - apply bool_decide_eq_true in Hrel. rewrite Hheld in Hrel.
    by apply elem_of_nil in Hrel.
  - unfold statement, lock, goto, unlock, with_pool, with_mem in Hstep.
    rewrite Hq in Hstep.
    destruct (at_pc th) eqn:Hat; try discriminate;
      try (by destruct Hpc as [?|?]).
    + destruct (m_mutex s); [done|]. injection Hstep as <-.
      apply (Hupd t th); [done|done|by right].
    + injection Hstep as <-. apply (Hupd t th); [done|done|by right].
    + destruct (m_mutex s); [done|]. injection Hstep as <-.
      apply (Hupd t th); [done|done|by right].
  - destruct (threads s !! w) as [tw|]; [|done]. simpl in Hstep.
    destruct (at_pc th) eqn:Hat; try discriminate. by destruct Hpc as [?|?].
  - destruct (blocked th); [|done]. injection Hstep as <-.
    apply (Hupd t th); [done|done|by right].
  - destruct (decide _); [|done].
    destruct (call_executeQuery c query (mem s)) as [[ok m1]|]; [|done].
    injection Hstep as <-. done.
Qed.

Lemma all_waiting_exec (ls : list Label) (s s' : Shared W handle) :
  all_waiting s → disciplined ls s = true → exec ls s = Some s' → all_waiting s'.
Proof.
  revert s. induction ls as [|l ls IH]; intros s Hw Hd Hexec.
  - by injection Hexec as <-.
  - cbn [exec disciplined] in Hexec, Hd.
    destruct (step l s) as [s1|] eqn:Hstep; [|done].
    apply andb_true_iff in Hd as [Hrel Hd].
    eapply IH; [|exact Hd|exact Hexec]. by eapply all_waiting_step.
Qed.

(** X9.  A pool none of whose opens connected never hands out anything,
    to any number of threads, as long as no thread passes
    [releaseConnection] a connection it does not hold: whatever is
    scheduled, every thread that called [getConnection] is still in its
    loop, nobody holds a connection, and the queue is empty.  (A thread
    that passes [releaseConnection] some other pointer puts it in the
    queue, and the next [getConnection] returns it.) *)
Theorem empty_pool_blocks_everyone dbFile poolSize (m : Memory W handle) self m' n ls s :
  ConnectionPool_ctor dbFile poolSize m = Some (self, m') →
  successfully_opened_count dbFile poolSize m = 0 →
  exec ls (start n self m') = Some s →
  disciplined ls (start n self m') = true →
  m_connections (pool s) = [] ∧
  ∀ t th, threads s !! t = Some th →
          held th = [] ∧ (at_pc th = Outside ∨ in_loop (at_pc th) = true).
Proof.
  intros Hctor Hzero Hexec Hd.
  destruct (ConnectionPool_ctor_queue dbFile poolSize m self m' Hctor) as (_ & Hlen & _).
  apply (all_waiting_exec ls (start n self m') s); [|done..].
  split.
  - simpl. apply length_zero_iff_nil. lia.
  - intros t th Ht. simpl in Ht. apply lookup_replicate in Ht as [-> _]. by split; [|left].
Qed.

End MorePoolThreads.

(** * [worker] *)

Section WorkerFacts.
Context {W handle : Type} `{!Sqlite3 W handle}.

(** A thread that is woken while its worker waits inside [getConnection]
    stays linked to it. *)
Lemma linked_at_frame w th th' :
  linked_at w th →
  th' = th ∨ (at_pc th = Get81_blocked ∧ th' = mkThread Get81_woken (held th)) →
  linked_at w th'.
Proof.
  intros Hl [->|[Hb ->]]; [done|].
  unfold linked_at in *. rewrite Hb in Hl.
  destruct (line w); simpl in *; try (destruct Hl as [? ?]; done).
  destruct Hl as [[?|[?|[?|?]]] ?]; done.
Qed.

(** After a step of thread [t] for worker [t]: every other worker is
    still linked to its thread. *)
Lemma linked_step (r : Running W handle) l s1 t w1 th1 wm :
  linked r →
  step l (shared r) = Some s1 →
  actor l = t →
  threads s1 !! t = Some th1 →
  linked_at w1 th1 →
  linked (mkRunning s1 wm (<[t := w1]> (workers r))).
Proof.
  intros [Hlen Hl] Hstep Hact Ht1 Hnew. split.
  { simpl. rewrite length_insert, Hlen. symmetry. by eapply step_length. }
  intros t' w' th' Hw' Hth'. simpl in *.
  apply list_lookup_insert_Some in Hw' as [(<- & <- & _)|(Hne & Hw')].
  - congruence.
  - assert (is_Some (threads (shared r) !! t')) as [th0 Hth0].
    { apply lookup_lt_is_Some. rewrite <- (step_length l _ _ Hstep).
      by eapply lookup_lt_Some. }
    apply (linked_at_frame w' th0); [by eapply Hl|].
    eapply step_frame_thread; [exact Hstep|done|done|congruence].
Qed.

(** The step of a worker is a step of its thread, or leaves the threads
    and the pool alone; a release passes the connection the thread
    holds. *)
Lemma turn_step_shared (c : Turn) (r r' : Running W handle) :
  linked r →
  turn_step c r = Some r' →
  shared r' = shared r ∨
  ∃ l, step l (shared r) = Some (shared r') ∧ releases_held l (shared r) = true.
Proof.
  intros [Hlen Hl] Hturn.
  destruct c as [t|t w'|t]; unfold turn_step in Hturn;
    destruct (workers r !! t) as [w|] eqn:Hw; try discriminate;
    cbn [mbind option_bind] in Hturn.
  - unfold worker_step, move in Hturn.
    destruct (line w) as [| |c|c|c|c|c|c|] eqn:Hline; try discriminate.
    + destruct (step _ _) as [s|] eqn:Hstep; [|done]. injection Hturn as <-.
      right. by eexists.
    + destruct (step _ _) as [s|] eqn:Hstep; [|done].
      cbn [mbind option_bind] in Hturn.
      right. exists (next t). split; [|done].
      destruct (returning _ _) as [[? ?]|]; by injection Hturn as <-.
    + injection Hturn as <-. by left.
    + destruct (writeMutex r); [done|]. injection Hturn as <-. by left.
    + destruct (step _ _) as [s|] eqn:Hstep; [|done]. injection Hturn as <-.
      right. by eexists.
    + injection Hturn as <-. by left.
    + destruct (step _ _) as [s|] eqn:Hstep; [|done]. injection Hturn as <-.
      right. eexists. split; [exact Hstep|]. simpl.
      destruct (threads (shared r) !! t) as [th|] eqn:Ht; [|done].
      specialize (Hl t w th Hw Ht). unfold linked_at in Hl. rewrite Hline in Hl.
      destruct Hl as [_ ->]. apply bool_decide_eq_true. by apply list_elem_of_singleton.
    + destruct (step _ _) as [s|] eqn:Hstep; [|done].
      cbn [mbind option_bind] in Hturn.
      destruct (threads s !! t) as [th|]; [|done].
      cbn [mbind option_bind] in Hturn.
      right. exists (next t). split; [|done].
      destruct (decide _); by injection Hturn as <-.
  - destruct (step _ _) as [s|] eqn:Hstep; [|done]. injection Hturn as <-.
    right. by eexists.
  - destruct (step _ _) as [s|] eqn:Hstep; [|done]. injection Hturn as <-.
    right. by eexists.
Qed.

Lemma linked_line (r : Running W handle) t w w1 wm :
  linked r →
  workers r !! t = Some w →
  (∀ th, linked_at w th → linked_at w1 th) →
  linked (mkRunning (shared r) wm (<[t := w1]> (workers r))).
Proof.
  intros [Hlen Hl] Hw Himp. split; [simpl; by rewrite length_insert|].
  intros t' w' th' Hw' Hth'. simpl in *.
  apply list_lookup_insert_Some in Hw' as [(<- & <- & _)|(Hne & Hw')].
  - apply Himp. by eapply Hl.
  - by eapply Hl.
Qed.

(** Worker and thread stay in agreement. *)
Lemma linked_turn (c : Turn) (r r' : Running W handle) :
  linked r → safe (shared r) → turn_step c r = Some r' → linked r'.
Proof.
  intros Hlk Hs Hturn. pose proof Hlk as [Hlen Hl].
  destruct c as [t|t w'|t]; unfold turn_step in Hturn;
    destruct (workers r !! t) as [w|] eqn:Hw; try discriminate;
    cbn [mbind option_bind] in Hturn;
    (assert (is_Some (threads (shared r) !! t)) as [th Ht]
       by (apply lookup_lt_is_Some; rewrite <- Hlen; by eapply lookup_lt_Some));
    pose proof (Hl t w th Hw Ht) as Hat;
    pose proof (lookup_lt_Some _ _ _ Ht) as Hlt.
  - unfold worker_step, move in Hturn. unfold linked_at in Hat.
    destruct (line w) as [| |c|c|c|c|c|c|] eqn:Hline; try discriminate.
    + destruct Hat as [Hout Hheld].
      destruct (step _ _) as [s|] eqn:Hstep; [|done]. injection Hturn as <-.
      pose proof Hstep as Hstep0. simpl in Hstep. rewrite Ht in Hstep. simpl in Hstep.
      destruct (decide _); [|done]. injection Hstep as <-.
      eapply linked_step; [done|exact Hstep0|done|simpl; by apply list_lookup_insert_eq|].
      unfold linked_at. simpl. done.
    + destruct Hat as [Hin Hheld].
      destruct (step _ _) as [s|] eqn:Hstep; [|done].
      cbn [mbind option_bind] in Hturn.
      unfold returning in Hturn. rewrite Ht in Hturn. cbn [mbind option_bind] in Hturn.
      pose proof Hstep as Hstep0. simpl in Hstep. rewrite Ht in Hstep. simpl in Hstep.
      pose proof (Hs t th Ht) as [Hdef Hcrit].
      unfold statement, lock, goto, unlock, with_pool, with_mem in Hstep.
      destruct (at_pc th) eqn:Hpc; try discriminate;
        cbn [in_critical] in Hcrit;
        try (destruct (Hcrit eq_refl) as (Hown & Hfront & Hcopy));
        repeat match type of Hstep with
               | context [match ?x with _ => _ end] => destruct x eqn:?; try discriminate
               end;
        try (by destruct Hfront);
        try (by specialize (Hcopy _ (or_intror eq_refl)));
        injection Hstep as <-; injection Hturn as <-;
        (eapply linked_step;
         [done|exact Hstep0|done|simpl; by apply list_lookup_insert_eq|]);
        unfold linked_at; simpl; rewrite ?Hheld; done.
    + injection Hturn as <-. eapply linked_line; [done..|].
      intros th0. unfold linked_at. rewrite Hline. done.
    + destruct (writeMutex r); [done|]. injection Hturn as <-.
      eapply linked_line; [done..|].
      intros th0. unfold linked_at. rewrite Hline. done.
    + destruct Hat as [Hout Hheld].
      destruct (step _ _) as [s|] eqn:Hstep; [|done]. injection Hturn as <-.
      pose proof Hstep as Hstep0. simpl in Hstep. rewrite Ht in Hstep. simpl in Hstep.
      destruct (decide _); [|done].
      destruct (call_executeQuery _ _ _) as [[ok m1]|]; [|done]. injection Hstep as <-.
      eapply linked_step; [done|exact Hstep0|done|simpl; exact Ht|].
      unfold linked_at. simpl. done.
    + injection Hturn as <-. eapply linked_line; [done..|].
      intros th0. unfold linked_at. rewrite Hline. done.
    + destruct Hat as [Hout Hheld].
      destruct (step _ _) as [s|] eqn:Hstep; [|done]. injection Hturn as <-.
      pose proof Hstep as Hstep0. simpl in Hstep. rewrite Ht in Hstep. simpl in Hstep.
      destruct (decide _); [|done]. injection Hstep as <-.
      eapply linked_step; [done|exact Hstep0|done|simpl; by apply list_lookup_insert_eq|].
      unfold linked_at. simpl. rewrite Hheld. simpl.
      destruct (decide (c = c)); [|done]. split; [by left|done].
    + destruct Hat as [Hrel Hheld].
      destruct (step _ _) as [s|] eqn:Hstep; [|done].
      cbn [mbind option_bind] in Hturn.
      pose proof Hstep as Hstep0. simpl in Hstep. rewrite Ht in Hstep. simpl in Hstep.
      unfold statement, lock, goto, unlock, with_pool, with_mem in Hstep.
      destruct Hrel as [Hpc|[Hpc|[Hpc|Hpc]]]; rewrite Hpc in Hstep;
        repeat match type of Hstep with
               | context [match ?x with _ => _ end] => destruct x eqn:?; try discriminate
               end;
        injection Hstep as <-; simpl in Hturn;
        rewrite list_lookup_insert_eq in Hturn by done;
        cbn [mbind option_bind at_pc] in Hturn;
        (destruct (decide _) as [Hd|Hd]; try discriminate Hd; try (by destruct Hd));
        injection Hturn as <-;
        (eapply linked_step;
         [done|exact Hstep0|done|simpl; by apply list_lookup_insert_eq|]);
        unfold linked_at; simpl; rewrite ?Hheld; auto.
  - destruct (step _ _) as [s|] eqn:Hstep; [|done]. injection Hturn as <-.
    pose proof Hstep as Hstep0. simpl in Hstep. rewrite Ht in Hstep. simpl in Hstep.
    destruct (threads (shared r) !! w') as [tw|] eqn:Hw'; [|done]. simpl in Hstep.
    destruct (at_pc th) eqn:Hpc; try discriminate.
    destruct (blocked tw) eqn:Hb; [|done]. injection Hstep as <-.
    rewrite <- (list_insert_id (workers r) t w Hw).
    eapply linked_step; [done|exact Hstep0|done|
      unfold goto; simpl; apply list_lookup_insert_eq; by rewrite length_insert|].
    unfold linked_at in *. rewrite Hpc in Hat.
    destruct (line w); simpl in *; try (destruct Hat as [? ?]; done).
    destruct Hat as [[?|[?|[?|?]]] ?]; try done.
    split; [|done]. right; right; right. congruence.
  - destruct (step _ _) as [s|] eqn:Hstep; [|done]. injection Hturn as <-.
    pose proof Hstep as Hstep0. simpl in Hstep. rewrite Ht in Hstep. simpl in Hstep.
    destruct (blocked th) eqn:Hb; [|done]. injection Hstep as <-.
    apply bool_decide_eq_true in Hb.
    rewrite <- (list_insert_id (workers r) t w Hw).
    eapply linked_step; [done|exact Hstep0|done|simpl; by apply list_lookup_insert_eq|].
    unfold linked_at in *. rewrite Hb in Hat.
    destruct (line w); simpl in *; try (destruct Hat as [? ?]; done).
    destruct Hat as [[?|[?|[?|?]]] ?]; done.
Qed.

Lemma write_locked_move (r : Running W handle) t w l1 (s : Shared W handle) :
  write_locked r →
  workers r !! t = Some w →
  in_block l1 = in_block (line w) →
  write_locked (mkRunning s (writeMutex r) (<[t := mkWorker (workerId w) l1]> (workers r))).
Proof.
  intros Hwl Hw Hsame t'. pose proof (lookup_lt_Some _ _ _ Hw) as Hlt. simpl. split.
  - intros Hm. apply Hwl in Hm as (w' & Hw' & Hb).
    destruct (decide (t' = t)) as [->|Hne].
    + eexists. split; [by apply list_lookup_insert_eq|]. simpl. congruence.
    + exists w'. by rewrite list_lookup_insert_ne.
  - intros (w' & Hw' & Hb). apply Hwl.
    apply list_lookup_insert_Some in Hw' as [(<- & <- & _)|(Hne & Hw')].
    + exists w. split; [done|]. simpl in Hb. congruence.
    + by exists w'.
Qed.

(** [writeMutex] is taken at line 137 when it is free and given back at
    the end of the block. *)
Lemma write_locked_turn (c : Turn) (r r' : Running W handle) :
  write_locked r → turn_step c r = Some r' → write_locked r'.
Proof.
  intros Hwl Hturn.
  destruct c as [t|t w'|t]; unfold turn_step in Hturn;
    destruct (workers r !! t) as [w|] eqn:Hw; try discriminate;
    cbn [mbind option_bind] in Hturn.
  - pose proof (lookup_lt_Some _ _ _ Hw) as Hlt.
    unfold worker_step, move in Hturn.
    destruct (line w) as [| |c|c|c|c|c|c|] eqn:Hline; try discriminate.
    + destruct (step _ _) as [s|]; [|done]. injection Hturn as <-.
      apply write_locked_move; [done..|by rewrite Hline].
    + destruct (step _ _) as [s|]; [|done]. cbn [mbind option_bind] in Hturn.
      destruct (returning _ _) as [[? ?]|]; injection Hturn as <-;
        (apply write_locked_move; [done..|by rewrite Hline]).
    + injection Hturn as <-. apply write_locked_move; [done..|by rewrite Hline].
    + destruct (writeMutex r) eqn:Hm; [done|]. injection Hturn as <-.
      intros t'. simpl. split.
      * intros [= <-]. eexists. split; [by apply list_lookup_insert_eq|done].
      * intros (w1 & Hw1 & Hb).
        apply list_lookup_insert_Some in Hw1 as [(<- & _ & _)|(Hne & Hw1)]; [done|].
        assert (writeMutex r = Some t') as Hm' by (apply Hwl; by exists w1).
        congruence.
    + destruct (step _ _) as [s|]; [|done]. injection Hturn as <-.
      apply write_locked_move; [done..|by rewrite Hline].
    + injection Hturn as <-. intros t'. simpl. split; [done|].
      intros (w1 & Hw1 & Hb).
      apply list_lookup_insert_Some in Hw1 as [(<- & <- & _)|(Hne & Hw1)]; [done|].
      assert (writeMutex r = Some t') as Hm' by (apply Hwl; by exists w1).
      assert (writeMutex r = Some t) as Hm.
      { apply Hwl. exists w. by rewrite Hline. }
      congruence.
    + destruct (step _ _) as [s|]; [|done]. injection Hturn as <-.
      apply write_locked_move; [done..|by rewrite Hline].
    + destruct (step _ _) as [s|]; [|done]. cbn [mbind option_bind] in Hturn.
      destruct (threads s !! t) as [th|]; [|done]. cbn [mbind option_bind] in Hturn.
      destruct (decide _); injection Hturn as <-;
        (apply write_locked_move; [done..|by rewrite Hline]).
  - destruct (step _ _) as [s|]; [|done]. by injection Hturn as <-.
  - destruct (step _ _) as [s|]; [|done]. by injection Hturn as <-.
Qed.

Lemma worker_inv_turn q0 h0 (c : Turn) (r r' : Running W handle) :
  worker_inv q0 h0 r → turn_step c r = Some r' → worker_inv q0 h0 r'.
Proof.
  intros (Hlk & Hs & Hacc & Ho & Hnlw & Hwl & Hheap) Hturn.
  split; [by eapply linked_turn|].
  destruct (turn_step_shared c r r' Hlk Hturn) as [->|(l & Hstep & Hrel)].
  - do 4 (split; [done|]). split; [by eapply write_locked_turn|done].
  - split; [by eapply safe_step|].
    split; [by eapply accounted_step|].
    split; [by eapply owned_step|].
    split; [by eapply no_lost_wakeup_step|].
    split; [by eapply write_locked_turn|].
    by rewrite (step_heap _ _ _ Hstep).
Qed.

Lemma worker_inv_run q0 h0 (cs : list Turn) (r r' : Running W handle) :
  worker_inv q0 h0 r → run_turns cs r = Some r' → worker_inv q0 h0 r'.
Proof.
  revert r. induction cs as [|c cs IH]; intros r Hinv Hrun.
  - by injection Hrun as <-.
  - cbn [run_turns] in Hrun. destruct (turn_step c r) as [r1|] eqn:Hturn; [|done].
    eapply IH; [|exact Hrun]. by eapply worker_inv_turn.
Qed.

Lemma worker_inv_launched (ids : list Z) p (m : Memory W handle) :
  worker_inv (m_connections p) (heap m) (launched ids p m).
Proof.
  assert (Forall (λ th, at_pc th = Outside) (threads (start (length ids) p m))) as Hout.
  { simpl. apply Forall_forall. intros th Hth.
    by apply elem_of_replicate_inv in Hth as ->. }
  split.
  { split; [simpl; by rewrite length_fmap, length_replicate|].
    intros t w th Hw Hth. simpl in Hw, Hth.
    apply lookup_replicate in Hth as [-> _].
    rewrite list_lookup_fmap in Hw.
    destruct (ids !! t); [|done]. by injection Hw as <-. }
  split; [apply start_safe|]. split; [apply start_accounted|].
  split.
  { intros t Hm. by simpl in Hm. }
  split; [by apply no_lost_wakeup_initial|].
  split; [|done].
  intros t. simpl. split; [done|]. intros (w & Hw & Hb).
  rewrite list_lookup_fmap in Hw. destruct (ids !! t); [|done].
  by injection Hw as <-.
Qed.

Lemma holding_held w th c :
  linked_at w th → holding w = Some c → at_pc th = Outside ∧ held th = [c].
Proof.
  unfold linked_at, holding. intros Hl Hh.
  destruct (line w); try discriminate; by injection Hh as <-.
Qed.

Lemma holders_in_hands (ws : list Worker) (ths : list Thread) :
  length ws = length ths →
  (∀ t w th, ws !! t = Some w → ths !! t = Some th → linked_at w th) →
  length (omap holding ws) ≤ length (hands ths).
Proof.
  revert ths. induction ws as [|w ws IH]; intros [|th ths] Hlen Hl; try done.
  injection Hlen as Hlen.
  assert (length (omap holding ws) ≤ length (hands ths)) as Hrest.
  { apply IH; [done|]. intros t w' th' Hw' Hth'. by apply (Hl (S t)). }
  unfold hands in *. rewrite bind_cons, length_app.
  change (omap holding (w :: ws))
    with (match holding w with Some c => c :: omap holding ws | None => omap holding ws end).
  destruct (holding w) as [c|] eqn:Hh; [|lia].
  destruct (holding_held w th c (Hl 0 w th eq_refl eq_refl) Hh) as [_ Hheld].
  unfold in_hand in *. rewrite Hheld, length_app, !length_cons. lia.
Qed.

(** X10.  The workers of the program, scheduled in any order, on a queue
    without duplicates.  No two workers hold the same connection at the
    same time, where a worker holds the connection its [getConnection]
    returned until it passes it to [releaseConnection]; the connection a
    worker holds is one of the queue the workers started on, is not in
    the queue now, and its object is the one of that moment; and the
    workers that hold a connection and the queue together never count
    more than the queue counted at the start.  The workers need no
    contract for this: the one [releaseConnection] of a worker passes the
    connection its [getConnection] returned. *)
Theorem workers_hold_distinct_connections (ids : list Z) p (m : Memory W handle) cs r :
  NoDup (m_connections p) →
  run_turns cs (launched ids p m) = Some r →
  (∀ t1 t2 w1 w2 c,
     t1 ≠ t2 → workers r !! t1 = Some w1 → workers r !! t2 = Some w2 →
     holding w1 = Some c → holding w2 ≠ Some c) ∧
  (∀ t w c,
     workers r !! t = Some w → holding w = Some c →
     c ∈ m_connections p ∧ (c ∉ m_connections (pool (shared r))) ∧
     heap (mem (shared r)) !! c = heap m !! c) ∧
  length (omap holding (workers r)) + available_count (pool (shared r))
    ≤ available_count p.
Proof.
  intros Hnd Hrun.
  destruct (worker_inv_run _ _ cs _ r (worker_inv_launched ids p m) Hrun)
    as ((Hlen & Hl) & Hs & Hacc & Ho & Hnlw & Hwl & Hheap).
  unfold accounted in Hacc.
  assert (NoDup (m_connections (pool (shared r)) ++ checked_out (shared r))) as Hnd'.
  { by rewrite Hacc. }
  assert (∀ t w c, workers r !! t = Some w → holding w = Some c →
            ∃ th, threads (shared r) !! t = Some th ∧ c ∈ in_hand th) as Hhand.
  { intros t w c Hw Hh.
    assert (is_Some (threads (shared r) !! t)) as [th Ht].
    { apply lookup_lt_is_Some. rewrite <- Hlen. by eapply lookup_lt_Some. }
    exists th. split; [done|].
    destruct (holding_held w th c (Hl t w th Hw Ht) Hh) as [_ Hheld].
    apply held_in_hand. rewrite Hheld. by apply list_elem_of_singleton. }
  split; [|split].
  - intros t1 t2 w1 w2 c Hne Hw1 Hw2 Hh1 Hh2.
    destruct (Hhand t1 w1 c Hw1 Hh1) as (th1 & Ht1 & Hc1).
    destruct (Hhand t2 w2 c Hw2 Hh2) as (th2 & Ht2 & Hc2).
    apply NoDup_app in Hnd' as (_ & _ & Hout).
    by apply (hands_two_threads (threads (shared r)) t1 t2 th1 th2 c).
  - intros t w c Hw Hh.
    destruct (Hhand t w c Hw Hh) as (th & Ht & Hc).
    assert (c ∈ checked_out (shared r)) as Hco.
    { unfold checked_out, hands. apply list_elem_of_bind. exists th.
      split; [done|]. by eapply list_elem_of_lookup_2. }
    split; [|split].
    + rewrite <- Hacc. apply elem_of_app. by right.
    + apply NoDup_app in Hnd' as (_ & Hdisj & _). intros Hq. by apply (Hdisj c).
    + by rewrite Hheap.
  - pose proof (holders_in_hands _ _ Hlen Hl) as Hle.
    apply Permutation_length in Hacc. rewrite length_app in Hacc.
    unfold available_count, checked_out in *. lia.
Qed.

(** What a step of a thread writes: nothing reaches SQLite but by an
    [executeQuery]. *)
Lemma step_trace (l : Label) (s s' : Shared W handle) :
  step l s = Some s' →
  (∀ t c q, l ≠ executeQuery_by t c q) →
  ∃ evs, trace (env (mem s')) = trace (env (mem s)) ++ evs ∧
         opens evs = [] ∧ execs evs = [] ∧ closes evs = [].
Proof.
  intros Hstep Hl.
  destruct l as [t|t c|t|t w|t|t c query]; simpl in Hstep;
    destruct (threads s !! t) as [th|] eqn:Ht; try discriminate; simpl in Hstep.
  - destruct (decide _); [|done]. injection Hstep as <-. exists []. by rewrite app_nil_r.
  - destruct (decide _); [|done]. injection Hstep as <-. exists []. by rewrite app_nil_r.
  - unfold statement, lock, goto, unlock, with_pool, with_mem in Hstep.
    destruct (at_pc th); try discriminate;
      repeat match type of Hstep with
             | context [match ?x with _ => _ end] => destruct x; try discriminate
             end;
      injection Hstep as <-;
      first [ by (exists []; rewrite app_nil_r) | by eexists [_] ].
  - destruct (threads s !! w) as [tw|]; [|done]. simpl in Hstep.
    destruct (at_pc th); try discriminate.
    destruct (blocked tw); [|done]. injection Hstep as <-.
    exists []. by rewrite app_nil_r.
  - destruct (blocked th); [|done]. injection Hstep as <-. exists []. by rewrite app_nil_r.
  - by destruct (Hl t c query).
Qed.

(** An [executeQuery] on a connected object gives SQLite the statement,
    once, on the handle of the object. *)
Lemma executeQuery_by_trace t c query (s s' : Shared W handle) obj :
  step (executeQuery_by t c query) s = Some s' →
  heap (mem s) !! c = Some obj →
  isConnected obj = true →
  ∃ evs, trace (env (mem s')) = trace (env (mem s)) ++ evs ∧
         opens evs = [] ∧ execs evs = [(m_db obj, c_str query)] ∧ closes evs = [].
Proof.
  intros Hstep Hobj Hc. simpl in Hstep.
  destruct (threads s !! t) as [th|]; [|done]. simpl in Hstep.
  destruct (decide _); [|done].
  unfold call_executeQuery in Hstep. rewrite Hobj in Hstep. simpl in Hstep.
  destruct (sqlite3_exec (m_db obj) (c_str query) (sqlite (env (mem s))))
    as [[rc errMsg] w] eqn:Hexec.
  rewrite (executeQuery_connected obj query (env (mem s)) rc errMsg w Hc Hexec) in Hstep.
  destruct (decide (rc = SQLITE_OK)); injection Hstep as <-; simpl;
    destruct errMsg; by eexists.
Qed.

Lemma submitted_move (ws : list Worker) t w l1 :
  ws !! t = Some w →
  past_query l1 = past_query (line w) →
  submitted (<[t := mkWorker (workerId w) l1]> ws) = submitted ws.
Proof.
  intros Hw Hsame. pose proof (lookup_lt_Some _ _ _ Hw) as Hlt.
  rewrite insert_take_drop by done.
  rewrite <- (take_drop_middle ws t w Hw) at 3.
  unfold submitted. rewrite !bind_app, !bind_cons. simpl. by rewrite Hsame.
Qed.

Lemma submitted_query (ws : list Worker) t w c :
  ws !! t = Some w →
  line w = L138 c →
  submitted (<[t := mkWorker (workerId w) (L139 c)]> ws)
  ≡ₚ submitted ws ++ [worker_query (workerId w)].
Proof.
  intros Hw Hline. pose proof (lookup_lt_Some _ _ _ Hw) as Hlt.
  rewrite insert_take_drop by done.
  rewrite <- (take_drop_middle ws t w Hw) at 3.
  unfold submitted. rewrite !bind_app, !bind_cons. simpl. rewrite Hline. simpl.
  rewrite <- app_assoc. f_equiv.
  change (?x :: ?l) with ([x] ++ l). apply Permutation_app_comm.
Qed.

Lemma workerId_insert (ws : list Worker) t w l1 :
  ws !! t = Some w →
  workerId <$> <[t := mkWorker (workerId w) l1]> ws = workerId <$> ws.
Proof.
  intros Hw. rewrite list_fmap_insert. simpl. apply list_insert_id.
  by rewrite list_lookup_fmap, Hw.
Qed.

(** A step of a worker is the [executeQuery] of line 138, with the
    statement of line 135, or gives SQLite nothing. *)
Lemma turn_step_cases (c : Turn) (r r' : Running W handle) :
  turn_step c r = Some r' →
  workerId <$> workers r' = workerId <$> workers r ∧
  ((∃ t w conn,
      c = turn t ∧ workers r !! t = Some w ∧ line w = L138 conn ∧
      step (executeQuery_by t conn (worker_query (workerId w))) (shared r)
        = Some (shared r') ∧
      workers r' = <[t := mkWorker (workerId w) (L139 conn)]> (workers r)) ∨
   ((∀ t w conn, c = turn t → workers r !! t = Some w → line w ≠ L138 conn) ∧
    submitted (workers r') = submitted (workers r) ∧
    (shared r' = shared r ∨
     ∃ l, step l (shared r) = Some (shared r') ∧ ∀ t conn q, l ≠ executeQuery_by t conn q))).
Proof.
  intros Hturn.
  destruct c as [t|t w'|t]; unfold turn_step in Hturn;
    destruct (workers r !! t) as [w|] eqn:Hw; try discriminate;
    cbn [mbind option_bind] in Hturn.
  - unfold worker_step, move in Hturn.
    destruct (line w) as [| |c|c|c|c|c|c|] eqn:Hline; try discriminate.
    + destruct (step _ _) as [s|] eqn:Hstep; [|done]. injection Hturn as <-. simpl.
      split; [by apply workerId_insert|]. right.
      split; [intros ? ? ? [= <-] ?; congruence|].
      split; [apply submitted_move; [done|by rewrite Hline]|].
      right. by eexists.
    + destruct (step _ _) as [s|] eqn:Hstep; [|done].
      cbn [mbind option_bind] in Hturn.
      destruct (returning _ _) as [[? ?]|]; injection Hturn as <-; simpl;
        (split; [by apply workerId_insert|]); right;
        (split; [intros ? ? ? [= <-] ?; congruence|]);
        (split; [apply submitted_move; [done|by rewrite Hline]|]);
        right; by eexists.
    + injection Hturn as <-. simpl.
      split; [by apply workerId_insert|]. right.
      split; [intros ? ? ? [= <-] ?; congruence|].
      split; [apply submitted_move; [done|by rewrite Hline]|]. by left.
    + destruct (writeMutex r); [done|]. injection Hturn as <-. simpl.
      split; [by apply workerId_insert|]. right.
      split; [intros ? ? ? [= <-] ?; congruence|].
      split; [apply submitted_move; [done|by rewrite Hline]|]. by left.
    + destruct (step _ _) as [s|] eqn:Hstep; [|done]. injection Hturn as <-. simpl.
      split; [by apply workerId_insert|]. left. by exists t, w, c.
    + injection Hturn as <-. simpl.
      split; [by apply workerId_insert|]. right.
      split; [intros ? ? ? [= <-] ?; congruence|].
      split; [apply submitted_move; [done|by rewrite Hline]|]. by left.
    + destruct (step _ _) as [s|] eqn:Hstep; [|done]. injection Hturn as <-. simpl.
      split; [by apply workerId_insert|]. right.
      split; [intros ? ? ? [= <-] ?; congruence|].
      split; [apply submitted_move; [done|by rewrite Hline]|].
      right. by eexists.
    + destruct (step _ _) as [s|] eqn:Hstep; [|done].
      cbn [mbind option_bind] in Hturn.
      destruct (threads s !! t) as [th|]; [|done]. cbn [mbind option_bind] in Hturn.
      destruct (decide _); injection Hturn as <-; simpl;
        (split; [by apply workerId_insert|]); right;
        (split; [intros ? ? ? [= <-] ?; congruence|]);
        (split; [apply submitted_move; [done|by rewrite Hline]|]);
        right; by eexists.
  - destruct (step _ _) as [s|] eqn:Hstep; [|done]. injection Hturn as <-. simpl.
    split; [done|]. right. split; [done|]. split; [done|]. right. by eexists.
  - destruct (step _ _) as [s|] eqn:Hstep; [|done]. injection Hturn as <-. simpl.
    split; [done|]. right. split; [done|]. split; [done|]. right. by eexists.
Qed.

(** X11.  [writeMutex] is owned by a worker exactly while that worker is
    between its [lock_guard] of line 137 and the end of the block; so at
    most one worker is at the [executeQuery] of line 138 or has just
    returned from it, whatever the number of connections of the pool; and
    a step that gives SQLite a statement is a step of the owner of
    [writeMutex]. *)
Theorem writeMutex_serializes_queries (ids : list Z) p (m : Memory W handle) cs r :
  run_turns cs (launched ids p m) = Some r →
  (∀ t, writeMutex r = Some t ↔
        ∃ w, workers r !! t = Some w ∧ in_block (line w) = true) ∧
  (∀ t1 t2 w1 w2,
     workers r !! t1 = Some w1 → workers r !! t2 = Some w2 →
     in_block (line w1) = true → in_block (line w2) = true → t1 = t2) ∧
  (∀ c r',
     turn_step c r = Some r' →
     execs (trace (env (mem (shared r')))) ≠ execs (trace (env (mem (shared r)))) →
     ∃ t, c = turn t ∧ writeMutex r = Some t).
Proof.
  intros Hrun.
  destruct (worker_inv_run _ _ cs _ r (worker_inv_launched ids p m) Hrun)
    as (Hlk & Hs & Hacc & Ho & Hnlw & Hwl & Hheap).
  split; [exact Hwl|]. split.
  - intros t1 t2 w1 w2 Hw1 Hw2 Hb1 Hb2.
    assert (writeMutex r = Some t1) as H1 by (apply Hwl; by exists w1).
    assert (writeMutex r = Some t2) as H2 by (apply Hwl; by exists w2).
    congruence.
  - intros c r' Hturn Hne.
    destruct (turn_step_cases c r r' Hturn)
      as [_ [(t & w & conn & -> & Hw & Hline & _)|(_ & _ & Hsh)]].
    + exists t. split; [done|]. apply Hwl. exists w. by rewrite Hline.
    + destruct Hne. destruct Hsh as [->|(l & Hstep & Hl)]; [done|].
      destruct (step_trace l _ _ Hstep Hl) as (evs & -> & _ & Hex & _).
      by rewrite execs_app, Hex, app_nil_r.
Qed.

Lemma queries_sent_turn tr0 q0 h0 (c : Turn) (r r' : Running W handle) :
  (∀ conn, conn ∈ q0 → ∃ obj, h0 !! conn = Some obj ∧ isConnected obj = true) →
  worker_inv q0 h0 r →
  queries_sent tr0 q0 h0 r →
  turn_step c r = Some r' →
  queries_sent tr0 q0 h0 r'.
Proof.
  intros Hconn ((Hlen & Hl) & Hs & Hacc & Ho & Hnlw & Hwl & Hheap)
    (evs & Htr & Hop & Hcl & Hex & Hdb) Hturn.
  destruct (turn_step_cases c r r' Hturn)
    as [_ [(t & w & conn & -> & Hw & Hline & Hstep & Hws)|(_ & Hsub & Hsh)]].
  - assert (is_Some (threads (shared r) !! t)) as [th Ht].
    { apply lookup_lt_is_Some. rewrite <- Hlen. by eapply lookup_lt_Some. }
    pose proof (Hl t w th Hw Ht) as Hat. unfold linked_at in Hat.
    rewrite Hline in Hat. destruct Hat as [Hout Hheld].
    assert (conn ∈ q0) as Hq0.
    { rewrite <- Hacc. apply elem_of_app. right.
      unfold checked_out, hands. apply list_elem_of_bind. exists th.
      split; [|by eapply list_elem_of_lookup_2].
      apply held_in_hand. rewrite Hheld. by apply list_elem_of_singleton. }
    destruct (Hconn conn Hq0) as (obj & Hobj & Hc).
    rewrite <- Hheap in Hobj.
    destruct (executeQuery_by_trace _ _ _ _ _ obj Hstep Hobj Hc)
      as (evs1 & Htr1 & Hop1 & Hex1 & Hcl1).
    exists (evs ++ evs1).
    split; [by rewrite Htr1, Htr, app_assoc|].
    split; [by rewrite opens_app, Hop, Hop1|].
    split; [by rewrite closes_app, Hcl, Hcl1|].
    split.
    + rewrite execs_app, Hex1, fmap_app, Hex, Hws.
      rewrite (submitted_query _ _ _ _ Hw Hline), fmap_app. done.
    + intros db sql Hin. rewrite execs_app, Hex1 in Hin.
      apply elem_of_app in Hin as [Hin|Hin]; [by apply (Hdb db sql)|].
      apply list_elem_of_singleton in Hin as [= -> ->].
      exists conn, obj. by rewrite <- Hheap.
  - rewrite <- Hsub in Hex.
    destruct Hsh as [Hsame|(l & Hstep & Hlab)].
    + exists evs. by rewrite Hsame.
    + destruct (step_trace l _ _ Hstep Hlab) as (evs1 & Htr1 & Hop1 & Hex1 & Hcl1).
      exists (evs ++ evs1).
      split; [by rewrite Htr1, Htr, app_assoc|].
      split; [by rewrite opens_app, Hop, Hop1|].
      split; [by rewrite closes_app, Hcl, Hcl1|].
      rewrite execs_app, Hex1, app_nil_r. done.
Qed.

Lemma queries_sent_run tr0 q0 h0 (cs : list Turn) (r r' : Running W handle) :
  (∀ conn, conn ∈ q0 → ∃ obj, h0 !! conn = Some obj ∧ isConnected obj = true) →
  worker_inv q0 h0 r →
  queries_sent tr0 q0 h0 r →
  run_turns cs r = Some r' →
  queries_sent tr0 q0 h0 r' ∧ workerId <$> workers r' = workerId <$> workers r.
Proof.
  intros Hconn. revert r. induction cs as [|c cs IH]; intros r Hinv Hq Hrun.
  - by injection Hrun as <-.
  - cbn [run_turns] in Hrun. destruct (turn_step c r) as [r1|] eqn:Hturn; [|done].
    cbn [mbind option_bind] in Hrun.
    destruct (IH r1) as [Hq' Hids]; [by eapply worker_inv_turn|
      by eapply queries_sent_turn|done|].
    split; [done|]. rewrite Hids. by apply (turn_step_cases c r r1).
Qed.

Lemma submitted_finished (ws : list Worker) :
  Forall (λ w, line w = L141) ws → submitted ws = worker_query <$> (workerId <$> ws).
Proof.
  induction 1 as [|w ws Hw _ IH]; [done|].
  unfold submitted in *. rewrite bind_cons, IH, Hw. done.
Qed.

Lemma submitted_launched (ids : list Z) :
  submitted ((λ i, mkWorker i L133) <$> ids) = [].
Proof.
  unfold submitted. induction ids as [|i ids IH]; [done|].
  rewrite fmap_cons, bind_cons. simpl. exact IH.
Qed.


Lemma hands_nil (ths : list Thread) :
  (∀ t th, ths !! t = Some th → in_hand th = []) → hands ths = [].
Proof.
  induction ths as [|th ths IH]; intros Hall; [done|].
  unfold hands in *. rewrite bind_cons, (Hall 0 th eq_refl), IH; [done|].
  intros t th' Ht. by apply (Hall (S t)).
Qed.

(** The owner of [m_mutex] is not waiting for anything but, at the
    [notify_one], for the choice of the waiter to wake. *)
Lemma critical_worker_moves (r : Running W handle) t w th :
  workers r !! t = Some w →
  threads (shared r) !! t = Some th →
  linked_at w th →
  in_critical (at_pc th) = true →
  is_Some (turn_step (turn t) r) ∨ ∃ w', is_Some (turn_step (turn_notify t w') r).
Proof.
  intros Hw Ht Hat Hcrit. pose proof (lookup_lt_Some _ _ _ Ht) as Hlt.
  unfold linked_at in Hat.
  destruct (line w) as [| |c|c|c|c|c|c|] eqn:Hline;
    try (destruct Hat as [Hpc _]; rewrite Hpc in Hcrit; done).
  - left. unfold turn_step. rewrite Hw. cbn [mbind option_bind].
    unfold worker_step. rewrite Hline.
    assert (is_Some (step (next t) (shared r))) as [s ->].
    { simpl. rewrite Ht. simpl. unfold statement.
      destruct Hat as [Hin _].
      destruct (at_pc th); simpl in Hcrit, Hin;
        try discriminate Hcrit; try discriminate Hin;
        try (destruct (m_connections (pool (shared r)))); by eexists. }
    cbn [mbind option_bind]. by destruct (returning _ _) as [[? ?]|].
  - destruct Hat as [Hpc _].
    destruct (forallb (λ th', negb (blocked th')) (threads (shared r))) eqn:Hall.
    + left. unfold turn_step. rewrite Hw. cbn [mbind option_bind].
      unfold worker_step. rewrite Hline.
      assert (∃ s, step (next t) (shared r) = Some s ∧ is_Some (threads s !! t))
        as (s & Hs1 & [th' Hth']).
      { simpl. rewrite Ht. simpl. unfold statement.
        destruct Hpc as [Hpc|[Hpc|[Hpc|Hpc]]]; rewrite Hpc in Hcrit |- *;
          try discriminate; rewrite ?Hall;
          (eexists; split; [done|]; simpl; apply lookup_lt_is_Some;
           by rewrite length_insert). }
      rewrite Hs1. cbn [mbind option_bind]. rewrite Hth'.
    cbn [mbind option_bind]. by destruct (decide _).
    + destruct Hpc as [Hpc|[Hpc|[Hpc|Hpc]]]; rewrite Hpc in Hcrit; try discriminate.
      * left. unfold turn_step. rewrite Hw. cbn [mbind option_bind].
        unfold worker_step. rewrite Hline.
        assert (∃ s, step (next t) (shared r) = Some s ∧ is_Some (threads s !! t))
          as (s & Hs1 & [th' Hth']).
        { simpl. rewrite Ht. simpl. unfold statement. rewrite Hpc.
          eexists; split; [done|]; simpl; apply lookup_lt_is_Some;
           by rewrite length_insert. }
        rewrite Hs1. cbn [mbind option_bind]. rewrite Hth'.
    cbn [mbind option_bind]. by destruct (decide _).
      * right.
        assert (∃ w' tw, threads (shared r) !! w' = Some tw ∧ blocked tw = true)
          as (w' & tw & Hw' & Hb).
        { clear -Hall. induction (threads (shared r)) as [|th0 ths IH]; [done|].
          simpl in Hall. destruct (blocked th0) eqn:Hb.
          - by exists 0, th0.
          - destruct (IH Hall) as (w' & tw & Hw' & Hb'). by exists (S w'), tw. }
        exists w'. unfold turn_step. rewrite Hw. cbn [mbind option_bind].
        simpl. rewrite Ht, Hw'. simpl. rewrite Hpc, Hb. done.
      * left. unfold turn_step. rewrite Hw. cbn [mbind option_bind].
        unfold worker_step. rewrite Hline.
        assert (∃ s, step (next t) (shared r) = Some s ∧ is_Some (threads s !! t))
          as (s & Hs1 & [th' Hth']).
        { simpl. rewrite Ht. simpl. unfold statement. rewrite Hpc.
          eexists; split; [done|]; simpl; apply lookup_lt_is_Some;
           by rewrite length_insert. }
        rewrite Hs1. cbn [mbind option_bind]. rewrite Hth'.
    cbn [mbind option_bind]. by destruct (decide _).
Qed.

(** A ready worker takes its step when nobody owns [m_mutex]. *)
Lemma ready_worker_moves (r : Running W handle) t w th :
  m_mutex (shared r) = None →
  workers r !! t = Some w →
  threads (shared r) !! t = Some th →
  linked_at w th →
  (∀ c, c ∈ held th → is_Some (heap (mem (shared r)) !! c)) →
  ready (writeMutex r) (w, th) = true →
  is_Some (turn_step (turn t) r).
Proof.
  intros Hm Hw Ht Hat Hlive Hready. pose proof (lookup_lt_Some _ _ _ Ht) as Hlt.
  unfold turn_step. rewrite Hw. cbn [mbind option_bind].
  unfold worker_step, ready in *. unfold linked_at in Hat. cbn [fst snd] in Hready.
  destruct (line w) as [| |c|c|c|c|c|c|] eqn:Hline; try discriminate.
  - destruct Hat as [Hpc _]. simpl. rewrite Ht. simpl. rewrite Hpc. done.
  - apply bool_decide_eq_true in Hready.
    assert (is_Some (step (next t) (shared r))) as [s ->].
    { simpl. rewrite Ht. simpl. unfold statement, lock.
      destruct Hready as [-> | ->]; by rewrite Hm. }
    cbn [mbind option_bind]. by destruct (returning _ _) as [[? ?]|].
  - done.
  - apply bool_decide_eq_true in Hready. by rewrite Hready.
  - destruct Hat as [Hpc Hheld].
    destruct (Hlive c) as [obj Hobj]; [rewrite Hheld; by apply list_elem_of_singleton|].
    simpl. rewrite Ht. simpl. rewrite Hpc. simpl.
    unfold call_executeQuery. rewrite Hobj. simpl.
    by destruct (executeQuery obj _ _) as [[ok obj'] e].
  - done.
  - destruct Hat as [Hpc _]. simpl. rewrite Ht. simpl. rewrite Hpc. done.
  - apply bool_decide_eq_true in Hready.
    assert (∃ s, step (next t) (shared r) = Some s ∧ is_Some (threads s !! t))
      as (s & Hs1 & [th' Hth']).
    { simpl. rewrite Ht. simpl. unfold statement, lock. rewrite Hready, Hm.
      eexists; split; [done|]; simpl; apply lookup_lt_is_Some;
        by rewrite length_insert. }
    rewrite Hs1. cbn [mbind option_bind]. rewrite Hth'.
    cbn [mbind option_bind]. by destruct (decide _).
Qed.

(** When no worker is ready and nobody owns [m_mutex], every worker has
    finished or sleeps in [wait]. *)
Lemma not_ready_sleeps (r : Running W handle) t w th :
  safe (shared r) →
  m_mutex (shared r) = None →
  writeMutex r = None →
  workers r !! t = Some w →
  threads (shared r) !! t = Some th →
  linked_at w th →
  ready (writeMutex r) (w, th) = false →
  held th = [] ∧
  ((line w = L141 ∧ at_pc th = Outside) ∨
   (line w = L133_inside ∧ at_pc th = Get81_blocked)).
Proof.
  intros Hs Hm Hwm Hw Ht Hat Hready.
  destruct (Hs t th Ht) as [_ Hcrit]. rewrite Hm in Hcrit.
  unfold ready in Hready. unfold linked_at in Hat. cbn [fst snd] in Hready.
  destruct (line w) as [| |c|c|c|c|c|c|] eqn:Hline; try discriminate.
  - destruct Hat as [Hin Hheld]. split; [done|]. right. split; [done|].
    apply bool_decide_eq_false in Hready.
    destruct (at_pc th); try discriminate; try done;
      try (by destruct (Hcrit eq_refl));
      destruct Hready; auto.
  - rewrite Hwm in Hready. by apply bool_decide_eq_false in Hready.
  - destruct Hat as [Hpc Hheld]. apply bool_decide_eq_false in Hready.
    destruct Hpc as [Hpc|[Hpc|[Hpc|Hpc]]]; rewrite Hpc in Hcrit; try done;
      by destruct (Hcrit eq_refl).
  - destruct Hat as [Hpc Hheld]. split; [done|]. by left.
Qed.

(** While a worker has not finished, some worker can take a step, and
    not because of a wake-up from nowhere. *)
Lemma unfinished_worker_moves q0 h0 (r : Running W handle) :
  q0 ≠ [] →
  (∀ c, c ∈ q0 → is_Some (h0 !! c)) →
  worker_inv q0 h0 r →
  ¬ finished r →
  ∃ c, (∀ t, c ≠ turn_spurious t) ∧ is_Some (turn_step c r).
Proof.
  intros Hne Hlive ((Hlen & Hl) & Hs & Hacc & Ho & Hnlw & Hwl & Hheap) Hnf.
  assert (∀ t, t < length (workers r) →
            ∃ w th, workers r !! t = Some w ∧ threads (shared r) !! t = Some th ∧
                    linked_at w th) as Hboth.
  { intros t Hlt.
    destruct (lookup_lt_is_Some_2 (workers r) t Hlt) as [w Hw].
    destruct (lookup_lt_is_Some_2 (threads (shared r)) t) as [th Ht]; [by rewrite <- Hlen|].
    exists w, th. split; [done|]. split; [done|]. by eapply Hl. }
  assert (∀ t th c, threads (shared r) !! t = Some th → c ∈ held th →
            is_Some (heap (mem (shared r)) !! c)) as Hheld_live.
  { intros t th c Ht Hc. rewrite Hheap. apply Hlive. rewrite <- Hacc.
    apply elem_of_app. right. unfold checked_out, hands.
    apply list_elem_of_bind. exists th. split; [by apply held_in_hand|].
    by eapply list_elem_of_lookup_2. }
  destruct (m_mutex (shared r)) as [t0|] eqn:Hm.
  { (* the owner of m_mutex goes on *)
    destruct (Ho t0 Hm) as (th0 & Ht0 & Hcrit).
    destruct (Hboth t0) as (w0 & th0' & Hw0 & Ht0' & Hat).
    { rewrite Hlen. by eapply lookup_lt_Some. }
    rewrite Ht0 in Ht0'. injection Ht0' as <-.
    destruct (critical_worker_moves r t0 w0 th0 Hw0 Ht0 Hat Hcrit) as [Hgo|[w' Hgo]].
    - exists (turn t0). by split.
    - exists (turn_notify t0 w'). by split. }
  destruct (existsb (ready (writeMutex r)) (zip (workers r) (threads (shared r))))
    eqn:Hex.
  { (* a ready worker goes on *)
    apply existsb_exists in Hex as ([w th] & Hin & Hready).
    apply list_elem_of_In, list_elem_of_lookup in Hin as [t Hzt].
    apply lookup_zip_Some in Hzt as [Hw Ht].
    exists (turn t). split; [done|].
    apply (ready_worker_moves r t w th); try done; [by eapply Hl|].
    intros c Hc. by eapply Hheld_live. }
  (* nobody is ready: everybody has finished or sleeps *)
  exfalso.
  assert (∀ t w th, workers r !! t = Some w → threads (shared r) !! t = Some th →
            ready (writeMutex r) (w, th) = false) as Hnone.
  { intros t w th Hw Ht. destruct (ready _ _) eqn:Hready; [|done].
    rewrite <- Hex. symmetry. apply existsb_exists. exists (w, th). split; [|done].
    apply list_elem_of_In. apply (list_elem_of_lookup_2 _ t).
    by apply lookup_zip_Some. }
  assert (writeMutex r = None) as Hwm.
  { destruct (writeMutex r) as [t1|] eqn:Hwm; [|done].
    destruct (proj1 (Hwl t1) Hwm) as (w1 & Hw1 & Hb).
    destruct (Hboth t1) as (w1' & th1 & Hw1' & Ht1 & _); [by eapply lookup_lt_Some|].
    rewrite Hw1 in Hw1'. injection Hw1' as <-.
    specialize (Hnone t1 w1 th1 Hw1 Ht1). unfold ready in Hnone. cbn [fst] in Hnone.
    by destruct (line w1). }
  assert (∀ t w th, workers r !! t = Some w → threads (shared r) !! t = Some th →
            held th = [] ∧
            ((line w = L141 ∧ at_pc th = Outside) ∨
             (line w = L133_inside ∧ at_pc th = Get81_blocked))) as Hsleep.
  { intros t w th Hw Ht.
    apply (not_ready_sleeps r t w th); try done; [by eapply Hl|by eapply Hnone]. }
  assert (∀ t th, threads (shared r) !! t = Some th →
            held th = [] ∧ (at_pc th = Outside ∨ at_pc th = Get81_blocked)) as Hths.
  { intros t th Ht.
    destruct (Hboth t) as (w & th' & Hw & Ht' & _).
    { rewrite Hlen. by eapply lookup_lt_Some. }
    rewrite Ht in Ht'. injection Ht' as <-.
    destruct (Hsleep t w th Hw Ht) as [Hheld [[_ Hpc]|[_ Hpc]]]; auto. }
  assert (some_blocked (shared r)) as Hsome.
  { apply not_Forall_Exists in Hnf; [|intros w; apply wline_eq_dec].
    apply Exists_exists in Hnf as (w & Hin & Hline).
    apply list_elem_of_lookup in Hin as [t Hw].
    destruct (Hboth t) as (w' & th & Hw' & Ht & _); [by eapply lookup_lt_Some|].
    rewrite Hw in Hw'. injection Hw' as <-.
    destruct (Hsleep t w th Hw Ht) as [_ [[Hl141 _]|[_ Hpc]]]; [done|].
    by exists t, th. }
  assert (m_connections (pool (shared r)) = []) as Hq.
  { apply Hnlw in Hsome. rewrite pending_zero in Hsome.
    - apply length_zero_iff_nil. lia.
    - intros t th Ht. destruct (Hths t th Ht) as [_ [-> | ->]]; done. }
  assert (checked_out (shared r) = []) as Hco.
  { apply hands_nil. intros t th Ht. unfold in_hand.
    destruct (Hths t th Ht) as [-> [-> | ->]]; done. }
  unfold accounted in Hacc. rewrite Hq, Hco in Hacc. simpl in Hacc.
  apply Permutation_nil_l in Hacc. done.
Qed.

(** X13.  The workers run on a pool with at least one connection, all of
    them live objects.  Whatever has been scheduled so far, wake-ups from
    nowhere included, as long as a worker has not finished some worker
    can take a step that is not a wake-up from nowhere: the program does
    not deadlock, whatever the number of workers and the order in which
    they have run. *)
Theorem workers_never_stuck (ids : list Z) p (m : Memory W handle) cs r :
  m_connections p ≠ [] →
  (∀ c, c ∈ m_connections p → is_Some (heap m !! c)) →
  run_turns cs (launched ids p m) = Some r →
  ¬ finished r →
  ∃ c, (∀ t, c ≠ turn_spurious t) ∧ is_Some (turn_step c r).
Proof.
  intros Hne Hlive Hrun Hnf.
  apply (unfinished_worker_moves (m_connections p) (heap m)); try done.
  apply (worker_inv_run _ _ cs (launched ids p m)); [apply worker_inv_launched|done].
Qed.

Lemma work_insert (ws : list Worker) (ths : list Thread) t w th w1 th1 :
  ws !! t = Some w →
  ths !! t = Some th →
  work (<[t := w1]> ws) (<[t := th1]> ths) + rank w th = work ws ths + rank w1 th1.
Proof.
  revert ths t. induction ws as [|w0 ws IH]; intros [|th0 ths] [|t] Hw Ht; try done.
  - injection Hw as ->. injection Ht as ->. simpl. lia.
  - simpl in Hw, Ht. specialize (IH ths t Hw Ht). simpl. lia.
Qed.

Lemma work_insert_thread (ws : list Worker) (ths : list Thread) t w th th1 :
  ws !! t = Some w →
  ths !! t = Some th →
  work ws (<[t := th1]> ths) + rank w th = work ws ths + rank w th1.
Proof.
  intros Hw Ht. rewrite <- (list_insert_id ws t w Hw) at 1. by apply work_insert.
Qed.

Lemma work_insert_worker (ws : list Worker) (ths : list Thread) t w th w1 :
  ws !! t = Some w →
  ths !! t = Some th →
  work (<[t := w1]> ws) ths + rank w th = work ws ths + rank w1 th.
Proof.
  intros Hw Ht. rewrite <- (list_insert_id ths t th Ht) at 1. by apply work_insert.
Qed.

Lemma work_launched (ids : list Z) p (m : Memory W handle) :
  work_left (launched ids p m) = 19 * length ids.
Proof.
  unfold work_left, launched, start. cbn [workers shared threads].
  induction ids as [|i ids IH]; [done|].
  cbn [length replicate fmap list_fmap work]. rewrite IH.
  unfold rank. cbn [line]. lia.
Qed.

Lemma work_insert_lt (ws : list Worker) (ths : list Thread) t w th w1 th1 :
  ws !! t = Some w →
  ths !! t = Some th →
  rank w1 th1 < rank w th →
  work (<[t := w1]> ws) (<[t := th1]> ths) < work ws ths.
Proof.
  intros Hw Ht Hlt. pose proof (work_insert ws ths t w th w1 th1 Hw Ht). lia.
Qed.

Lemma work_insert_worker_lt (ws : list Worker) (ths : list Thread) t w th w1 :
  ws !! t = Some w →
  ths !! t = Some th →
  rank w1 th < rank w th →
  work (<[t := w1]> ws) ths < work ws ths.
Proof.
  intros Hw Ht Hlt. pose proof (work_insert_worker ws ths t w th w1 Hw Ht). lia.
Qed.

(** Every step that is not a wake-up from nowhere leaves less to do. *)
Lemma turn_step_work (c : Turn) (r r' : Running W handle) :
  linked r →
  no_spurious c →
  turn_step c r = Some r' →
  work_left r' < work_left r.
Proof.
  intros [Hlen Hl] Hns Hturn. unfold work_left.
  destruct c as [t|t w'|t]; [| |by destruct (Hns t)]; unfold turn_step in Hturn;
    destruct (workers r !! t) as [w|] eqn:Hw; try discriminate;
    cbn [mbind option_bind] in Hturn;
    (assert (is_Some (threads (shared r) !! t)) as [th Ht]
       by (apply lookup_lt_is_Some; rewrite <- Hlen; by eapply lookup_lt_Some));
    pose proof (Hl t w th Hw Ht) as Hat;
    pose proof (lookup_lt_Some _ _ _ Ht) as Hlt.
  - unfold worker_step, move in Hturn. unfold linked_at in Hat.
    destruct (line w) as [| |c|c|c|c|c|c|] eqn:Hline; try discriminate.
    + destruct Hat as [Hout Hheld].
      destruct (step _ _) as [s|] eqn:Hstep; [|done]. injection Hturn as <-.
      simpl in Hstep. rewrite Ht in Hstep. simpl in Hstep.
      destruct (decide _); [|done]. injection Hstep as <-.
      unfold goto. cbn [workers shared threads].
      apply (work_insert_lt _ _ t w th); [done..|].
      unfold rank. cbn [line at_pc]. rewrite Hline. lia.
    + destruct Hat as [Hin Hheld].
      destruct (step _ _) as [s|] eqn:Hstep; [|done].
      cbn [mbind option_bind] in Hturn.
      unfold returning in Hturn. rewrite Ht in Hturn. cbn [mbind option_bind] in Hturn.
      simpl in Hstep. rewrite Ht in Hstep. simpl in Hstep.
      unfold statement, lock, goto, unlock, with_pool, with_mem in Hstep.
      destruct (at_pc th) eqn:Hpc; try discriminate;
        repeat match type of Hstep with
               | context [match ?x with _ => _ end] => destruct x eqn:?; try discriminate
               end;
        injection Hstep as <-; injection Hturn as <-;
        cbn [workers shared threads];
        (apply (work_insert_lt _ _ t w th); [done..|]);
        unfold rank; cbn [line at_pc]; rewrite Hline, Hpc; lia.
    + injection Hturn as <-. cbn [workers shared threads].
      apply (work_insert_worker_lt _ _ t w th); [done..|].
      unfold rank. cbn [line at_pc]. rewrite Hline. lia.
    + destruct (writeMutex r); [done|]. injection Hturn as <-.
      cbn [workers shared threads].
      apply (work_insert_worker_lt _ _ t w th); [done..|].
      unfold rank. cbn [line at_pc]. rewrite Hline. lia.
    + destruct (step _ _) as [s|] eqn:Hstep; [|done]. injection Hturn as <-.
      simpl in Hstep. rewrite Ht in Hstep. simpl in Hstep.
      destruct (decide _); [|done].
      destruct (call_executeQuery _ _ _) as [[ok m1]|]; [|done]. injection Hstep as <-.
      unfold with_mem. cbn [workers shared threads].
      apply (work_insert_worker_lt _ _ t w th); [done..|].
      unfold rank. cbn [line at_pc]. rewrite Hline. lia.
    + injection Hturn as <-. cbn [workers shared threads].
      apply (work_insert_worker_lt _ _ t w th); [done..|].
      unfold rank. cbn [line at_pc]. rewrite Hline. lia.
    + destruct (step _ _) as [s|] eqn:Hstep; [|done]. injection Hturn as <-.
      simpl in Hstep. rewrite Ht in Hstep. simpl in Hstep.
      destruct (decide _); [|done]. injection Hstep as <-.
      cbn [workers shared threads].
      apply (work_insert_lt _ _ t w th); [done..|].
      unfold rank. cbn [line at_pc]. rewrite Hline. lia.
    + destruct Hat as [Hrel Hheld].
      destruct (step _ _) as [s|] eqn:Hstep; [|done].
      cbn [mbind option_bind] in Hturn.
      simpl in Hstep. rewrite Ht in Hstep. simpl in Hstep.
      unfold statement, lock, goto, unlock, with_pool, with_mem in Hstep.
      destruct Hrel as [Hpc|[Hpc|[Hpc|Hpc]]]; rewrite Hpc in Hstep;
        repeat match type of Hstep with
               | context [match ?x with _ => _ end] => destruct x eqn:?; try discriminate
               end;
        injection Hstep as <-; simpl in Hturn;
        rewrite list_lookup_insert_eq in Hturn by done;
        cbn [mbind option_bind at_pc] in Hturn;
        (destruct (decide _) as [Hd|Hd]; try discriminate Hd; try (by destruct Hd));
        injection Hturn as <-;
        cbn [workers shared threads];
        (apply (work_insert_lt _ _ t w th); [done..|]);
        unfold rank; cbn [line at_pc]; rewrite Hline, Hpc; lia.
  - destruct (step _ _) as [s|] eqn:Hstep; [|done]. injection Hturn as <-.
    simpl in Hstep. rewrite Ht in Hstep. simpl in Hstep.
    destruct (threads (shared r) !! w') as [tw|] eqn:Hw'; [|done]. simpl in Hstep.
    destruct (at_pc th) eqn:Hpc; try discriminate.
    destruct (blocked tw) eqn:Hb; [|done]. injection Hstep as <-.
    apply bool_decide_eq_true in Hb.
    assert (t ≠ w') as Hne by (intros ->; congruence).
    destruct (lookup_lt_is_Some_2 (workers r) w') as [ww Hww].
    { rewrite Hlen. by eapply lookup_lt_Some. }
    pose proof (Hl w' ww tw Hww Hw') as Hatw.
    unfold goto. cbn [workers shared threads].
    pose proof (work_insert_thread (workers r) (threads (shared r)) w' ww tw
                  (mkThread Get81_woken (held tw)) Hww Hw') as E1.
    pose proof (work_insert_thread (workers r)
                  (<[w' := mkThread Get81_woken (held tw)]> (threads (shared r))) t w th
                  (mkThread (Rel95 connection) (held th)) Hw) as E2.
    rewrite list_lookup_insert_ne in E2 by done. specialize (E2 Ht).
    assert (rank ww tw = 16 ∧ rank ww (mkThread Get81_woken (held tw)) = 18) as [R1 R2].
    { unfold linked_at in Hatw. unfold rank. cbn [at_pc]. rewrite Hb in Hatw |- *.
      destruct (line ww); simpl in Hatw; try (destruct Hatw as [? ?]; done).
      destruct Hatw as [[?|[?|[?|?]]] ?]; done. }
    assert (rank w th = 5 ∧ rank w (mkThread (Rel95 connection) (held th)) = 1) as [R3 R4].
    { unfold linked_at in Hat. unfold rank. cbn [at_pc]. rewrite Hpc in Hat |- *.
      destruct (line w); simpl in Hat; try (destruct Hat as [? ?]; done). }
    lia.
Qed.

Lemma run_turns_app (cs1 cs2 : list Turn) (r : Running W handle) :
  run_turns (cs1 ++ cs2) r = r1 ← run_turns cs1 r; run_turns cs2 r1.
Proof.
  revert r. induction cs1 as [|c cs1 IH]; intros r; [done|].
  cbn [app run_turns]. destruct (turn_step c r) as [r1|]; [|done].
  cbn [mbind option_bind]. apply IH.
Qed.

Lemma run_turns_work q0 h0 (cs : list Turn) (r r' : Running W handle) :
  worker_inv q0 h0 r →
  Forall no_spurious cs →
  run_turns cs r = Some r' →
  length cs + work_left r' ≤ work_left r.
Proof.
  revert r. induction cs as [|c cs IH]; intros r Hinv Hns Hrun.
  - injection Hrun as <-. simpl. lia.
  - apply Forall_cons in Hns as [Hc Hns].
    cbn [run_turns] in Hrun. destruct (turn_step c r) as [r1|] eqn:Hturn; [|done].
    cbn [mbind option_bind] in Hrun.
    pose proof (turn_step_work c r r1 (proj1 Hinv) Hc Hturn) as Hlt.
    pose proof (IH r1 (worker_inv_turn _ _ _ _ _ Hinv Hturn) Hns Hrun) as Hle.
    cbn [length]. lia.
Qed.

(** Going on with steps that are not wake-ups from nowhere, the workers
    all finish. *)
Lemma workers_finish q0 h0 (n : nat) (r : Running W handle) :
  q0 ≠ [] →
  (∀ c, c ∈ q0 → is_Some (h0 !! c)) →
  worker_inv q0 h0 r →
  work_left r ≤ n →
  ∃ cs r', Forall no_spurious cs ∧ run_turns cs r = Some r' ∧ finished r'.
Proof.
  intros Hne Hlive. revert r. induction n as [|n IH]; intros r Hinv Hle.
  - destruct (decide (finished r)) as [Hfin|Hnf]; [by exists [], r|].
    destruct (unfinished_worker_moves q0 h0 r Hne Hlive Hinv Hnf) as (c & Hc & [r1 Hturn]).
    pose proof (turn_step_work c r r1 (proj1 Hinv) Hc Hturn). lia.
  - destruct (decide (finished r)) as [Hfin|Hnf]; [by exists [], r|].
    destruct (unfinished_worker_moves q0 h0 r Hne Hlive Hinv Hnf) as (c & Hc & [r1 Hturn]).
    pose proof (turn_step_work c r r1 (proj1 Hinv) Hc Hturn) as Hlt.
    destruct (IH r1) as (cs & r' & Hns & Hrun & Hfin);
      [by eapply worker_inv_turn|lia|].
    exists (c :: cs), r'. split; [by apply Forall_cons|]. split; [|done].
    cbn [run_turns]. by rewrite Hturn.
Qed.

(** X14.  The workers run on a pool with at least one connection, all of
    them live objects.  Wherever a run has come to, the workers can all
    finish without any wake-up from nowhere; and no run goes on for ever:
    a run without such wake-ups has at most 19 steps for each worker, and
    each of its steps leaves fewer steps to take. *)
Theorem workers_always_finish (ids : list Z) p (m : Memory W handle) cs r :
  m_connections p ≠ [] →
  (∀ c, c ∈ m_connections p → is_Some (heap m !! c)) →
  run_turns cs (launched ids p m) = Some r →
  (∃ cs' r', Forall no_spurious cs' ∧ run_turns cs' r = Some r' ∧ finished r') ∧
  (∀ cs' r', Forall no_spurious cs' → run_turns cs' r = Some r' →
             length cs' + work_left r' ≤ work_left r) ∧
  (Forall no_spurious cs → length cs + work_left r ≤ 19 * length ids).
Proof.
  intros Hne Hlive Hrun.
  pose proof (worker_inv_launched ids p m) as Hinv0.
  pose proof (worker_inv_run _ _ cs _ r Hinv0 Hrun) as Hinv.
  split; [|split].
  - by apply (workers_finish (m_connections p) (heap m) (work_left r)).
  - intros cs' r' Hns Hrun'. by eapply run_turns_work.
  - intros Hns. rewrite <- (work_launched ids p m). by eapply run_turns_work.
Qed.

End WorkerFacts.

(** * [main] *)

Section MainFacts.
Context {W handle : Type} `{!Sqlite3 W handle}.

(** The loop of [initializePool] gives SQLite no statement and closes
    nothing, not even the handle of an open that failed. *)
Lemma initializePool_body_quiet i self (m : Memory W handle) self' m' :
  initializePool_body i self m = Some (self', m') →
  ∃ evs, trace (env m') = trace (env m) ++ evs ∧ execs evs = [] ∧ closes evs = [].
Proof.
  destruct (sqlite3_open (c_str (m_dbFile self)) (sqlite (env m))) as [[rc db] w] eqn:Hopen.
  unfold initializePool_body, make_shared, SQLiteDBConnection_ctor.
  rewrite Hopen. cbn [fst snd env heap sqlite trace emit].
  pose proof (isConnected_connects rc db) as Hconn.
  destruct (negb (rc =? SQLITE_OK)%Z) eqn:Hrc; cbn [fst snd env heap sqlite trace emit];
    rewrite lookup_insert_eq; cbn [mbind option_bind]; rewrite Hconn;
    destruct (connects (rc, db)) eqn:Hc; intros [= <- <-].
  - unfold connects in Hc. destruct db; [|done]. rewrite Hc in Hrc. done.
  - unfold destroy, cerr. cbn [fst snd env heap sqlite trace emit].
    rewrite lookup_insert_eq. cbn [SQLiteDBConnection_dtor m_db env heap sqlite trace emit].
    eexists. split; [rewrite <- !app_assoc; reflexivity|]. done.
  - eexists. split; [reflexivity|]. done.
  - unfold destroy, cerr. cbn [fst snd env heap sqlite trace emit].
    rewrite lookup_insert_eq.
    unfold connects in Hc. destruct db as [h|].
    { apply negb_false_iff in Hrc. congruence. }
    cbn [SQLiteDBConnection_dtor m_db env heap sqlite trace emit].
    eexists. split; [rewrite <- !app_assoc; reflexivity|]. done.
Qed.

Lemma initializePool_from_quiet n i self (m : Memory W handle) self' m' :
  initializePool_from n i self m = Some (self', m') →
  ∃ evs, trace (env m') = trace (env m) ++ evs ∧ execs evs = [] ∧ closes evs = [].
Proof.
  revert i self m. induction n as [|n IH]; intros i self m Hrun.
  - injection Hrun as <- <-. exists []. by rewrite app_nil_r.
  - cbn [initializePool_from] in Hrun.
    destruct (initializePool_body i self m) as [[self1 m1]|] eqn:Hbody; [|done].
    cbn [mbind option_bind] in Hrun.
    destruct (initializePool_body_quiet _ _ _ _ _ Hbody) as (evs1 & Htr1 & Hex1 & Hcl1).
    destruct (IH _ _ _ Hrun) as (evs2 & Htr2 & Hex2 & Hcl2).
    exists (evs1 ++ evs2). rewrite Htr2, Htr1, app_assoc.
    by rewrite execs_app, closes_app, Hex1, Hex2, Hcl1, Hcl2.
Qed.

(** Lines 149-163. *)
Lemma main_start_result dbFile poolSize numWorkers (m : Memory W handle) self m1 :
  ConnectionPool_ctor dbFile poolSize m = Some (self, m1) →
  match m_connections self with
  | [] => main_start dbFile poolSize numWorkers m = Some (waits_at_152 self m1)
  | c :: rest =>
      ∃ obj m4 evs,
        heap m1 !! c = Some obj ∧ isConnected obj = true ∧
        main_start dbFile poolSize numWorkers m
          = Some (joining (launched (worker_ids numWorkers)
                             (mkPool dbFile poolSize (rest ++ [c])) m4)) ∧
        heap m4 = heap m1 ∧
        trace (env m4) = trace (env m1) ++ evs ∧
        opens evs = [] ∧ execs evs = [(m_db obj, c_str create_table)] ∧ closes evs = []
  end.
Proof.
  intros Hctor.
  pose proof (ctor_objects_connected dbFile poolSize m self m1 Hctor) as Hobjs.
  destruct (ConnectionPool_ctor_result dbFile poolSize m) as (self0 & m0 & Hrun & R).
  rewrite Hctor in Hrun. injection Hrun as <- <-.
  destruct R as [Rf Rs _ _ _ _ _ _ _]. cbn [m_dbFile m_poolSize] in Rf, Rs.
  unfold main_start. rewrite Hctor. cbn [mbind option_bind]. unfold getConnection.
  destruct (m_connections self) as [|c rest] eqn:Hq; [done|].
  destruct (Hobjs c) as (obj & Hobj & Hc); [by apply list_elem_of_here|].
  unfold call_executeQuery, cout. cbn [heap env]. rewrite Hobj. cbn [mbind option_bind].
  destruct (sqlite3_exec (m_db obj) (c_str create_table)
              (sqlite (emit (ev_cout ("get connection successful " +:+ newline +:+ endl))
                         (env m1)))) as [[rc errMsg] w] eqn:Hexec.
  rewrite (executeQuery_connected obj create_table _ rc errMsg w Hc Hexec).
  unfold releaseConnection, queue_push, queue_pop.
  cbn [m_dbFile m_poolSize m_connections]. rewrite Hq, Rf, Rs. cbn [tail].
  exists obj.
  destruct (decide (rc = SQLITE_OK)); cbn [mbind option_bind];
    eexists _, _; (split; [done|]); (split; [done|]); (split; [reflexivity|]);
    cbn [heap env trace emit];
    (split; [by apply insert_id|]);
    (split; [rewrite <- app_assoc; reflexivity|]); by destruct errMsg.
Qed.

(** X15.  [main] up to the start of the workers.  The constructor always
    returns; it closes nothing and gives SQLite no statement.  When no
    open succeeded [main] stays inside the [getConnection] of line 152: no
    worker is started and the table is never created.  Otherwise the
    block of lines 151-155 gives SQLite the [CREATE TABLE] statement,
    once, on the handle of the first connection, and the workers start on
    the queue with that connection moved to the back, one worker for each
    index below [numWorkers]. *)
Theorem main_start_spec dbFile poolSize numWorkers (m : Memory W handle) :
  ∃ self m1 evs0,
    ConnectionPool_ctor dbFile poolSize m = Some (self, m1) ∧
    length (m_connections self) = successfully_opened_count dbFile poolSize m ∧
    trace (env m1) = trace (env m) ++ evs0 ∧ execs evs0 = [] ∧ closes evs0 = [] ∧
    match m_connections self with
    | [] =>
        ∀ cs, main_with dbFile poolSize numWorkers cs m = Some (waits_at_152 self m1)
    | c :: rest =>
        ∃ obj m4 evs,
          heap m1 !! c = Some obj ∧ isConnected obj = true ∧
          main_start dbFile poolSize numWorkers m
            = Some (joining (launched (worker_ids numWorkers)
                               (mkPool dbFile poolSize (rest ++ [c])) m4)) ∧
          heap m4 = heap m1 ∧
          trace (env m4) = trace (env m1) ++ evs ∧
          opens evs = [] ∧ execs evs = [(m_db obj, c_str create_table)] ∧
          closes evs = []
    end.
Proof.
  destruct (ConnectionPool_ctor_result dbFile poolSize m) as (self & m1 & Hctor & R).
  destruct (ConnectionPool_ctor_queue dbFile poolSize m self m1 Hctor) as (_ & Hlen & _).
  destruct (initializePool_from_quiet _ _ _ _ _ _ Hctor) as (evs0 & Htr0 & Hex0 & Hcl0).
  exists self, m1, evs0. do 5 (split; [done|]).
  pose proof (main_start_result dbFile poolSize numWorkers m self m1 Hctor) as Hstart.
  destruct (m_connections self) as [|c rest]; [|exact Hstart].
  intros cs. unfold main_with. by rewrite Hstart.
Qed.

(** When every worker has returned, every connection is back in the
    queue. *)
Lemma finished_queue q0 h0 (r : Running W handle) :
  worker_inv q0 h0 r → finished r → m_connections (pool (shared r)) ≡ₚ q0.
Proof.
  intros ((Hlen & Hl) & _ & Hacc & _) Hfin.
  unfold accounted in Hacc. rewrite <- Hacc.
  assert (checked_out (shared r) = []) as ->; [|by rewrite app_nil_r].
  apply hands_nil. intros t th Ht.
  destruct (lookup_lt_is_Some_2 (workers r) t) as [w Hw].
  { rewrite Hlen. by eapply lookup_lt_Some. }
  pose proof (Hl t w th Hw Ht) as Hat. unfold linked_at in Hat.
  unfold finished in Hfin. rewrite Forall_forall in Hfin.
  rewrite (Hfin w) in Hat by (by eapply list_elem_of_lookup_2).
  destruct Hat as [Hpc Hheld]. unfold in_hand. by rewrite Hpc, Hheld.
Qed.

(** X16.  A run of the program in which [main] returns.  It returns 0.
    From the start of the program to its end the opens are the
    [poolSize] opens of the constructor; SQLite was given the
    [CREATE TABLE] statement and the [INSERT] of each of the [numWorkers]
    workers, each once; every handle a successful open returned was
    closed exactly once and nothing else was closed; and every connection
    object the program allocated has been freed. *)
Theorem main_exit_spec dbFile poolSize numWorkers cs (m : Memory W handle) code mf :
  main_with dbFile poolSize numWorkers cs m = Some (exited code mf) →
  code = 0%Z ∧
  heap mf = heap m ∧
  ∃ evs,
    trace (env mf) = trace (env m) ++ evs ∧
    opens evs = (λ r, (c_str dbFile, r.1, r.2))
                  <$> attempts poolSize (c_str dbFile) (sqlite (env m)) ∧
    (execs evs).*2
      ≡ₚ c_str create_table :: ((λ i, c_str (worker_query i)) <$> worker_ids numWorkers) ∧
    closes evs ≡ₚ (λ r, r.2) <$> successfully_opened dbFile poolSize m.
Proof.
  intros Hmain.
  destruct (ConnectionPool_ctor_result dbFile poolSize m) as (self & m1 & Hctor & R).
  pose proof (ConnectionPool_ctor_queue dbFile poolSize m self m1 Hctor) as (Hnd & _ & _).
  pose proof (ctor_objects_connected dbFile poolSize m self m1 Hctor) as Hobjs.
  destruct (initializePool_from_quiet _ _ _ _ _ _ Hctor) as (evs0 & Htr0 & Hex0 & Hcl0).
  pose proof (main_start_result dbFile poolSize numWorkers m self m1 Hctor) as Hstart.
  destruct R as [Rf Rs Rq (evs0' & Htr0' & Hop0) Robj _ Rnew Rdom Rold].
  cbn [m_dbFile m_poolSize m_connections] in *.
  assert (evs0' = evs0) as -> by (apply (app_inv_head (trace (env m))); congruence).
  unfold main_with in Hmain.
  destruct (m_connections self) as [|c rest] eqn:Hq.
  { rewrite Hstart in Hmain. done. }
  destruct Hstart as (obj & m4 & evs1 & Hobj & Hc & Hstart & Hheap4 & Htr1 & Hop1 & Hex1 & Hcl1).
  rewrite Hstart in Hmain. cbn [mbind option_bind] in Hmain.
  destruct (run_turns cs _) as [r|] eqn:Hrun; [|done]. cbn [mbind option_bind] in Hmain.
  unfold main_return in Hmain.
  destruct (decide (finished r)) as [Hfin|]; [|done]. injection Hmain as <- <-.
  split; [done|].
  set (q1 := rest ++ [c]) in *.
  assert (q1 ≡ₚ c :: rest) as Hperm.
  { unfold q1. change (c :: rest) with ([c] ++ rest). apply Permutation_app_comm. }
  pose proof (worker_inv_run _ _ cs _ r
                (worker_inv_launched (worker_ids numWorkers) (mkPool dbFile poolSize q1) m4) Hrun)
    as Hinv.
  cbn [m_connections] in Hinv.
  pose proof (finished_queue _ _ r Hinv Hfin) as Hback.
  assert (m_connections (pool (shared r)) ≡ₚ c :: rest) as Hback' by (by rewrite Hback).
  assert (NoDup (m_connections (pool (shared r)))) as Hnd' by (by rewrite Hback').
  destruct Hinv as (_ & _ & _ & _ & _ & _ & Hheap).
  assert (∀ conn, conn ∈ q1 → ∃ o, heap m4 !! conn = Some o ∧ isConnected o = true) as Hconn.
  { intros conn Hin. rewrite Hheap4. apply Hobjs. by rewrite <- Hperm. }
  destruct (queries_sent_run (trace (env m4)) q1 (heap m4) cs
              (launched (worker_ids numWorkers) (mkPool dbFile poolSize q1) m4) r Hconn
              (worker_inv_launched (worker_ids numWorkers) (mkPool dbFile poolSize q1) m4))
    as [(evs2 & Htr2 & Hop2 & Hcl2 & Hex2 & _) Hids]; [|done|].
  { exists []. simpl. rewrite app_nil_r. repeat split; try done.
    - by rewrite submitted_launched.
    - intros db sql Hin. by apply elem_of_nil in Hin. }
  unfold ConnectionPool_dtor, shutdownPool.
  destruct (shutdownPool_from_spec (length (m_connections (pool (shared r)))) []
              (pool (shared r)) (mem (shared r)) (le_n _)) as (_ & Htr3 & _ & Hheap3).
  rewrite (doomed_unshared _ Hnd') in Htr3, Hheap3.
  split.
  - apply map_eq. intros p. rewrite Hheap3, Hheap, Hheap4.
    destruct (decide (p ∈ m_connections (pool (shared r)))) as [Hin|Hout].
    + symmetry. apply Rnew. by rewrite <- Hback'.
    + destruct (heap m !! p) as [o|] eqn:Hp; [by apply Rold|].
      apply not_elem_of_dom. rewrite Rdom. apply not_elem_of_union. split.
      * by apply not_elem_of_dom.
      * rewrite elem_of_list_to_set. by rewrite <- Hback'.
  - exists (evs0 ++ evs1 ++ evs2
            ++ close_events (heap (mem (shared r))) (m_connections (pool (shared r)))).
    split; [rewrite Htr3, Htr2, Htr1, Htr0, <- !app_assoc; done|].
    assert (close_events (heap (mem (shared r))) (m_connections (pool (shared r)))
            ≡ₚ (λ x, ev_close x.2) <$> successfully_opened dbFile poolSize m) as Hclose.
    { rewrite Hheap, Hheap4. unfold close_events at 1. rewrite Hback'.
      fold (close_events (heap m1) (c :: rest)).
      rewrite (close_events_connected (heap m1) (c :: rest) _ Robj); [done|].
      apply Forall_forall. intros x Hx. by apply list_elem_of_filter in Hx as [Hx _]. }
    assert (∀ rs : list (Z * option handle),
              opens ((λ x, ev_close x.2) <$> rs) = [] ∧
              execs ((λ x, ev_close x.2) <$> rs) = [] ∧
              closes ((λ x, ev_close x.2) <$> rs) = (λ x, x.2) <$> rs) as Hevs.
    { induction rs as [|x rs (IH1 & IH2 & IH3)]; [done|].
      unfold opens, execs, closes in *. simpl. split; [done|]. split; [done|].
      by f_equal. }
    assert (opens (close_events (heap (mem (shared r))) (m_connections (pool (shared r))))
            = []) as Hop3.
    { apply Permutation_nil_r. rewrite <- (proj1 (Hevs (successfully_opened dbFile poolSize m))).
      unfold opens. by rewrite Hclose. }
    assert (execs (close_events (heap (mem (shared r))) (m_connections (pool (shared r))))
            = []) as Hex3.
    { apply Permutation_nil_r.
      rewrite <- (proj1 (proj2 (Hevs (successfully_opened dbFile poolSize m)))).
      unfold execs. by rewrite Hclose. }
    assert (closes (close_events (heap (mem (shared r))) (m_connections (pool (shared r))))
            ≡ₚ (λ x, x.2) <$> successfully_opened dbFile poolSize m) as Hcl3.
    { rewrite <- (proj2 (proj2 (Hevs (successfully_opened dbFile poolSize m)))).
      unfold closes. by rewrite Hclose. }
    split; [|split].
    + rewrite !opens_app, Hop0, Hop1, Hop2, Hop3. by rewrite !app_nil_r.
    + rewrite !execs_app, Hex0, Hex1, Hex3, app_nil_r. cbn [app].
      rewrite fmap_cons. cbn [snd]. f_equiv.
      rewrite Hex2, (submitted_finished _ Hfin), Hids.
      unfold launched. cbn [workers]. by rewrite <- !list_fmap_compose.
    + rewrite !closes_app, Hcl0, Hcl1, Hcl2. cbn [app]. exact Hcl3.
Qed.

(** X17.  While [main] is at the [join]s the workers can go on, without
    any wake-up from nowhere, until [main] returns 0: the program never
    comes to a point from which it cannot end, once the workers have been
    started. *)
Theorem main_can_return dbFile poolSize numWorkers cs (m : Memory W handle) r :
  main_with dbFile poolSize numWorkers cs m = Some (joining r) →
  ∃ cs' mf,
    Forall no_spurious cs' ∧
    main_with dbFile poolSize numWorkers (cs ++ cs') m = Some (exited 0 mf).
Proof.
  intros Hmain.
  destruct (ConnectionPool_ctor_result dbFile poolSize m) as (self & m1 & Hctor & _).
  pose proof (ctor_objects_connected dbFile poolSize m self m1 Hctor) as Hobjs.
  pose proof (main_start_result dbFile poolSize numWorkers m self m1 Hctor) as Hstart.
  unfold main_with in Hmain |- *.
  destruct (m_connections self) as [|c rest] eqn:Hq.
  { rewrite Hstart in Hmain. done. }
  destruct Hstart as (obj & m4 & evs1 & Hobj & Hc & Hstart & Hheap4 & _).
  rewrite Hstart in Hmain |- *. cbn [mbind option_bind] in Hmain |- *.
  destruct (run_turns cs _) as [r1|] eqn:Hrun; [|done]. cbn [mbind option_bind] in Hmain.
  destruct (main_return r1) as [[code m']|]; [done|]. injection Hmain as ->.
  set (p := mkPool dbFile poolSize (rest ++ [c])) in *.
  pose proof (worker_inv_run _ _ cs _ r
                (worker_inv_launched (worker_ids numWorkers) p m4) Hrun) as Hinv.
  destruct (workers_finish (m_connections p) (heap m4) (work_left r) r)
    as (cs' & r' & Hns & Hrun' & Hfin); try done.
  { unfold p. cbn [m_connections]. by destruct rest. }
  { intros conn Hin. rewrite Hheap4.
    destruct (Hobjs conn) as (o & -> & _); [|done].
    unfold p in Hin. cbn [m_connections] in Hin.
    apply elem_of_app in Hin as [Hin|Hin].
    - by apply list_elem_of_further.
    - apply list_elem_of_singleton in Hin as ->. apply list_elem_of_here. }
  exists cs'. eexists. split; [done|].
  rewrite run_turns_app, Hrun. cbn [mbind option_bind]. rewrite Hrun'.
  cbn [mbind option_bind]. unfold main_return. rewrite decide_True by done. done.
Qed.

End MainFacts.

(** * The facts above, on runs of the scripted SQLite *)

(** Capacity 3, the second open fails: the destructor closes handles 0
    and 2. *)
Lemma ConnectionPool_ctor_dtor_witness :
  m_connections
    (ConnectionPool_dtor [] (Demo.built [0; 14; 0]%Z "test.db" 3).1
       (Demo.built [0; 14; 0]%Z "test.db" 3).2).1 = [] ∧
  trace (env (ConnectionPool_dtor [] (Demo.built [0; 14; 0]%Z "test.db" 3).1
                (Demo.built [0; 14; 0]%Z "test.db" 3).2).2)
    = trace (env (Demo.built [0; 14; 0]%Z "test.db" 3).2)
      ++ ((λ r, ev_close r.2)
            <$> successfully_opened "test.db" 3 (Scripted.boot [0; 14; 0]%Z)) ∧
  heap (ConnectionPool_dtor [] (Demo.built [0; 14; 0]%Z "test.db" 3).1
          (Demo.built [0; 14; 0]%Z "test.db" 3).2).2
    = heap (Scripted.boot [0; 14; 0]%Z).
Proof.
  apply (ConnectionPool_ctor_dtor "test.db" 3 (Scripted.boot [0; 14; 0]%Z)).
  vm_compute. reflexivity.
Defined.

(** One round trip on a pool of two connections. *)
Lemma round_trips_rotate_queue_witness :
  ∃ m',
    round_trips 1 (Demo.built [] "test.db" 2).1 (Demo.built [] "test.db" 2).2
    = Some (mkPool (m_dbFile (Demo.built [] "test.db" 2).1)
              (m_poolSize (Demo.built [] "test.db" 2).1)
              (drop 1 (m_connections (Demo.built [] "test.db" 2).1)
               ++ take 1 (m_connections (Demo.built [] "test.db" 2).1)), m') ∧
    (1 = available_count (Demo.built [] "test.db" 2).1 →
     round_trips 1 (Demo.built [] "test.db" 2).1 (Demo.built [] "test.db" 2).2
     = Some ((Demo.built [] "test.db" 2).1, m')).
Proof.
  apply (round_trips_rotate_queue 1 (Demo.built [] "test.db" 2).1
           (Demo.built [] "test.db" 2).2).
  vm_compute. lia.
Defined.

(** Three threads on two connections, thread 2 past the loop. *)
Lemma mutex_owned_in_critical_section_witness :
  m_mutex (Demo.outcome Demo.contended_past_loop
             (Demo.threads_on [0; 14; 0]%Z "test.db" 3 3)) = Some 2.
Proof.
  destruct (mutex_owned_in_critical_section
              (Demo.threads_on [0; 14; 0]%Z "test.db" 3 3) Demo.contended_past_loop
              (Demo.outcome Demo.contended_past_loop
                 (Demo.threads_on [0; 14; 0]%Z "test.db" 3 3)))
    as (Howner & _ & _).
  - reflexivity.
  - vm_compute. repeat constructor.
  - vm_compute. reflexivity.
  - apply Howner. exists (mkThread Get84 []). split; vm_compute; reflexivity.
Defined.

(** Two threads on one connection: thread 0 has it, thread 1 sleeps. *)
Lemma no_wakeup_is_lost_witness :
  m_connections
    (pool (Demo.outcome
             (getConnection_alone 0 ++ [call_getConnection 1; next 1; next 1])
             (Demo.threads_on [] "test.db" 1 2))) = [].
Proof.
  destruct (no_wakeup_is_lost (Demo.threads_on [] "test.db" 1 2)
              (getConnection_alone 0 ++ [call_getConnection 1; next 1; next 1])
              (Demo.outcome
                 (getConnection_alone 0 ++ [call_getConnection 1; next 1; next 1])
                 (Demo.threads_on [] "test.db" 1 2)))
    as (_ & Hempty).
  - vm_compute. repeat constructor.
  - vm_compute. reflexivity.
  - exists 1, (mkThread Get81_blocked []). split; vm_compute; reflexivity.
  - apply Hempty. intros [|[|t]] th Ht; vm_compute in Ht; [| |done];
      injection Ht as <-; reflexivity.
Defined.

(** Three threads on two connections: what thread 2 holds in the end is
    a connected object of the pool. *)
Lemma getConnection_returns_connected_witness :
  0 ∈ m_connections (Demo.built [0; 14; 0]%Z "test.db" 3).1 ∧
  ∃ obj,
    heap (mem (Demo.outcome Demo.contended (Demo.threads_on [0; 14; 0]%Z "test.db" 3 3)))
      !! 0 = Some obj ∧
    isConnected obj = true.
Proof.
  apply (getConnection_returns_connected "test.db" 3 (Scripted.boot [0; 14; 0]%Z)
           (Demo.built [0; 14; 0]%Z "test.db" 3).1
           (Demo.built [0; 14; 0]%Z "test.db" 3).2 3 Demo.contended
           (Demo.outcome Demo.contended (Demo.threads_on [0; 14; 0]%Z "test.db" 3 3)))
    with (t := 2) (th := mkThread Outside [0]).
  - vm_compute. reflexivity.
  - vm_compute. reflexivity.
  - vm_compute. reflexivity.
  - vm_compute. reflexivity.
  - left. vm_compute. repeat constructor.
Defined.

(** Two threads on a pool none of whose three opens succeeded. *)
Lemma empty_pool_blocks_everyone_witness :
  m_connections
    (pool (Demo.outcome
             [call_getConnection 0; next 0; next 0; call_getConnection 1;
              spurious_wakeup 0; next 0; next 0; next 1]
             (Demo.threads_on [14; 14; 14]%Z "missing.db" 3 2))) = [] ∧
  ∀ t th,
    threads (Demo.outcome
               [call_getConnection 0; next 0; next 0; call_getConnection 1;
                spurious_wakeup 0; next 0; next 0; next 1]
               (Demo.threads_on [14; 14; 14]%Z "missing.db" 3 2)) !! t = Some th →
    held th = [] ∧ (at_pc th = Outside ∨ in_loop (at_pc th) = true).
Proof.
  apply (empty_pool_blocks_everyone "missing.db" 3 (Scripted.boot [14; 14; 14]%Z)
           (Demo.built [14; 14; 14]%Z "missing.db" 3).1
           (Demo.built [14; 14; 14]%Z "missing.db" 3).2 2
           [call_getConnection 0; next 0; next 0; call_getConnection 1;
            spurious_wakeup 0; next 0; next 0; next 1]).
  - vm_compute. reflexivity.
  - vm_compute. reflexivity.
  - vm_compute. reflexivity.
  - vm_compute. reflexivity.
Defined.

(** Two workers on one connection, worker 1 asleep: worker 0 has
    connection 0, worker 1 has none. *)
Lemma workers_hold_distinct_connections_witness :
  length (omap holding
            (workers (Program.after Program.one_sleeps
                        (Program.workers_on [] "test.db" 1 [0; 1]%Z))))
  + available_count
      (pool (shared (Program.after Program.one_sleeps
                       (Program.workers_on [] "test.db" 1 [0; 1]%Z))))
  ≤ available_count (Demo.built [] "test.db" 1).1.
Proof.
  destruct (workers_hold_distinct_connections [0; 1]%Z
              (Demo.built [] "test.db" 1).1 (Demo.built [] "test.db" 1).2
              Program.one_sleeps
              (Program.after Program.one_sleeps
                 (Program.workers_on [] "test.db" 1 [0; 1]%Z)))
    as (_ & _ & Hcount).
  - vm_compute. repeat constructor. intros Hin. inversion Hin.
  - vm_compute. reflexivity.
  - exact Hcount.
Defined.

(** Worker 1 sleeps; worker 0 has gone on to the [executeQuery] of line
    138: it owns [writeMutex]. *)
Lemma writeMutex_serializes_queries_witness :
  writeMutex (Program.after (Program.one_sleeps ++ [turn 0; turn 0])
                (Program.workers_on [] "test.db" 1 [0; 1]%Z)) = Some 0.
Proof.
  destruct (writeMutex_serializes_queries [0; 1]%Z
              (Demo.built [] "test.db" 1).1 (Demo.built [] "test.db" 1).2
              (Program.one_sleeps ++ [turn 0; turn 0])
              (Program.after (Program.one_sleeps ++ [turn 0; turn 0])
                 (Program.workers_on [] "test.db" 1 [0; 1]%Z)))
    as (Howner & _ & _).
  - vm_compute. reflexivity.
  - apply Howner. exists (mkWorker 0 (L138 0)). split; vm_compute; reflexivity.
Defined.

(** Worker 1 sleeps, worker 0 has the connection: somebody can go on. *)
Lemma workers_never_stuck_witness :
  ∃ c,
    (∀ t, c ≠ turn_spurious t) ∧
    is_Some (turn_step c (Program.after Program.one_sleeps
                            (Program.workers_on [] "test.db" 1 [0; 1]%Z))).
Proof.
  apply (workers_never_stuck [0; 1]%Z
           (Demo.built [] "test.db" 1).1 (Demo.built [] "test.db" 1).2
           Program.one_sleeps).
  - vm_compute. discriminate.
  - intros c Hc.
    destruct (ctor_objects_connected "test.db" 1 (Scripted.boot [])
                (Demo.built [] "test.db" 1).1 (Demo.built [] "test.db" 1).2)
      with (c := c) as (obj & Hobj & _); [vm_compute; reflexivity|exact Hc|].
    by exists obj.
  - vm_compute. reflexivity.
  - apply (bool_decide_eq_false_1 (finished _)). vm_compute. reflexivity.
Defined.


(** The program as written, all opens succeeding, the ten workers one
    after the other. *)
Lemma main_exit_spec_witness :
  heap (Program.main_memory (Program.in_turn 10) (Scripted.boot []))
  = heap (Scripted.boot []) ∧
  ∃ evs,
    trace (env (Program.main_memory (Program.in_turn 10) (Scripted.boot [])))
    = trace (env (Scripted.boot [])) ++ evs ∧
    (execs evs).*2
      ≡ₚ c_str create_table :: ((λ i, c_str (worker_query i)) <$> worker_ids 10) ∧
    closes evs ≡ₚ (λ r, r.2) <$> successfully_opened "test.db" 5 (Scripted.boot []).
Proof.
  destruct (main_exit_spec "test.db" 5 10 (Program.in_turn 10) (Scripted.boot []) 0
              (Program.main_memory (Program.in_turn 10) (Scripted.boot [])))
    as (_ & Hheap & evs & Htr & _ & Hex & Hcl).
  - vm_compute. reflexivity.
  - split; [exact Hheap|]. exists evs.
    split; [exact Htr|]. split; [exact Hex|exact Hcl].
Defined.

(** Worker 1 sleeps, worker 0 has the connection: they can both finish,
    and the run was within its bound. *)
Lemma workers_always_finish_witness :
  (∃ cs' r',
     Forall no_spurious cs' ∧
     run_turns cs' (Program.after Program.one_sleeps
                      (Program.workers_on [] "test.db" 1 [0; 1]%Z)) = Some r' ∧
     finished r') ∧
  length Program.one_sleeps
  + work_left (Program.after Program.one_sleeps
                 (Program.workers_on [] "test.db" 1 [0; 1]%Z)) ≤ 19 * 2.
Proof.
  destruct (workers_always_finish [0; 1]%Z
              (Demo.built [] "test.db" 1).1 (Demo.built [] "test.db" 1).2
              Program.one_sleeps
              (Program.after Program.one_sleeps
                 (Program.workers_on [] "test.db" 1 [0; 1]%Z)))
    as (Hcan & _ & Hbound).
  - vm_compute. discriminate.
  - intros c Hc.
    destruct (ctor_objects_connected "test.db" 1 (Scripted.boot [])
                (Demo.built [] "test.db" 1).1 (Demo.built [] "test.db" 1).2)
      with (c := c) as (obj & Hobj & _); [vm_compute; reflexivity|exact Hc|].
    by exists obj.
  - vm_compute. reflexivity.
  - split; [exact Hcan|]. apply Hbound.
    vm_compute. repeat constructor; intros t; discriminate.
Defined.

(** The program as written, worker 0 at line 135 with a connection. *)
Lemma main_can_return_witness :
  ∃ cs' mf,
    Forall no_spurious cs' ∧
    main_with "test.db" 5 10 (replicate 7 (turn 0) ++ cs') (Scripted.boot [])
    = Some (exited 0 mf).
Proof.
  apply (main_can_return "test.db" 5 10 (replicate 7 (turn 0)) (Scripted.boot [])
           (Program.main_workers (replicate 7 (turn 0)) (Scripted.boot []))).
  vm_compute. reflexivity.
Defined.

(** A pool of two connections is shut down while a caller still has a
    pointer to connection 1: connection 0 is freed, connection 1 is
    not. *)
Lemma shutdownPool_closes_unshared_witness :
  heap (shutdownPool [1] (Demo.built [] "test.db" 2).1 (Demo.built [] "test.db" 2).2).2
    !! 0 = None ∧
  heap (shutdownPool [1] (Demo.built [] "test.db" 2).1 (Demo.built [] "test.db" 2).2).2
    !! 1 = heap (Demo.built [] "test.db" 2).2 !! 1.
Proof.
  destruct (shutdownPool_closes_unshared [1] (Demo.built [] "test.db" 2).1
              (Demo.built [] "test.db" 2).2) as (_ & _ & _ & _ & Hgone & Hkept).
  split.
  - apply Hgone.
    + vm_compute. repeat constructor.
    + intros Hin. apply list_elem_of_singleton in Hin. discriminate.
  - apply Hkept. by apply list_elem_of_singleton.
Defined.

(** A lone caller acquires the only connection, releases it and acquires
    again. *)
Lemma run_ops_returns_iff_witness :
  is_Some (run_ops [acquire; release 0; acquire] (Demo.built [] "test.db" 1).1
             (Demo.built [] "test.db" 1).2).
Proof.
  apply (run_ops_returns_iff [acquire; release 0; acquire] (Demo.built [] "test.db" 1).1
           (Demo.built [] "test.db" 1).2).
  intros [|[|[|[|k]]]]; vm_compute; lia.
Defined.

(** The program as written when none of the five opens succeeds. *)
Lemma main_start_spec_witness :
  ∃ self m1,
    ConnectionPool_ctor "test.db" 5 (Scripted.boot [14; 14; 14; 14; 14]%Z)
    = Some (self, m1) ∧
    length (m_connections self)
    = successfully_opened_count "test.db" 5 (Scripted.boot [14; 14; 14; 14; 14]%Z).
Proof.
  destruct (main_start_spec "test.db" 5 10 (Scripted.boot [14; 14; 14; 14; 14]%Z))
    as (self & m1 & evs0 & Hctor & Hlen & _).
  by exists self, m1.
Defined.

(** One object on a database that opens, two statements, the second one
    rejected: both reach SQLite, and the handle is closed once. *)
Lemma connection_lifetime_witness :
  ∃ evs,
    trace (lifetime "test.db" ["SELECT 1;"; "bad"] Demo.fresh_env).2
    = trace Demo.fresh_env ++ evs ∧
    execs evs = [(Some 0, "SELECT 1;"); (Some 0, "bad")] ∧
    closes evs = [Some 0].
Proof.
  pose proof (connection_lifetime "test.db" ["SELECT 1;"; "bad"] Demo.fresh_env) as H.
  change (sqlite3_open (c_str "test.db") (sqlite Demo.fresh_env))
    with (SQLITE_OK, Some 0, (1, @nil Z)) in H.
  cbv beta iota in H. destruct H as (evs & Htr & _ & Hex & Hcl).
  by exists evs.
Defined.
